(** * RP Studio chat server: retrieval, chunking and the chat route

    A shallow embedding of [server.js].  The repository holds two variants
    of the server: one that retrieves passages by embedding similarity
    (module [Embedding]) and one that retrieves them by keyword scoring
    (module [Keyword]).  Both share the JavaScript primitives of module
    [JS] and the exceptions, API, directory and request vocabulary of
    module [Server].  Strings are sequences of UTF-16 code units, numbers
    that count are integers, the entries of a vector are JSON numbers
    (doubles or [null]), similarities are IEEE doubles, and the state
    of the process, the knowledge directory and the log of API requests
    are threaded through a state and exception monad. *)

From Stdlib Require Import String Ascii.
From Stdlib Require Import List NArith ZArith Lia Bool.
From Stdlib Require Import Sorting.Sorted Sorting.Permutation.
From Stdlib Require Import PrimFloat.
From Stdlib Require Floats.
From Stdlib Require DecimalString.
Import ListNotations.

Set Implicit Arguments.

(* ================================================================== *)
(** ** JavaScript primitives *)
(* ================================================================== *)

Module JS.

(** A JavaScript string is a sequence of UTF-16 code units. *)
Definition jsstring := list N.

(** An ASCII literal as a JavaScript string. *)
Definition lit (s : string) : jsstring :=
  map N_of_ascii (list_ascii_of_string s).

Definition LF : N := 10.
Definition CR : N := 13.
Definition SP : N := 32.
Definition QUOTE : N := 34.

Definition str_eqb (a b : jsstring) : bool :=
  if list_eq_dec N.eq_dec a b then true else false.

(** Truthiness of a string: [Boolean(s)], [!s]. *)
Definition nonempty (s : jsstring) : bool :=
  match s with [] => false | _ :: _ => true end.

(** ECMAScript WhiteSpace and LineTerminator code units: what [trim]
    strips and what [\s] matches. *)
Definition isWhiteSpace (c : N) : bool :=
  existsb (N.eqb c)
    [9; 10; 11; 12; 13; 32; 160; 5760; 8232; 8233; 8239; 8287; 12288; 65279]%N
  || ((8192 <=? c) && (c <=? 8202))%N.

Fixpoint dropWhile {A} (p : A -> bool) (l : list A) : list A :=
  match l with
  | [] => []
  | x :: r => if p x then dropWhile p r else l
  end.

Definition trimStart (s : jsstring) : jsstring := dropWhile isWhiteSpace s.
Definition trimEnd (s : jsstring) : jsstring := rev (dropWhile isWhiteSpace (rev s)).
Definition trim (s : jsstring) : jsstring := trimEnd (trimStart s).

(** [s.slice(i, j)] for [0 <= i] and [0 <= j] (both are clamped to the
    length). *)
Definition slice {A} (s : list A) (i j : nat) : list A :=
  firstn (j - i) (skipn i s).

(** [a.slice(0, k)] for an arbitrary integer [k]: a negative [k] counts
    from the end of the array. *)
Definition slice0 {A} (a : list A) (k : Z) : list A :=
  let len := Z.of_nat (length a) in
  let fin := if (k <? 0)%Z then Z.max (len + k) 0 else Z.min k len in
  firstn (Z.to_nat fin) a.

Fixpoint startsWith (s p : jsstring) : bool :=
  match p, s with
  | [], _ => true
  | _ :: _, [] => false
  | x :: p', y :: s' => (x =? y)%N && startsWith s' p'
  end.

Definition endsWith (s p : jsstring) : bool := startsWith (rev s) (rev p).

(** [s.includes(p)]: [p] occurs as a contiguous substring. *)
Fixpoint includes (s p : jsstring) : bool :=
  startsWith s p ||
  match s with
  | [] => false
  | _ :: s' => includes s' p
  end.

(** [a.join(sep)]. *)
Fixpoint join (sep : jsstring) (a : list jsstring) : jsstring :=
  match a with
  | [] => []
  | [x] => x
  | x :: r => x ++ sep ++ join sep r
  end.

(** [s.replace(/\r/g, '')]. *)
Definition removeCR (s : jsstring) : jsstring :=
  filter (fun c => negb (c =? CR)%N) s.

(** [s.split(/\n{2,}/)] on a non-empty [s]: the pieces between maximal
    runs of two or more line feeds.  [cur] is the piece being read,
    reversed; [nl] counts the line feeds read since its last character. *)
Fixpoint splitBlankAux (cur : jsstring) (nl : nat) (s : jsstring) : list jsstring :=
  match s with
  | [] =>
      match nl with
      | 0 => [rev cur]
      | 1 => [rev (LF :: cur)]
      | _ => [rev cur; []]
      end
  | c :: r =>
      if (c =? LF)%N then splitBlankAux cur (S nl) r
      else match nl with
           | 0 => splitBlankAux (c :: cur) 0 r
           | 1 => splitBlankAux (c :: LF :: cur) 0 r
           | _ => rev cur :: splitBlankAux [c] 0 r
           end
  end.

Definition splitBlank (s : jsstring) : list jsstring := splitBlankAux [] 0 s.

(** [a.map((x, i) => f(x, i))], indices starting at [start]. *)
Fixpoint mapi_from {A B} (start : nat) (f : A -> nat -> B) (a : list A) : list B :=
  match a with
  | [] => []
  | x :: r => f x start :: mapi_from (S start) f r
  end.

Definition mapi {A B} (f : A -> nat -> B) (a : list A) : list B := mapi_from 0 f a.

(** Template rendering of a small non-negative integer. *)
Definition decimal (n : nat) : jsstring :=
  lit (DecimalString.NilZero.string_of_uint (Nat.to_uint n)).

(** [Array.prototype.sort(comparefn)].  ECMAScript requires the sort to be
    stable, so for a consistent comparator the result is the unique stable
    arrangement, computed here by stable insertion.  [positive x y] stands
    for [comparefn(x, y) > 0], that is, [x] has to come after [y].

    For a comparator that is not consistent (the difference of two
    similarities when one of them is NaN) ECMAScript leaves the order to
    the engine: the result is still a permutation of the array, and that
    is all that [sort] tells about it.  Every statement about the order
    of a result below is made for comparators that are consistent. *)
Section Sort.
Context {A : Type} (positive : A -> A -> bool).

Fixpoint insert (x : A) (l : list A) : list A :=
  match l with
  | [] => [x]
  | y :: r => if positive x y then y :: insert x r else x :: l
  end.

Fixpoint sort (l : list A) : list A :=
  match l with
  | [] => []
  | x :: r => insert x (sort r)
  end.

End Sort.

(** [s.split(' ')]: the pieces between single separators. *)
Fixpoint splitOnAux (sep : N) (cur : jsstring) (s : jsstring) : list jsstring :=
  match s with
  | [] => [rev cur]
  | c :: r =>
      if (c =? sep)%N then rev cur :: splitOnAux sep [] r
      else splitOnAux sep (c :: cur) r
  end.

Definition splitOn (sep : N) (s : jsstring) : list jsstring := splitOnAux sep [] s.

(** A [Set] of strings, in insertion order. *)
Definition has (set : list jsstring) (w : jsstring) : bool := existsb (str_eqb w) set.

Definition add (set : list jsstring) (w : jsstring) : list jsstring :=
  if has set w then set else set ++ [w].

Definition newSet (a : list jsstring) : list jsstring := fold_left add a [].

(** The Unicode tables of the engine: [String.prototype.toLowerCase] and
    the general categories L (letter) and N (number) of a code point.
    They are not part of the repository and are taken as a parameter. *)
Record unicode := {
  toLowerCase : jsstring -> jsstring;
  isLetter : N -> bool;
  isNumber : N -> bool
}.

Definition inRange (lo hi c : N) : bool := ((lo <=? c) && (c <=? hi))%N.

Definition isUpperAscii (c : N) : bool := inRange 65 90 c.
Definition isLowerAscii (c : N) : bool := inRange 97 122 c.
Definition isDigit (c : N) : bool := inRange 48 57 c.

(** The tables restricted to ASCII; they agree with the engine's on every
    string of ASCII characters. *)
Definition ascii_tables : unicode := {|
  toLowerCase := map (fun c => if isUpperAscii c then (c + 32)%N else c);
  isLetter := fun c => isUpperAscii c || isLowerAscii c;
  isNumber := isDigit
|}.

(** [\w] of a regular expression without the [u] and [i] flags. *)
Definition isWordChar (c : N) : bool :=
  isUpperAscii c || isLowerAscii c || isDigit c || (c =? 95)%N.

Definition isHighSurrogate (c : N) : bool := inRange 55296 56319 c.
Definition isLowSurrogate (c : N) : bool := inRange 56320 57343 c.

Definition codePoint (hi lo : N) : N :=
  (65536 + (hi - 55296) * 1024 + (lo - 56320))%N.

Section Unicode.
Variable U : unicode.

Definition keeps (cp : N) : bool := isLetter U cp || isNumber U cp || isWhiteSpace cp.

(** [s.replace(/[^\p{L}\p{N}\s]/gu, ' ')]: with the [u] flag the
    expression reads code points, so a surrogate pair is one character. *)
Fixpoint blankNonWord (s : jsstring) : jsstring :=
  match s with
  | [] => []
  | c :: r =>
      match r with
      | d :: r' =>
          if isHighSurrogate c && isLowSurrogate d then
            if keeps (codePoint c d) then c :: d :: blankNonWord r'
            else SP :: blankNonWord r'
          else (if keeps c then c else SP) :: blankNonWord r
      | [] => [if keeps c then c else SP]
      end
  end.

(** [s.replace(/\s+/g, ' ')]; [inRun] tells that the previous code unit
    was white space. *)
Fixpoint collapseAux (inRun : bool) (s : jsstring) : jsstring :=
  match s with
  | [] => []
  | c :: r =>
      if isWhiteSpace c then
        if inRun then collapseAux true r else SP :: collapseAux true r
      else c :: collapseAux false r
  end.

Definition collapseSpaces (s : jsstring) : jsstring := collapseAux false s.

End Unicode.

(** Word boundary after a word character: the end of the input or a
    character that is not a word character. *)
Definition atWordEnd (s : jsstring) : bool :=
  match s with
  | [] => true
  | c :: _ => negb (isWordChar c)
  end.

(** [/\b\d+/.test(s)]; [prevWord] tells that the previous code unit was a
    word character. *)
Fixpoint hasNumberAux (prevWord : bool) (s : jsstring) : bool :=
  match s with
  | [] => false
  | c :: r => (negb prevWord && isDigit c) || hasNumberAux (isWordChar c) r
  end.

Definition hasNumber (s : jsstring) : bool := hasNumberAux false s.

(** [test\b] at the head of [s]. *)
Definition matchTest (s : jsstring) : bool :=
  startsWith s (lit "test") && atWordEnd (skipn 4 s).

(** [re[\s-]?test\b] at the head of [s]: the optional separator is tried
    first, then its absence. *)
Definition matchReTest (s : jsstring) : bool :=
  startsWith s (lit "re") &&
  (match skipn 2 s with
   | c :: r => (isWhiteSpace c || (c =? 45)%N) && matchTest r
   | [] => false
   end || matchTest (skipn 2 s)).

(** [/\bre[\s-]?test\b/.test(s)]. *)
Fixpoint mentionsRetestAux (prevWord : bool) (s : jsstring) : bool :=
  match s with
  | [] => false
  | c :: r => (negb prevWord && matchReTest s) || mentionsRetestAux (isWordChar c) r
  end.

Definition mentionsRetest (s : jsstring) : bool := mentionsRetestAux false s.

(** The successive windows [s.slice(i, i + size)], [i] advancing by [step]
    until a window reaches the end of [s]: what the chunking loops cut a
    long block into. *)
Fixpoint windows {A} (size step fuel : nat) (s : list A) (i : nat) : list (list A) :=
  match fuel with
  | 0 => []
  | S fuel' =>
      if i <? length s then
        slice s i (i + size) ::
        (if length s <=? i + size then [] else windows size step fuel' s (i + step))
      else []
  end.

End JS.

(* ================================================================== *)
(** ** Exceptions, the hosted API and the server monad *)
(* ================================================================== *)

Module Server.
Import JS.

(** A thrown [Error]; [message] is [None] when the object has no
    [message]. *)
Record error := { message : option jsstring }.

Inductive res (A : Type) : Type :=
| Ok (a : A)
| Throw (e : error).
Arguments Ok {A} a.
Arguments Throw {A} e.

(** An entry of an embedding vector, as [JSON.parse] gives it: an IEEE
    double or [null]. *)
Inductive jsnum :=
| Num (x : float)
| Null.

(** An embedding vector: an array of JSON numbers. *)
Definition vec := list jsnum.

(** The vector of the doubles [l]. *)
Definition numbers (l : list float) : vec := map Num l.

(** [ToNumber] of an array element, as the arithmetic of [cosineSim]
    applies it: [null] is [+0], and an element past the end of the array
    ([undefined], here [None]) is NaN. *)
Definition toNumber (v : option jsnum) : float :=
  match v with
  | Some (Num x) => x
  | Some Null => 0
  | None => nan
  end.

(** [JSON.parse(JSON.stringify(v))] of an array element.  A finite double
    is written with the digits that read back as the same double, except
    that [-0] is written [0]; NaN and the infinities are written [null]. *)
Definition jsonNumber (v : jsnum) : jsnum :=
  match v with
  | Num x => if is_finite x then (if is_zero x then Num 0 else Num x) else Null
  | Null => Null
  end.

(** [JSON.parse(JSON.stringify(vectors))] *)
Definition jsonVectors (vectors : list vec) : list vec :=
  map (map jsonNumber) vectors.

(** ---- the hosted API ---- *)

Inductive embInput :=
| Batch (texts : list jsstring)
| Single (text : jsstring).

(** One request to the API, as the log of the world records it. *)
Inductive apiCall :=
| EmbeddingsCreate (input : embInput)
| ResponsesCreate (system user : jsstring).

(** What [client.responses.create] resolves to, as far as the route reads
    it: [out.output_text], [out.output[..].content[..].text.value] and
    [out.response.output_text].  [None] stands for an absent (or otherwise
    falsy) field. *)
Record contentItem := { text_value : option jsstring }.
Record outputEvent := { content : option (list contentItem) }.
Record modelOut := {
  output_text : option jsstring;
  output : option (list outputEvent);
  response_output_text : option jsstring
}.

(** The external service: each answer may depend on the calls made so far.
    [embeddings_create] gives the [embedding] fields of [resp.data]. *)
Record service := {
  embeddings_create : list apiCall -> embInput -> res (list vec);
  responses_create : list apiCall -> jsstring -> jsstring -> res modelOut
}.

(** ---- the knowledge directory ---- *)

Inductive node :=
| File (utf8 : res jsstring) (pdf : res (option jsstring))
    (* a regular file: [readFileSync(full, 'utf8')], and the [text] field
       of [pdfParse(readFileSync(full))] *)
| NotFile                     (* [statSync(full).isFile()] is false *)
| StatThrows (e : error).     (* [statSync(full)] throws *)

Inductive directory :=
| Missing                                     (* [existsSync] is false *)
| Unreadable (e : error)                      (* [readdirSync] throws *)
| Listing (entries : list (jsstring * node)).

(** ---- requests and responses ---- *)

(** A JSON value found at [req.body.message].  Numbers, arrays and objects
    are described by their truthiness and by what [String(v)] gives. *)
Inductive jsvalue :=
| JUndefined
| JNull
| JBool (b : bool)
| JString (s : jsstring)
| JOther (truthy : bool) (string_of : res jsstring).

Definition truthy (v : jsvalue) : bool :=
  match v with
  | JUndefined | JNull => false
  | JBool b => b
  | JString s => nonempty s
  | JOther t _ => t
  end.

(** [String(v)]. *)
Definition String_ (v : jsvalue) : res jsstring :=
  match v with
  | JUndefined => Ok (lit "undefined")
  | JNull => Ok (lit "null")
  | JBool true => Ok (lit "true")
  | JBool false => Ok (lit "false")
  | JString s => Ok s
  | JOther _ r => r
  end.

(** [req.body]: [None] when the request carried no JSON body, otherwise the
    value of its [message] property. *)
Record request := { body : option jsvalue }.

(** [res.status(..).json({..})]: the status and the fields of the body. *)
Record response := { status : nat; json : list (string * jsstring) }.

(** [(req.body && req.body.message) ? String(req.body.message) : ''] *)
Definition userMessageOf (req : request) : res jsstring :=
  match body req with
  | Some m => if truthy m then String_ m else Ok []
  | None => Ok []
  end.

(** [x || y] on strings that may be absent. *)
Definition orElse (x : option jsstring) (y : jsstring) : jsstring :=
  match x with
  | Some s => if nonempty s then s else y
  | None => y
  end.

(** The text pulled out of [out.output]:
    [out.output.flatMap(ev => ev?.content || []).map(c => c?.text?.value || '').join('\n').trim()] *)
Definition outputText (evs : list outputEvent) : jsstring :=
  trim (join [LF]
    (map (fun c => orElse (text_value c) [])
       (flat_map (fun ev => match content ev with Some cs => cs | None => [] end) evs))).

(** ---- the monad of the server: state [W], exceptions ---- *)

Section Monad.
Variable W : Type.

Definition M (A : Type) : Type := W -> res A * W.

Definition ret {A} (a : A) : M A := fun w => (Ok a, w).

Definition throw {A} (e : error) : M A := fun w => (Throw e, w).

Definition bind {A B} (m : M A) (k : A -> M B) : M B :=
  fun w =>
    match m w with
    | (Ok a, w') => k a w'
    | (Throw e, w') => (Throw e, w')
    end.

(** [try { m } catch (e) { h(e) }] *)
Definition tryCatch {A} (m : M A) (h : error -> M A) : M A :=
  fun w =>
    match m w with
    | (Ok a, w') => (Ok a, w')
    | (Throw e, w') => h e w'
    end.

Definition get : M W := fun w => (Ok w, w).
Definition modify (f : W -> W) : M unit := fun w => (Ok tt, f w).
Definition lift {A} (r : res A) : M A := fun w => (r, w).

(** [for (const x of l) body(x)] *)
Fixpoint forEach {A} (l : list A) (body : A -> M unit) : M unit :=
  match l with
  | [] => ret tt
  | x :: r => bind (body x) (fun _ => forEach r body)
  end.

End Monad.

Arguments ret {W A} a.
Arguments throw {W A} e.
Arguments get {W}.
Arguments modify {W} f.
Arguments lift {W A} r.
Arguments forEach {W A} l body.

(** The [TypeError] of reading the property [prop] of [undefined]; the
    text of its message is the engine's (V8). *)
Definition typeError (prop : string) : error :=
  {| message :=
       Some (lit "Cannot read properties of undefined (reading '" ++ lit prop ++ lit "')") |}.

End Server.

Declare Scope server_scope.
Delimit Scope server_scope with server.
Notation "x <- m ;; k" := (Server.bind m (fun x => k))
  (at level 61, m at next level, right associativity) : server_scope.
Notation "m ;;; k" := (Server.bind m (fun _ => k))
  (at level 61, right associativity) : server_scope.

(* ================================================================== *)
(** ** The keyword variant of the server *)
(* ================================================================== *)

Module Keyword.
Import JS Server.
Local Open Scope server_scope.

(** The mutable state of the process and of what it talks to. *)
Record world := {
  fs : directory;                      (* the [knowledge/] directory *)
  knowledgeChunks : list jsstring;     (* [let knowledgeChunks = []] *)
  calls : list apiCall                 (* requests sent to the API so far *)
}.

(** What is fixed when the process starts. *)
Record config := {
  tables : unicode;
  instructions : jsstring;   (* [RPTT_INSTRUCTIONS.txt], or [''] *)
  pdfParse : bool;           (* [pdfParse] is not [null] *)
  api : service
}.

Definition setChunks (k : list jsstring) (w : world) : world :=
  {| fs := fs w; knowledgeChunks := k; calls := calls w |}.

Definition logCall (c : apiCall) (w : world) : world :=
  {| fs := fs w; knowledgeChunks := knowledgeChunks w; calls := calls w ++ [c] |}.

(** [knowledgeChunks.push(c)] *)
Definition push (c : jsstring) : M world unit :=
  modify (fun w => setChunks (knowledgeChunks w ++ [c]) w).

Definition CAP : nat := 2000.

(** [for (let i = ..; i < p.length; i += 2000) knowledgeChunks.push(p.slice(i, i + 2000))];
    the loop runs at most [p.length] times, which bounds [fuel]. *)
Fixpoint pushSlices (fuel : nat) (p : jsstring) (i : nat) : M world unit :=
  match fuel with
  | 0 => ret tt
  | S fuel' =>
      if i <? length p then
        push (slice p i (i + CAP)) ;;; pushSlices fuel' p (i + CAP)
      else ret tt
  end.

(** The blocks of a text: [text.split(/\n{2,}/).map(s => s.trim()).filter(Boolean)] *)
Definition parts (text : jsstring) : list jsstring :=
  filter nonempty (map trim (splitBlank text)).

Definition pushChunks (text : jsstring) : M world unit :=
  if negb (nonempty text) then ret tt
  else
    forEach (parts text) (fun p =>
      if CAP <? length p then pushSlices (length p) p 0
      else push p).

Section WithConfig.
Variable cfg : config.

(** The body of the [for (const f of files)] loop. *)
Definition loadFile (entry : jsstring * node) : M world unit :=
  let (f, n) := entry in
  match n with
  | StatThrows e => throw e
  | NotFile => ret tt
  | File utf8 pdf =>
      let lower := toLowerCase (tables cfg) f in
      tryCatch
        (if endsWith lower (lit ".txt") then
           text <- lift utf8 ;; pushChunks text
         else if endsWith lower (lit ".pdf") then
           if negb (pdfParse cfg) then ret tt
           else
             tryCatch
               (parsed <- lift pdf ;; pushChunks (orElse parsed []))
               (fun _ => ret tt)
         else ret tt)
        (fun _ => ret tt)
  end.

Definition loadKnowledge : M world unit :=
  modify (setChunks []) ;;;
  w <- get ;;
  match fs w with
  | Missing => ret tt
  | Unreadable e => throw e
  | Listing files => forEach files loadFile
  end.

(** ---- the retriever ---- *)

Definition norm (s : jsstring) : jsstring :=
  trim (collapseSpaces (blankNonWord (tables cfg) (toLowerCase (tables cfg) s))).

Definition synonymSets : list (list jsstring) :=
  [ map lit ["retest"; "re test"; "re-test"; "retake"; "re take"; "re-take"];
    map lit ["fee"; "cost"; "charge"; "payment"; "price"];
    map lit ["wait"; "waiting"; "delay"; "hold"; "gap"; "cooldown"; "cool down"];
    map lit ["period"; "window"; "timeframe"; "timeline"];
    map lit ["hours"; "requirements"; "prerequisites"; "prereq"];
    map lit ["policy"; "rule"; "guideline"; "guidance"];
    map lit ["exam"; "practical"; "test"; "assessment"];
    map lit ["schedule"; "book"; "arrange"] ]%string.

Definition phraseBoosts : list jsstring :=
  map lit
    [ "retest fee"; "re test fee"; "re-test fee"; "waiting period";
      "wait period"; "retest waiting"; "re test waiting"; "re-test waiting";
      "how many hours"; "hours to retest"; "hours before retest" ]%string.

(** [qTokens]: the words of the question longer than two, closed under the
    synonym sets that one of them belongs to. *)
Definition qTokens (q : jsstring) : list jsstring :=
  fold_left
    (fun tokens set =>
       if existsb (has tokens) set then fold_left add set tokens else tokens)
    synonymSets
    (newSet (filter (fun w => 2 <? length w) (splitOn SP q))).

(** The score of one chunk, [q] being the normalised question. *)
Definition score (q : jsstring) (tokens : list jsstring) (c : jsstring) : nat :=
  let text := norm c in
  let score := 0 in
  let score := fold_left (fun s t => if includes text t then s + 1 else s) tokens score in
  let score := fold_left (fun s p => if includes text p then s + 6 else s) phraseBoosts score in
  let score := if mentionsRetest q && mentionsRetest text then score + 4 else score in
  let hasNumberInQ := hasNumber q in
  let hasNumberInC := hasNumber text in
  if hasNumberInQ && hasNumberInC then score + 2 else score.

(** [knowledgeChunks.map(c => ({ c, score }))] *)
Definition scored (chunks : list jsstring) (question : jsstring) : list (jsstring * nat) :=
  let q := norm question in
  let tokens := qTokens q in
  map (fun c => (c, score q tokens c)) chunks.

(** [(a, b) => b.score - a.score] is positive when [a] scores less. *)
Definition byScoreDesc (a b : jsstring * nat) : bool :=
  (0 <? Z.of_nat (snd b) - Z.of_nat (snd a))%Z.

Definition findRelevantChunks (w : world) (question : jsstring) (max : Z) : list jsstring :=
  match knowledgeChunks w with
  | [] => []
  | _ :: _ =>
      map fst
        (filter (fun x => 0 <? snd x)
           (slice0 (sort byScoreDesc (scored (knowledgeChunks w) question)) max))
  end.

(** ---- the chat route ---- *)

Definition system : jsstring :=
  lit "You are the Real Pilates" ++ [174%N] ++ lit " Studio Team Assistant." ++ [LF] ++
  lit "Use warm, professional, on-brand language aligned with Real Pilates" ++ [174%N] ++
  lit " studio operations." ++ [LF] ++
  lit "ONLY answer using the Studio policies and the provided " ++ [QUOTE] ++
  lit "Studio Reference" ++ [QUOTE] ++ lit " context below." ++ [LF] ++
  lit "If the answer is not clearly present, say: " ++ [QUOTE] ++
  lit "I don" ++ [8217%N] ++ lit "t have that in the RP Studio docs." ++ [QUOTE] ++
  (if nonempty (instructions cfg) then [LF; LF] ++ instructions cfg else []).

Definition fallback : jsstring :=
  lit "I don" ++ [8217%N] ++ lit "t have that in the RPTT Guide.".

(** [`[${i + 1}] ${c}`] *)
Definition renderHit (c : jsstring) (i : nat) : jsstring :=
  lit "[" ++ decimal (i + 1) ++ lit "] " ++ c.

Definition context (hits : list jsstring) : jsstring :=
  match hits with
  | [] => []
  | _ :: _ =>
      [LF; LF] ++ lit "Studio Reference (from uploaded PDFs):" ++ [LF] ++
      join [LF; LF] (mapi renderHit hits) ++ [LF; LF]
  end.

(** [client.responses.create({ model, input: [system turn, user turn] })] *)
Definition responsesCreate (sys usr : jsstring) : M world modelOut :=
  fun w => (responses_create (api cfg) (calls w) sys usr, logCall (ResponsesCreate sys usr) w).

Definition replyOf (out : modelOut) : jsstring :=
  let reply := [] in
  let reply :=
    match output_text out with
    | Some t => if nonempty t then t
                else match output out with Some evs => outputText evs | None => reply end
    | None => match output out with Some evs => outputText evs | None => reply end
    end in
  let reply := if negb (nonempty reply) then orElse (response_output_text out) reply else reply in
  if nonempty reply then reply else fallback.

(** The [try] block of the route. *)
Definition chatBody (req : request) : M world response :=
  userMessage <- lift (userMessageOf req) ;;
  w <- get ;;
  let hits := findRelevantChunks w userMessage 5 in
  out <- responsesCreate (system ++ context hits) userMessage ;;
  ret {| status := 200; json := [("reply"%string, replyOf out)] |}.

(** Its [catch] block: [res.status(500).json({ error: e.message || 'Server error' })] *)
Definition chatCatch (e : error) : M world response :=
  ret {| status := 500;
         json := [("error"%string, orElse (message e) (lit "Server error"))] |}.

(** [POST /api/chat] *)
Definition chat (req : request) : M world response :=
  tryCatch (chatBody req) chatCatch.

(** [POST /reload] *)
Definition reload : M world response :=
  tryCatch
    (loadKnowledge ;;;
     w <- get ;;
     ret {| status := 200;
            json := [("ok"%string, lit "true");
                     ("chunkCount"%string, decimal (length (knowledgeChunks w)))] |})
    (fun e =>
       ret {| status := 500;
              json := match message e with
                      | Some m => [("error"%string, m)]
                      | None => []
                      end |}).

End WithConfig.

End Keyword.

(* ================================================================== *)
(** ** The embedding variant of the server *)
(* ================================================================== *)

Module Embedding.
Import JS Server.
Local Open Scope server_scope.

(** An element of [knowledge]: [{ text, source }]. *)
Record chunk := { text : jsstring; source : jsstring }.

(** [knowledge/.index.json], the cache of the embeddings. *)
Inductive indexFile :=
| NoIndex                      (* the file does not exist *)
| BadIndex                     (* reading or parsing it throws, or its
                                  [embeddings] is not an array *)
| Index (cached : list vec).   (* [data.embeddings] *)

Record world := {
  fs : directory;               (* the [knowledge/] directory *)
  index : indexFile;            (* its file [.index.json] *)
  indexWritable : bool;         (* [writeFileSync(INDEX_PATH, ..)] succeeds *)
  knowledge : list chunk;       (* [let knowledge = []] *)
  embeddings : list vec;        (* [let embeddings = []] *)
  calls : list apiCall          (* requests sent to the API so far *)
}.

Record config := {
  tables : unicode;
  pdfParse : bool;           (* [pdfParse] is not [null] *)
  api : service
}.

Definition setKnowledge (k : list chunk) (w : world) : world :=
  {| fs := fs w; index := index w; indexWritable := indexWritable w;
     knowledge := k; embeddings := embeddings w; calls := calls w |}.

Definition setEmbeddings (e : list vec) (w : world) : world :=
  {| fs := fs w; index := index w; indexWritable := indexWritable w;
     knowledge := knowledge w; embeddings := e; calls := calls w |}.

Definition setIndex (i : indexFile) (w : world) : world :=
  {| fs := fs w; index := i; indexWritable := indexWritable w;
     knowledge := knowledge w; embeddings := embeddings w; calls := calls w |}.

Definition logCall (c : apiCall) (w : world) : world :=
  {| fs := fs w; index := index w; indexWritable := indexWritable w;
     knowledge := knowledge w; embeddings := embeddings w; calls := calls w ++ [c] |}.

(** [f.replace(/\.(pdf|txt)$/i, '').trim()]: without the [u] flag the [i]
    flag folds ASCII letters only. *)
Definition normName (f : jsstring) : jsstring :=
  let folded := map (fun c => if isUpperAscii c then (c + 32)%N else c) f in
  trim (if endsWith folded (lit ".pdf") || endsWith folded (lit ".txt")
        then firstn (length f - 4) f
        else f).

(** [knowledge.push(c)] *)
Definition push (c : chunk) : M world unit :=
  modify (fun w => setKnowledge (knowledge w ++ [c]) w).

Definition MAX : nat := 800.
Definition OVERLAP : nat := 150.

(** The [while (i < b.length)] loop of [pushChunks]; [i] grows at each
    turn, so the loop runs at most [b.length] times, which bounds [fuel]. *)
Fixpoint pushSlices (fuel : nat) (b src : jsstring) (i : nat) : M world unit :=
  match fuel with
  | 0 => ret tt
  | S fuel' =>
      if i <? length b then
        push {| text := slice b i (i + MAX); source := src |} ;;;
        if length b <=? i + MAX then ret tt
        else pushSlices fuel' b src (i + (MAX - OVERLAP))
      else ret tt
  end.

(** [text.replace(/\r/g, '').split(/\n{2,}/).map(s => s.trim()).filter(Boolean)] *)
Definition blocks (text : jsstring) : list jsstring :=
  filter nonempty (map trim (splitBlank (removeCR text))).

Definition pushChunks (text src : jsstring) : M world unit :=
  if negb (nonempty text) then ret tt
  else
    forEach (blocks text) (fun b =>
      if length b <=? MAX then push {| text := b; source := src |}
      else pushSlices (length b) b src 0).

Section WithConfig.
Variable cfg : config.

(** [client.embeddings.create({ model, input })] *)
Definition embeddingsCreate (input : embInput) : M world (list vec) :=
  fun w => (embeddings_create (api cfg) (calls w) input, logCall (EmbeddingsCreate input) w).

Definition BATCH : nat := 64.

(** [for (let i = 0; i < texts.length; i += BATCH)], accumulating [all]. *)
Fixpoint embedBatches (fuel : nat) (texts : list jsstring) (i : nat) (all : list vec)
  : M world (list vec) :=
  match fuel with
  | 0 => ret all
  | S fuel' =>
      if i <? length texts then
        resp <- embeddingsCreate (Batch (slice texts i (i + BATCH))) ;;
        embedBatches fuel' texts (i + BATCH) (all ++ resp)
      else ret all
  end.

(** The fresh build.  [writeFileSync(INDEX_PATH, JSON.stringify({ embeddings }, null, 2))]
    leaves in the file what [JSON.parse] will read from it. *)
Definition buildFresh : M world unit :=
  w <- get ;;
  let texts := map text (knowledge w) in
  all <- embedBatches (length texts) texts 0 [] ;;
  modify (setEmbeddings all) ;;;
  modify (fun w =>
            if indexWritable w then setIndex (Index (jsonVectors (embeddings w))) w else w).

Definition buildOrLoadEmbeddings : M world unit :=
  w <- get ;;
  match index w with
  | Index cached =>
      if length cached =? length (knowledge w) then modify (setEmbeddings cached)
      else buildFresh
  | NoIndex | BadIndex => buildFresh
  end.

(** The body of the [for (const f of files)] loop. *)
Definition loadFile (entry : jsstring * node) : M world unit :=
  let (f, n) := entry in
  match n with
  | StatThrows e => throw e
  | NotFile => ret tt
  | File utf8 pdf =>
      let lower := toLowerCase (tables cfg) f in
      tryCatch
        (if endsWith lower (lit ".txt") then
           text <- lift utf8 ;; pushChunks text (normName f)
         else if endsWith lower (lit ".pdf") then
           if negb (pdfParse cfg) then ret tt
           else
             tryCatch
               (parsed <- lift pdf ;; pushChunks (orElse parsed []) (normName f))
               (fun _ => ret tt)
         else ret tt)
        (fun _ => ret tt)
  end.

Definition loadKnowledge : M world unit :=
  modify (setKnowledge []) ;;;
  modify (setEmbeddings []) ;;;
  w <- get ;;
  match fs w with
  | Missing => ret tt
  | Unreadable e => throw e
  | Listing entries =>
      let files := filter (fun e => negb (startsWith (fst e) (lit "."))) entries in
      forEach files loadFile ;;;
      buildOrLoadEmbeddings
  end.

(** ---- the retriever ---- *)

(** The loop of [cosineSim]: [b[i]] is [undefined] past the end of [b],
    which the arithmetic turns into NaN, and a [null] entry counts as 0. *)
Fixpoint cosineLoop (a b : vec) (dot na nb : float) : float * float * float :=
  match a with
  | [] => (dot, na, nb)
  | ai :: a' =>
      let x := toNumber (Some ai) in
      let y := toNumber (hd_error b) in
      cosineLoop a' (tl b) (dot + x * y)%float (na + x * x)%float (nb + y * y)%float
  end.

#[warnings="-inexact-float"] Definition cosineSim (a b : vec) : float :=
  let '(dot, na, nb) := cosineLoop a b 0%float 0%float 0%float in
  (dot / (sqrt na * sqrt nb + 1e-8))%float.

(** [embeddings.map((vec, i) => ({ i, s: cosineSim(qVec, vec) }))] *)
Definition scored (qVec : vec) (embs : list vec) : list (nat * float) :=
  mapi (fun v i => (i, cosineSim qVec v)) embs.

(** [(a, b) => b.s - a.s] is positive. *)
Definition bySimDesc (a b : nat * float) : bool :=
  (0 <? snd b - snd a)%float.

(** The hits are [knowledge[i]], which is [undefined] ([None]) when [i] is
    not an index of [knowledge]. *)
Definition findRelevantChunksEmbedding (question : jsstring) (k : Z)
  : M world (list (option chunk)) :=
  w <- get ;;
  if negb (0 <? length (knowledge w)) || negb (0 <? length (embeddings w)) then ret []
  else
    qEmb <- embeddingsCreate (Single question) ;;
    match qEmb with
    | [] => throw (typeError "embedding")
    | qVec :: _ =>
        ret (map (fun x => nth_error (knowledge w) (fst x))
               (slice0 (sort bySimDesc (scored qVec (embeddings w))) k))
    end.

(** ---- the chat route ---- *)

Definition system : jsstring :=
  lit "You are the Real Pilates" ++ [174%N] ++ lit " Studio Team Assistant." ++ [LF] ++
  lit "Use warm, professional, concise language (2" ++ [8211%N] ++ lit "4 sentences)." ++ [LF] ++
  lit "Answer ONLY from " ++ [QUOTE] ++ lit "Studio Reference" ++ [QUOTE] ++
  lit " below. If the answer is not clearly present, say " ++ [QUOTE] ++
  lit "I don" ++ [8217%N] ++ lit "t have that in the RP Studio docs." ++ [QUOTE] ++ [LF] ++
  lit "Cite the primary source in parentheses at the end, e.g., " ++ [QUOTE] ++
  lit "(Employee Handbook)" ++ [QUOTE] ++ lit ".".

Definition fallback : jsstring :=
  lit "I don" ++ [8217%N] ++ lit "t have that in the RP Studio docs.".

(** [`[${i + 1}] (${h.source}) ${h.text}`] *)
Definition renderHit (h : chunk) (i : nat) : jsstring :=
  lit "[" ++ decimal (i + 1) ++ lit "] (" ++ source h ++ lit ") " ++ text h.

(** Reading [h.source] of an [undefined] hit throws. *)
Fixpoint defined (hits : list (option chunk)) : res (list chunk) :=
  match hits with
  | [] => Ok []
  | None :: _ => Throw (typeError "source")
  | Some h :: r =>
      match defined r with
      | Ok r' => Ok (h :: r')
      | Throw e => Throw e
      end
  end.

Definition context (hits : list chunk) : jsstring :=
  match hits with
  | [] => []
  | _ :: _ =>
      [LF; LF] ++ lit "Studio Reference:" ++ [LF] ++
      join [LF; LF] (mapi renderHit hits) ++ [LF; LF]
  end.

Definition responsesCreate (sys usr : jsstring) : M world modelOut :=
  fun w => (responses_create (api cfg) (calls w) sys usr, logCall (ResponsesCreate sys usr) w).

Definition replyOf (out : modelOut) : jsstring :=
  let reply := [] in
  let reply :=
    match output_text out with
    | Some t => if nonempty t then t
                else match output out with Some evs => outputText evs | None => reply end
    | None => match output out with Some evs => outputText evs | None => reply end
    end in
  if nonempty reply then reply else fallback.

(** The [try] block of the route. *)
Definition chatBody (req : request) : M world response :=
  userMessage <- lift (userMessageOf req) ;;
  hits <- findRelevantChunksEmbedding userMessage 8 ;;
  hits <- lift (defined hits) ;;
  out <- responsesCreate (system ++ context hits) userMessage ;;
  ret {| status := 200; json := [("reply"%string, replyOf out)] |}.

(** Its [catch] block: [res.status(500).json({ error: e.message || 'Server error' })] *)
Definition chatCatch (e : error) : M world response :=
  ret {| status := 500;
         json := [("error"%string, orElse (message e) (lit "Server error"))] |}.

(** [POST /api/chat] *)
Definition chat (req : request) : M world response :=
  tryCatch (chatBody req) chatCatch.

(** [POST /reload] *)
Definition reload : M world response :=
  tryCatch
    (loadKnowledge ;;;
     w <- get ;;
     ret {| status := 200;
            json := [("ok"%string, lit "true");
                     ("chunkCount"%string, decimal (length (knowledge w)))] |})
    (fun e =>
       ret {| status := 500;
              json := match message e with
                      | Some m => [("error"%string, m)]
                      | None => []
                      end |}).

End WithConfig.

End Embedding.

(* ================================================================== *)
(** ** Sample data *)
(* ================================================================== *)

Module Samples.
Import JS Server.

(** A model that always gives the same answer, and an embedding service
    that maps every text to the same unit vector. *)
Definition answer : modelOut :=
  {| output_text := Some (lit "The fee is 50 dollars. (Handbook)");
     output := None; response_output_text := None |}.

Definition flatService : service :=
  {| embeddings_create := fun _ input =>
       match input with
       | Batch texts => Ok (map (fun _ => numbers [1%float; 0%float]) texts)
       | Single _ => Ok [numbers [1%float; 0%float]]
       end;
     responses_create := fun _ _ _ => Ok answer |}.

(** A service that is down. *)
Definition deadService : service :=
  {| embeddings_create := fun _ _ => Throw {| message := Some (lit "Connection error.") |};
     responses_create := fun _ _ _ => Throw {| message := Some (lit "Connection error.") |} |}.

Definition kcfg : Keyword.config :=
  {| Keyword.tables := ascii_tables; Keyword.instructions := [];
     Keyword.pdfParse := true; Keyword.api := flatService |}.

Definition kcfg' : Keyword.config :=
  {| Keyword.tables := ascii_tables; Keyword.instructions := lit "Be brief.";
     Keyword.pdfParse := false; Keyword.api := deadService |}.

Definition corpus : list jsstring :=
  [ lit "Policy on hours";
    lit "The retest fee is 50 dollars.";
    lit "Nothing of interest";
    lit "fee fee test" ].

Definition kworld : Keyword.world :=
  {| Keyword.fs := Missing; Keyword.knowledgeChunks := corpus; Keyword.calls := [] |}.

Definition kworld' : Keyword.world :=
  {| Keyword.fs := Listing [(lit "notes.txt", File (Ok (lit "other")) (Ok None))];
     Keyword.knowledgeChunks := corpus;
     Keyword.calls := [ResponsesCreate (lit "s") (lit "u")] |}.

Definition question : jsstring := lit "What's the Re-Test fee??  12 ".

(** An embedding service that tells the texts that start with [h] from the
    others. *)
Definition sampleE (t : jsstring) : vec :=
  if startsWith t (lit "h") then numbers [1%float; 0%float] else numbers [0%float; 1%float].

Definition embedService : service :=
  {| embeddings_create := fun _ input =>
       match input with
       | Batch texts => Ok (map sampleE texts)
       | Single t => Ok [sampleE t]
       end;
     responses_create := fun _ _ _ => Ok answer |}.

Definition ecfg : Embedding.config :=
  {| Embedding.tables := ascii_tables; Embedding.pdfParse := true;
     Embedding.api := embedService |}.

Definition binary : error := {| message := Some (lit "not a text file") |}.

(** A knowledge directory with a hidden file, a subdirectory, a text file,
    a file of another kind and a PDF. *)
Definition dir : directory :=
  Listing
    [ (lit ".hidden.txt", File (Ok (lit "secret")) (Throw binary));
      (lit "archive", NotFile);
      (lit "Handbook.TXT",
        File (Ok (lit "hello team" ++ [LF; LF] ++ lit "Retest fee: 50")) (Throw binary));
      (lit "notes.md", File (Ok (lit "ignored")) (Throw binary));
      (lit "Guide.pdf", File (Throw binary) (Ok (Some (lit "wait two weeks")))) ].

Definition kworld0 : Keyword.world :=
  {| Keyword.fs := dir; Keyword.knowledgeChunks := corpus; Keyword.calls := [] |}.

(** A paragraph of two lines with a Windows line end. *)
Definition paragraph : jsstring := lit "one" ++ [CR; LF] ++ lit "two".

(** A directory with one text file, before and after the file is edited. *)
Definition dirHello : directory :=
  Listing [(lit "a.txt", File (Ok (lit "hello")) (Throw binary))].

Definition dirWorld : directory :=
  Listing [(lit "a.txt", File (Ok (lit "world")) (Throw binary))].

Definition startWorld : Embedding.world :=
  {| Embedding.fs := dirHello; Embedding.index := Embedding.NoIndex;
     Embedding.indexWritable := true; Embedding.knowledge := [];
     Embedding.embeddings := []; Embedding.calls := [] |}.

(** The directory changes on disk. *)
Definition edit (d : directory) (w : Embedding.world) : Embedding.world :=
  {| Embedding.fs := d; Embedding.index := Embedding.index w;
     Embedding.indexWritable := Embedding.indexWritable w;
     Embedding.knowledge := Embedding.knowledge w;
     Embedding.embeddings := Embedding.embeddings w;
     Embedding.calls := Embedding.calls w |}.

(** A loaded process with three chunks and their vectors. *)
Definition passages : list Embedding.chunk :=
  [ {| Embedding.text := lit "hello team"; Embedding.source := lit "Handbook" |};
    {| Embedding.text := lit "Retest fee: 50"; Embedding.source := lit "Handbook" |};
    {| Embedding.text := lit "wait two weeks"; Embedding.source := lit "Guide" |} ].

Definition rworld : Embedding.world :=
  {| Embedding.fs := Missing; Embedding.index := Embedding.NoIndex;
     Embedding.indexWritable := false;
     Embedding.knowledge := passages;
     Embedding.embeddings :=
       [numbers [0.5%float; 0.5%float]; numbers [0%float; 1%float];
        numbers [1%float; 0%float]];
     Embedding.calls := [] |}.

Definition eworld0 : Embedding.world :=
  {| Embedding.fs := dir; Embedding.index := Embedding.NoIndex;
     Embedding.indexWritable := true;
     Embedding.knowledge := [ {| Embedding.text := lit "old"; Embedding.source := lit "old" |} ];
     Embedding.embeddings := [numbers [0%float; 1%float]]; Embedding.calls := [] |}.

End Samples.

(* ================================================================== *)
(** ** Facts about the JavaScript primitives *)
(* ================================================================== *)

Module JSFacts.
Import JS.

Lemma str_eqb_eq a b : str_eqb a b = true <-> a = b.
Proof.
  unfold str_eqb. destruct (list_eq_dec N.eq_dec a b); split; congruence.
Qed.

Lemma nonempty_true (s : jsstring) : nonempty s = true <-> s <> [].
Proof. destruct s; simpl; split; congruence. Qed.

Lemma slice_length {A} (s : list A) i j :
  length (slice s i j) = Nat.min (j - i) (length s - i).
Proof. unfold slice. rewrite length_firstn, length_skipn. reflexivity. Qed.

Lemma slice_all {A} (s : list A) n : length s <= n -> slice s 0 n = s.
Proof.
  intros H. unfold slice. simpl. rewrite Nat.sub_0_r. now apply firstn_all2.
Qed.

(** The tail of a window is the head of the next one. *)
Lemma slice_overlap {A} (s : list A) a size step :
  step <= size ->
  skipn step (slice s a (a + size)) = firstn (size - step) (slice s (a + step) (a + step + size)).
Proof.
  intros Hle. unfold slice.
  replace (a + size - a) with size by lia.
  replace (a + step + size - (a + step)) with size by lia.
  rewrite skipn_firstn_comm, skipn_skipn, firstn_firstn.
  replace (Nat.min (size - step) size) with (size - step) by lia.
  now rewrite (Nat.add_comm step a).
Qed.

Section Windows.
Context {A : Type}.
Variables size step : nat.
Hypothesis step_pos : 0 < step.
Hypothesis step_le : step <= size.

(** The [n]-th window starts at [i + n * step], inside the list. *)
Lemma windows_nth fuel (s : list A) : forall n i w,
  nth_error (windows size step fuel s i) n = Some w ->
  w = slice s (i + n * step) (i + n * step + size) /\ i + n * step < length s.
Proof.
  induction fuel as [|fuel IH]; intros n i w H; simpl in H.
  - destruct n; discriminate.
  - destruct (Nat.ltb_spec i (length s)) as [Hi|Hi].
    + destruct n as [|n]; simpl in H.
      * inversion H; subst. simpl. rewrite Nat.add_0_r. auto.
      * destruct (Nat.leb_spec (length s) (i + size)).
        -- destruct n; discriminate.
        -- apply IH in H. destruct H as [-> H].
           replace (i + step + n * step) with (i + S n * step) in * by (simpl; lia).
           auto.
    + destruct n; discriminate.
Qed.

(** A window that has a successor stops short of the end of the list. *)
Lemma windows_next fuel (s : list A) : forall n i w,
  nth_error (windows size step fuel s i) (S n) = Some w ->
  i + n * step + size < length s.
Proof.
  induction fuel as [|fuel IH]; intros n i w H; simpl in H.
  - discriminate.
  - destruct (Nat.ltb_spec i (length s)) as [Hi|Hi]; [|discriminate].
    simpl in H.
    destruct (Nat.leb_spec (length s) (i + size)) as [Hs|Hs].
    + destruct n; discriminate.
    + destruct n as [|n].
      * simpl. lia.
      * apply IH in H. simpl. lia.
Qed.

(** With fuel for every turn of the loop, the windows cover the list. *)
Lemma windows_cover fuel (s : list A) : forall i j,
  length s - i <= fuel -> i <= j < length s ->
  exists n w, nth_error (windows size step fuel s i) n = Some w /\
              i + n * step <= j < i + n * step + length w.
Proof.
  induction fuel as [|fuel IH]; intros i j Hfuel Hj; simpl.
  - lia.
  - destruct (Nat.ltb_spec i (length s)) as [Hi|Hi]; [|lia].
    destruct (Nat.lt_ge_cases j (i + size)) as [Hin|Hout].
    + exists 0, (slice s i (i + size)). split; [reflexivity|].
      rewrite slice_length. lia.
    + destruct (Nat.leb_spec (length s) (i + size)) as [Hs|Hs]; [lia|].
      destruct (IH (i + step) j) as (n & w & Hn & Hw); [lia|lia|].
      exists (S n), w. split; [exact Hn|]. simpl. lia.
Qed.

Lemma windows_nonempty fuel (s : list A) : forall i w,
  0 < size -> In w (windows size step fuel s i) -> w <> [] /\ length w <= size.
Proof.
  intros i w Hsize Hin. apply In_nth_error in Hin. destruct Hin as [n Hn].
  apply windows_nth in Hn. destruct Hn as [-> Hlt].
  split.
  - intros E. apply (f_equal (@length A)) in E. rewrite slice_length in E. simpl in E. lia.
  - rewrite slice_length. lia.
Qed.

End Windows.

End JSFacts.

(* ================================================================== *)
(** ** Chunking *)
(* ================================================================== *)

Module ChunkFacts.
Import JS Server JSFacts.

Lemma forEach_app {W A B} (proj : W -> list B) (upd : list B -> W -> W)
      (body : A -> M W unit) (g : A -> list B) :
  (forall k w, proj (upd k w) = k) ->
  (forall k k' w, upd k (upd k' w) = upd k w) ->
  (forall w, upd (proj w) w = w) ->
  (forall x w, body x w = (Ok tt, upd (proj w ++ g x) w)) ->
  forall l w, forEach l body w = (Ok tt, upd (proj w ++ concat (map g l)) w).
Proof.
  intros Hproj Hupd Hid Hbody l.
  induction l as [|x l IH]; intros w; simpl.
  - unfold ret. now rewrite app_nil_r, Hid.
  - unfold bind. rewrite Hbody, IH, Hproj, Hupd, app_assoc. reflexivity.
Qed.

(** *** The keyword variant *)

Lemma kw_set_get k w : Keyword.knowledgeChunks (Keyword.setChunks k w) = k.
Proof. reflexivity. Qed.

Lemma kw_set_set k k' w : Keyword.setChunks k (Keyword.setChunks k' w) = Keyword.setChunks k w.
Proof. reflexivity. Qed.

Lemma kw_set_id w : Keyword.setChunks (Keyword.knowledgeChunks w) w = w.
Proof. now destruct w. Qed.

Lemma kw_pushSlices fuel p : forall i w,
  Keyword.pushSlices fuel p i w
  = (Ok tt, Keyword.setChunks
              (Keyword.knowledgeChunks w ++ windows Keyword.CAP Keyword.CAP fuel p i) w).
Proof.
  induction fuel as [|fuel IH]; intros i w; simpl.
  - unfold ret. now rewrite app_nil_r, kw_set_id.
  - destruct (Nat.ltb_spec i (length p)) as [Hi|Hi].
    + unfold bind, Keyword.push, modify. rewrite IH, kw_set_get, kw_set_set, <- app_assoc.
      simpl. destruct (Nat.leb_spec (length p) (i + Keyword.CAP)) as [Hs|Hs]; [|reflexivity].
      destruct fuel; simpl; [reflexivity|].
      destruct (Nat.ltb_spec (i + Keyword.CAP) (length p)); [lia|reflexivity].
    + unfold ret. now rewrite app_nil_r, kw_set_id.
Qed.

(** What [pushChunks] stores for one block. *)
Definition kw_group (p : jsstring) : list jsstring :=
  if Keyword.CAP <? length p then windows Keyword.CAP Keyword.CAP (length p) p 0 else [p].

Lemma kw_pushChunks text w :
  Keyword.pushChunks text w
  = (Ok tt, Keyword.setChunks
              (Keyword.knowledgeChunks w ++ concat (map kw_group (Keyword.parts text))) w).
Proof.
  unfold Keyword.pushChunks. destruct text as [|c text].
  - simpl. unfold ret. now rewrite app_nil_r, kw_set_id.
  - cbv beta iota delta [nonempty negb].
    apply (forEach_app Keyword.knowledgeChunks Keyword.setChunks);
      auto using kw_set_get, kw_set_set, kw_set_id.
    intros p w'. unfold kw_group. destruct (Keyword.CAP <? length p).
    + apply kw_pushSlices.
    + reflexivity.
Qed.

(** *** The embedding variant *)

Lemma em_set_get k w : Embedding.knowledge (Embedding.setKnowledge k w) = k.
Proof. reflexivity. Qed.

Lemma em_set_set k k' w :
  Embedding.setKnowledge k (Embedding.setKnowledge k' w) = Embedding.setKnowledge k w.
Proof. reflexivity. Qed.

Lemma em_set_id w : Embedding.setKnowledge (Embedding.knowledge w) w = w.
Proof. now destruct w. Qed.

Definition mkChunk (src t : jsstring) : Embedding.chunk :=
  {| Embedding.text := t; Embedding.source := src |}.

Definition STEP : nat := Embedding.MAX - Embedding.OVERLAP.

Lemma em_pushSlices fuel b src : forall i w,
  Embedding.pushSlices fuel b src i w
  = (Ok tt, Embedding.setKnowledge
              (Embedding.knowledge w
               ++ map (mkChunk src) (windows Embedding.MAX STEP fuel b i)) w).
Proof.
  induction fuel as [|fuel IH]; intros i w.
  - simpl. unfold ret. now rewrite app_nil_r, em_set_id.
  - cbn [Embedding.pushSlices windows]. destruct (i <? length b).
    + unfold bind, Embedding.push, modify.
      destruct (length b <=? i + Embedding.MAX).
      * reflexivity.
      * fold STEP. rewrite IH. cbn [map]. rewrite em_set_get, em_set_set, <- app_assoc.
        reflexivity.
    + unfold ret. cbn [map]. now rewrite app_nil_r, em_set_id.
Qed.

Definition em_group (src b : jsstring) : list Embedding.chunk :=
  if length b <=? Embedding.MAX then [mkChunk src b]
  else map (mkChunk src) (windows Embedding.MAX STEP (length b) b 0).

Lemma em_pushChunks text src w :
  Embedding.pushChunks text src w
  = (Ok tt, Embedding.setKnowledge
              (Embedding.knowledge w ++ concat (map (em_group src) (Embedding.blocks text))) w).
Proof.
  unfold Embedding.pushChunks. destruct text as [|c text].
  - simpl. unfold ret. now rewrite app_nil_r, em_set_id.
  - cbv beta iota delta [nonempty negb].
    apply (forEach_app Embedding.knowledge Embedding.setKnowledge);
      auto using em_set_get, em_set_set, em_set_id.
    intros b w'. unfold em_group. destruct (length b <=? Embedding.MAX).
    + reflexivity.
    + apply em_pushSlices.
Qed.

Lemma blocks_nonempty (l : list jsstring) b : In b (filter nonempty l) -> b <> [].
Proof. intros H. apply filter_In in H. now apply nonempty_true. Qed.

Lemma step_facts : 0 < STEP /\ STEP <= Embedding.MAX /\ 0 < Embedding.MAX
                   /\ Embedding.MAX - STEP = Embedding.OVERLAP.
Proof. unfold STEP, Embedding.MAX, Embedding.OVERLAP. lia. Qed.

Lemma cap_facts : 0 < Keyword.CAP.
Proof. unfold Keyword.CAP. lia. Qed.

End ChunkFacts.

Section ChunkingClaims.
Import JS Server JSFacts ChunkFacts.

(** A chunk [c] holds the characters of block [b] from offset [off] on, and
    so the character at position [j] when [j] falls inside it. *)
Definition holds (b c : jsstring) (cap off j : nat) : Prop :=
  c = slice b off (off + cap) /\ off <= j < off + length c.

Lemma kw_group_ok (p : jsstring) :
  p <> [] ->
  Forall (fun c => c <> [] /\ length c <= Keyword.CAP) (kw_group p) /\
  (forall j, j < length p ->
     exists n c off, nth_error (kw_group p) n = Some c /\ holds p c Keyword.CAP off j).
Proof.
  intros Hp. unfold kw_group. pose proof cap_facts as Hcap.
  destruct (Nat.ltb_spec Keyword.CAP (length p)) as [Hlong|Hshort]; cbv iota.
  - split.
    + apply Forall_forall. intros c Hc.
      eapply (windows_nonempty Hcap (le_n _)); eauto.
    + intros j Hj.
      destruct (@windows_cover _ _ _ Hcap (le_n _) (length p) p 0 j)
        as (n & c & Hn & Hc); [lia|lia|].
      exists n, c, (0 + n * Keyword.CAP). split; [exact Hn|].
      split; [|exact Hc].
      now apply (windows_nth Hcap (le_n _)) in Hn.
  - split.
    + constructor; [split; assumption|constructor].
    + intros j Hj. exists 0, p, 0. split; [reflexivity|].
      split; [|lia]. symmetry. now apply slice_all.
Qed.

Lemma em_group_ok (src b : jsstring) :
  b <> [] ->
  Forall (fun c => Embedding.text c <> [] /\ length (Embedding.text c) <= Embedding.MAX
                   /\ Embedding.source c = src) (em_group src b) /\
  (forall j, j < length b ->
     exists n c off, nth_error (em_group src b) n = Some c
                     /\ holds b (Embedding.text c) Embedding.MAX off j) /\
  (forall n c c', nth_error (em_group src b) n = Some c ->
                  nth_error (em_group src b) (S n) = Some c' ->
     skipn (Embedding.MAX - Embedding.OVERLAP) (Embedding.text c)
       = firstn Embedding.OVERLAP (Embedding.text c')
     /\ length (firstn Embedding.OVERLAP (Embedding.text c')) = Embedding.OVERLAP).
Proof.
  intros Hb. unfold em_group.
  destruct step_facts as (Hstep & Hle & Hmax & Hov).
  destruct (Nat.leb_spec (length b) Embedding.MAX) as [Hshort|Hlong]; cbv iota.
  - split; [|split].
    + constructor; [repeat split; assumption|constructor].
    + intros j Hj. exists 0, (mkChunk src b), 0. split; [reflexivity|].
      split; [|simpl; lia]. simpl. symmetry. now apply slice_all.
    + intros n c c' _ H. destruct n; discriminate.
  - split; [|split].
    + apply Forall_forall. intros c Hc. apply in_map_iff in Hc.
      destruct Hc as (t & <- & Ht). simpl.
      destruct (@windows_nonempty _ _ _ Hstep Hle (length b) b 0 t Hmax Ht); auto.
    + intros j Hj.
      destruct (@windows_cover _ _ _ Hstep Hle (length b) b 0 j)
        as (n & t & Hn & Ht); [lia|lia|].
      exists n, (mkChunk src t), (0 + n * STEP). split.
      * apply map_nth_error. exact Hn.
      * split; [|exact Ht]. simpl. now apply (windows_nth Hstep Hle) in Hn.
    + intros n c c' Hc Hc'. rewrite nth_error_map in Hc, Hc'.
      destruct (nth_error _ n) as [t|] eqn:Ht in Hc; [|discriminate].
      destruct (nth_error _ (S n)) as [t'|] eqn:Ht' in Hc'; [|discriminate].
      inversion Hc; inversion Hc'; subst; clear Hc Hc'.
      unfold mkChunk; cbn [Embedding.text].
      pose proof (@windows_next _ _ _ Hstep Hle _ _ _ _ _ Ht') as Hfull.
      apply (windows_nth Hstep Hle) in Ht. apply (windows_nth Hstep Hle) in Ht'.
      destruct Ht as [-> _]. destruct Ht' as [-> Hin].
      replace (0 + S n * STEP) with (0 + n * STEP + STEP)
        by (rewrite Nat.mul_succ_l; lia).
      change (Embedding.MAX - Embedding.OVERLAP) with STEP.
      rewrite <- Hov. split.
      * now apply slice_overlap.
      * rewrite length_firstn, slice_length. lia.
Qed.

(** C7, as the code has it.  [pushChunks] appends to the corpus, block by
    block, the chunks of the blocks of the text: the pieces between blank
    lines, trimmed, the empty ones dropped, and in the embedding variant
    the pieces of the text without its carriage returns, which that
    variant deletes first.  Every stored chunk is a non-empty string of at
    most 800 characters in the embedding variant and 2000 in the keyword
    variant; every character of a block lies in a stored chunk that is a
    slice of the block; and in the embedding variant a slice and the next
    one of the same block share 150 characters. *)
Theorem pushChunks_bounded_covering :
  (forall (text src : jsstring) (w : Embedding.world),
     exists groups : list (list Embedding.chunk),
       Embedding.pushChunks text src w
       = (Ok tt, Embedding.setKnowledge (Embedding.knowledge w ++ concat groups) w)
       /\ Forall2
            (fun b g =>
               Forall (fun c => Embedding.text c <> []
                                /\ length (Embedding.text c) <= Embedding.MAX
                                /\ Embedding.source c = src) g
               /\ (forall j, j < length b ->
                     exists n c off, nth_error g n = Some c
                                     /\ holds b (Embedding.text c) Embedding.MAX off j)
               /\ (forall n c c', nth_error g n = Some c -> nth_error g (S n) = Some c' ->
                     skipn (Embedding.MAX - Embedding.OVERLAP) (Embedding.text c)
                       = firstn Embedding.OVERLAP (Embedding.text c')
                     /\ length (firstn Embedding.OVERLAP (Embedding.text c'))
                        = Embedding.OVERLAP))
            (Embedding.blocks text) groups)
  /\
  (forall (text : jsstring) (w : Keyword.world),
     exists groups : list (list jsstring),
       Keyword.pushChunks text w
       = (Ok tt, Keyword.setChunks (Keyword.knowledgeChunks w ++ concat groups) w)
       /\ Forall2
            (fun p g =>
               Forall (fun c => c <> [] /\ length c <= Keyword.CAP) g
               /\ (forall j, j < length p ->
                     exists n c off, nth_error g n = Some c /\ holds p c Keyword.CAP off j))
            (Keyword.parts text) groups)
  /\ Embedding.MAX = 800 /\ Embedding.OVERLAP = 150 /\ Keyword.CAP = 2000.
Proof.
  split; [|split; [|repeat split]].
  - intros text src w. exists (map (em_group src) (Embedding.blocks text)).
    split; [apply em_pushChunks|].
    unfold Embedding.blocks.
    generalize (blocks_nonempty (map trim (splitBlank (removeCR text)))).
    induction (filter nonempty (map trim (splitBlank (removeCR text)))) as [|b l IH];
      intros Hne; simpl; constructor.
    + apply em_group_ok. apply Hne. now left.
    + apply IH. intros b' Hb'. apply Hne. now right.
  - intros text w. exists (map kw_group (Keyword.parts text)).
    split; [apply kw_pushChunks|].
    unfold Keyword.parts.
    generalize (blocks_nonempty (map trim (splitBlank text))).
    induction (filter nonempty (map trim (splitBlank text))) as [|b l IH];
      intros Hne; simpl; constructor.
    + apply kw_group_ok. apply Hne. now left.
    + apply IH. intros b' Hb'. apply Hne. now right.
Qed.

Lemma pushChunks_bounded_covering_witness :
  exists c off, holds (lit "hello") (Embedding.text c) Embedding.MAX off 0.
Proof.
  destruct pushChunks_bounded_covering as (He & _ & _).
  destruct (He (lit "hello") (lit "notes")
               {| Embedding.fs := Missing; Embedding.index := Embedding.NoIndex;
                  Embedding.indexWritable := false; Embedding.knowledge := [];
                  Embedding.embeddings := []; Embedding.calls := [] |})
    as (groups & _ & HF).
  change (Embedding.blocks (lit "hello")) with [lit "hello"] in HF.
  inversion HF as [|b g bs gs (_ & Hcov & _) _]; subst.
  destruct (Hcov 0) as (n & c & off & _ & Hh); [simpl; lia|].
  exists c, off. exact Hh.
Defined.

(** C7 fails as stated in the embedding variant: a paragraph with a
    Windows line end is one block of the input text, trimming leaves it as
    it is, and its carriage return is in no stored chunk. *)
Lemma pushChunks_drops_carriage_return :
  splitBlank Samples.paragraph = [Samples.paragraph]
  /\ trim Samples.paragraph = Samples.paragraph
  /\ In CR Samples.paragraph
  /\ Embedding.knowledge (snd (Embedding.pushChunks Samples.paragraph (lit "notes")
                                 (Samples.edit Missing Samples.startWorld)))
     = [ {| Embedding.text := lit "one" ++ [LF] ++ lit "two";
            Embedding.source := lit "notes" |} ]
  /\ ~ exists c,
         In c (Embedding.knowledge
                 (snd (Embedding.pushChunks Samples.paragraph (lit "notes")
                         (Samples.edit Missing Samples.startWorld))))
         /\ In CR (Embedding.text c).
Proof.
  split; [vm_compute; reflexivity|].
  split; [vm_compute; reflexivity|].
  split; [vm_compute; tauto|].
  split; [vm_compute; reflexivity|].
  intros (c & Hc & Hcr). vm_compute in Hc. destruct Hc as [<-|[]].
  vm_compute in Hcr. repeat (destruct Hcr as [Hcr|Hcr]; [discriminate|]). exact Hcr.
Qed.

(** A block of 1000 characters is stored as the slices [0, 800) and
    [650, 1000) in the embedding variant, and whole in the keyword
    variant; a paragraph with Windows line ends keeps its line feeds. *)
Example pushChunks_sample :
  map (fun c => length (Embedding.text c))
      (Embedding.knowledge
         (snd (Embedding.pushChunks (repeat 97%N 1000) (lit "notes")
                 {| Embedding.fs := Missing; Embedding.index := Embedding.NoIndex;
                    Embedding.indexWritable := false; Embedding.knowledge := [];
                    Embedding.embeddings := []; Embedding.calls := [] |})))
  = [800; 350]
  /\ map (@length N)
         (Keyword.knowledgeChunks
            (snd (Keyword.pushChunks (repeat 97%N 1000)
                    {| Keyword.fs := Missing; Keyword.knowledgeChunks := [];
                       Keyword.calls := [] |})))
     = [1000]
  /\ Embedding.blocks (lit "one" ++ [CR; LF] ++ lit "two" ++ [CR; LF; CR; LF] ++ lit "three")
     = [lit "one" ++ [LF] ++ lit "two"; lit "three"].
Proof. vm_compute. repeat split. Qed.

End ChunkingClaims.

(* ================================================================== *)
(** ** Sorting *)
(* ================================================================== *)

Module SortFacts.
Import JS.

Section Sorting.
Context {A : Type}.
Variable positive : A -> A -> bool.

Lemma insert_perm x l : Permutation (x :: l) (insert positive x l).
Proof.
  induction l as [|y l IH]; simpl.
  - apply Permutation_refl.
  - destruct (positive x y).
    + eapply Permutation_trans; [apply perm_swap|]. now apply perm_skip.
    + apply Permutation_refl.
Qed.

Lemma sort_perm l : Permutation l (sort positive l).
Proof.
  induction l as [|x l IH]; simpl.
  - apply Permutation_refl.
  - eapply Permutation_trans; [apply perm_skip, IH|]. apply insert_perm.
Qed.

Lemma sort_In l x : In x (sort positive l) <-> In x l.
Proof.
  split; apply Permutation_in; [apply Permutation_sym|]; apply sort_perm.
Qed.

Lemma sort_length l : length (sort positive l) = length l.
Proof. symmetry. apply Permutation_length, sort_perm. Qed.

(** [before x y]: the comparator accepts [x] in front of [y].  It is only
    asked to behave on the elements that satisfy [dom]. *)
Variable dom : A -> Prop.
Variable before : A -> A -> Prop.
Hypothesis before_trans :
  forall x y z, dom x -> dom y -> dom z -> before x y -> before y z -> before x z.
Hypothesis positive_true :
  forall x y, dom x -> dom y -> positive x y = true -> before y x.
Hypothesis positive_false :
  forall x y, dom x -> dom y -> positive x y = false -> before x y.

Lemma insert_sorted x l :
  dom x -> Forall dom l ->
  StronglySorted before l -> StronglySorted before (insert positive x l).
Proof.
  intros Hx Hdom Hs. induction Hs as [|y l Hs IH Hy]; simpl.
  - repeat constructor.
  - inversion Hdom as [|? ? Hdy Hdl]; subst.
    destruct (positive x y) eqn:E.
    + constructor; [now apply IH|].
      apply Forall_forall. intros z Hz.
      apply (Permutation_in _ (Permutation_sym (insert_perm x l))) in Hz.
      destruct Hz as [<-|Hz].
      * now apply positive_true.
      * rewrite Forall_forall in Hy. now apply Hy.
    + constructor; [now constructor|].
      assert (Hxy : before x y) by now apply positive_false.
      constructor; [exact Hxy|].
      rewrite Forall_forall in Hy, Hdl |- *. intros z Hz.
      apply before_trans with y; auto.
Qed.

Lemma sort_sorted l : Forall dom l -> StronglySorted before (sort positive l).
Proof.
  induction l as [|x l IH]; intros Hdom; simpl.
  - constructor.
  - inversion Hdom as [|? ? Hx Hl]; subst. apply insert_sorted.
    + exact Hx.
    + apply Forall_forall. intros z Hz. apply -> sort_In in Hz.
      rewrite Forall_forall in Hl. now apply Hl.
    + now apply IH.
Qed.

End Sorting.

Lemma firstn_In {A} n (l : list A) x : In x (firstn n l) -> In x l.
Proof.
  intros H. rewrite <- (firstn_skipn n l). apply in_or_app. now left.
Qed.

Lemma StronglySorted_weaken {A} (R R' : A -> A -> Prop) l :
  (forall x y, In x l -> In y l -> R x y -> R' x y) ->
  StronglySorted R l -> StronglySorted R' l.
Proof.
  intros Hw Hs. induction Hs as [|x l Hs IH Hx]; constructor.
  - apply IH. intros; apply Hw; simpl; auto.
  - rewrite Forall_forall in Hx |- *. intros y Hy. apply Hw; simpl; auto.
Qed.

Lemma StronglySorted_firstn {A} (R : A -> A -> Prop) n l :
  StronglySorted R l -> StronglySorted R (firstn n l).
Proof.
  revert n. induction l as [|x l IH]; intros [|n] Hs; simpl; try constructor.
  - apply IH. now inversion Hs.
  - inversion Hs as [|? ? Hl Hx]; subst. apply Forall_forall. intros y Hy.
    rewrite Forall_forall in Hx. apply Hx. eapply firstn_In; eauto.
Qed.

Lemma StronglySorted_filter {A} (R : A -> A -> Prop) p l :
  StronglySorted R l -> StronglySorted R (filter p l).
Proof.
  induction 1 as [|x l Hs IH Hx]; simpl; [constructor|].
  destruct (p x); [|exact IH].
  constructor; [exact IH|].
  rewrite Forall_forall in Hx |- *. intros y Hy. apply filter_In in Hy. now apply Hx.
Qed.

Lemma StronglySorted_map {A B} (R : B -> B -> Prop) (f : A -> B) l :
  StronglySorted (fun x y => R (f x) (f y)) l -> StronglySorted R (map f l).
Proof.
  induction 1 as [|x l Hs IH Hx]; simpl; constructor; auto.
  rewrite Forall_forall in Hx |- *. intros y Hy.
  apply in_map_iff in Hy. destruct Hy as (z & <- & Hz). now apply Hx.
Qed.

Lemma slice0_length {A} (a : list A) k :
  (0 <= k)%Z -> (Z.of_nat (length (slice0 a k)) <= k)%Z.
Proof.
  intros Hk. unfold slice0. rewrite length_firstn.
  destruct (Z.ltb_spec k 0); lia.
Qed.

Lemma slice0_length_exact {A} (a : list A) k :
  (0 <= k)%Z -> length (slice0 a k) = Nat.min (Z.to_nat k) (length a).
Proof.
  intros Hk. unfold slice0. rewrite length_firstn.
  destruct (Z.ltb_spec k 0); lia.
Qed.

Lemma slice0_In {A} (a : list A) k x : In x (slice0 a k) -> In x a.
Proof. unfold slice0. apply firstn_In. Qed.

(** Sorting moves elements only: it keeps how many of them pass a test. *)
Lemma insert_filter_length {A} (positive : A -> A -> bool) (p : A -> bool) x l :
  length (filter p (insert positive x l)) = length (filter p (x :: l)).
Proof.
  induction l as [|y l IH]; [reflexivity|].
  cbn [insert]. destruct (positive x y); [|reflexivity].
  cbn [filter] in *. destruct (p y), (p x); cbn [length] in *; lia.
Qed.

Lemma sort_filter_length {A} (positive : A -> A -> bool) (p : A -> bool) l :
  length (filter p (sort positive l)) = length (filter p l).
Proof.
  induction l as [|x l IH]; [reflexivity|].
  cbn [sort]. rewrite insert_filter_length. cbn [filter].
  destruct (p x); cbn [length]; now rewrite IH.
Qed.

Lemma filter_nothing {A} (p : A -> bool) l :
  (forall x, In x l -> p x = false) -> filter p l = [].
Proof.
  induction l as [|x l IH]; intros H; [reflexivity|].
  cbn [filter]. rewrite (H x) by now left. apply IH. intros y Hy. apply H. now right.
Qed.

(** In a list sorted by a key, largest first, the elements with a
    positive key come first: keeping them commutes with taking a prefix. *)
Lemma filter_firstn_sorted {A} (key : A -> nat) n l :
  StronglySorted (fun x y => key y <= key x) l ->
  filter (fun x => 0 <? key x) (firstn n l) = firstn n (filter (fun x => 0 <? key x) l).
Proof.
  intros Hs. revert n. induction Hs as [|x l Hs IH Hx]; intros [|n]; try reflexivity.
  cbn [firstn filter]. destruct (Nat.ltb_spec 0 (key x)) as [Hpos|Hzero].
  - cbn [firstn]. now rewrite IH.
  - assert (Hnone : forall y, In y l -> (0 <? key y) = false).
    { intros y Hy. rewrite Forall_forall in Hx. specialize (Hx y Hy).
      apply Nat.ltb_ge. lia. }
    rewrite (filter_nothing _ l Hnone).
    apply filter_nothing. intros y Hy. apply Hnone. eapply firstn_In; eauto.
Qed.

(** In a sorted list an element of a prefix is in order with every
    element of the rest. *)
Lemma sorted_prefix_before {A} (R : A -> A -> Prop) n l x y :
  StronglySorted R l -> In x (firstn n l) -> In y (skipn n l) -> R x y.
Proof.
  revert n. induction l as [|a l IH]; intros [|n] Hs Hx Hy; cbn in Hx, Hy; try tauto.
  inversion Hs as [|? ? Hs' Ha]; subst. destruct Hx as [<-|Hx].
  - rewrite Forall_forall in Ha. apply Ha.
    rewrite <- (firstn_skipn n l). apply in_or_app. now right.
  - now apply (IH n).
Qed.

End SortFacts.

(* ================================================================== *)
(** ** The keyword retriever *)
(* ================================================================== *)

Module KeywordFacts.
Import JS Server JSFacts SortFacts.

Section Retriever.
Variable cfg : Keyword.config.

(** The score that [findRelevantChunks] gives to chunk [c] for a question. *)
Definition chunkScore (question c : jsstring) : nat :=
  Keyword.score cfg (Keyword.norm cfg question)
    (Keyword.qTokens (Keyword.norm cfg question)) c.

Lemma scored_fst chunks question :
  map fst (Keyword.scored cfg chunks question) = chunks.
Proof.
  unfold Keyword.scored. rewrite map_map. simpl. apply map_id.
Qed.

Lemma scored_In chunks question x :
  In x (Keyword.scored cfg chunks question) ->
  In (fst x) chunks /\ snd x = chunkScore question (fst x).
Proof.
  unfold Keyword.scored. intros H. apply in_map_iff in H.
  destruct H as (c & <- & Hc). simpl. auto.
Qed.

(** The entries that the retriever keeps, before it drops their scores. *)
Definition kept (chunks : list jsstring) (question : jsstring) (max : Z)
  : list (jsstring * nat) :=
  filter (fun x => 0 <? snd x)
    (slice0 (sort Keyword.byScoreDesc (Keyword.scored cfg chunks question)) max).

Lemma kept_In chunks question max x :
  In x (kept chunks question max) ->
  In (fst x) chunks /\ snd x = chunkScore question (fst x) /\ 0 < snd x.
Proof.
  unfold kept. intros H. apply filter_In in H. destruct H as [H Hpos].
  apply slice0_In in H. apply (proj1 (sort_In _ _ _)) in H. apply scored_In in H.
  destruct H. repeat split; auto. now apply Nat.ltb_lt.
Qed.

Lemma kept_sorted chunks question max :
  StronglySorted (fun x y => snd y <= snd x) (kept chunks question max).
Proof.
  unfold kept. apply StronglySorted_filter. unfold slice0.
  apply StronglySorted_firstn.
  apply sort_sorted with (dom := fun _ => True).
  - intros; lia.
  - unfold Keyword.byScoreDesc. intros x y _ _ H. apply Z.ltb_lt in H. lia.
  - unfold Keyword.byScoreDesc. intros x y _ _ H. apply Z.ltb_ge in H. lia.
  - apply Forall_forall. auto.
Qed.

Lemma findRelevantChunks_kept w question max :
  Keyword.findRelevantChunks cfg w question max
  = map fst (kept (Keyword.knowledgeChunks w) question max).
Proof.
  unfold Keyword.findRelevantChunks, kept.
  destruct (Keyword.knowledgeChunks w); [|reflexivity].
  simpl. unfold slice0. now rewrite firstn_nil.
Qed.

(** The scored corpus after the sort, best first. *)
Definition ranking (chunks : list jsstring) (question : jsstring) : list (jsstring * nat) :=
  sort Keyword.byScoreDesc (Keyword.scored cfg chunks question).

Lemma ranking_sorted chunks question :
  StronglySorted (fun x y => snd y <= snd x) (ranking chunks question).
Proof.
  apply sort_sorted with (dom := fun _ => True).
  - intros; lia.
  - unfold Keyword.byScoreDesc. intros x y _ _ H. apply Z.ltb_lt in H. lia.
  - unfold Keyword.byScoreDesc. intros x y _ _ H. apply Z.ltb_ge in H. lia.
  - apply Forall_forall. auto.
Qed.

Lemma ranking_In chunks question x :
  In x (ranking chunks question)
  <-> In (fst x) chunks /\ snd x = chunkScore question (fst x).
Proof.
  unfold ranking. rewrite sort_In. split; [apply scored_In|].
  intros [Hc Hs]. unfold Keyword.scored. apply in_map_iff. exists (fst x).
  split; [|exact Hc]. destruct x as [c s]. cbn [fst snd] in *. now rewrite Hs.
Qed.

(** The chunks of the corpus with a positive score. *)
Definition matching (chunks : list jsstring) (question : jsstring) : list jsstring :=
  filter (fun c => 0 <? chunkScore question c) chunks.

Lemma ranking_matching chunks question :
  length (filter (fun x : jsstring * nat => 0 <? snd x) (ranking chunks question))
  = length (matching chunks question).
Proof.
  unfold ranking, matching. rewrite sort_filter_length. unfold Keyword.scored.
  induction chunks as [|c chunks IH]; [reflexivity|].
  cbn [map filter snd]. fold (chunkScore question c).
  destruct (0 <? chunkScore question c); cbn [length]; now rewrite IH.
Qed.

(** How many entries the retriever keeps: as many as the limit allows
    among the chunks with a positive score. *)
Lemma kept_length chunks question max :
  (0 <= max)%Z ->
  length (kept chunks question max)
  = Nat.min (Z.to_nat max) (length (matching chunks question)).
Proof.
  intros Hmax. unfold kept, slice0. fold (ranking chunks question).
  rewrite (filter_firstn_sorted (@snd jsstring nat)) by apply ranking_sorted.
  rewrite length_firstn, ranking_matching.
  assert (Hle : length (matching chunks question) <= length (ranking chunks question)).
  { unfold ranking. rewrite sort_length. unfold Keyword.scored. rewrite length_map.
    apply filter_length_le. }
  destruct (Z.ltb_spec max 0); lia.
Qed.

(** An entry of the corpus that is not kept scores no more than any entry
    that is. *)
Lemma kept_best chunks question max c :
  In c chunks ->
  ~ In c (map fst (kept chunks question max)) ->
  forall x, In x (kept chunks question max) -> chunkScore question c <= snd x.
Proof.
  intros Hc Hout x Hx. unfold kept, slice0 in *. fold (ranking chunks question) in *.
  match type of Hx with context [firstn ?k _] => set (n := k) in * end.
  apply filter_In in Hx. destruct Hx as [Hx Hpos]. apply Nat.ltb_lt in Hpos.
  assert (Hin : In (c, chunkScore question c) (ranking chunks question))
    by (apply ranking_In; auto).
  rewrite <- (firstn_skipn n (ranking chunks question)) in Hin.
  apply in_app_or in Hin. destruct Hin as [Hin|Hin].
  - destruct (Nat.eq_0_gt_0_cases (chunkScore question c)) as [Hz|Hp]; [lia|].
    elim Hout. apply in_map_iff. exists (c, chunkScore question c).
    split; [reflexivity|]. apply filter_In. split; [exact Hin|]. now apply Nat.ltb_lt.
  - apply (@sorted_prefix_before _ (fun x y : jsstring * nat => snd y <= snd x) n
             (ranking chunks question) x (c, chunkScore question c)
             (ranking_sorted chunks question) Hx Hin).
Qed.

End Retriever.

End KeywordFacts.

Section KeywordClaims.
Import JS Server JSFacts SortFacts KeywordFacts.

(** C1.  The keyword retriever scores every chunk of the corpus once, in
    corpus order, and for a limit [max >= 0] returns at most [max] chunks,
    each an element of [knowledgeChunks] with a strictly positive score,
    in order of non-increasing score.  The hits are the best of the whole
    corpus: there are as many of them as the limit allows among the chunks
    with a positive score, and a chunk of the corpus that is not a hit
    scores no more than any hit. *)
Theorem findRelevantChunks_ranked :
  forall (cfg : Keyword.config) (w : Keyword.world) (question : jsstring) (max : Z),
    (0 <= max)%Z ->
    map fst (Keyword.scored cfg (Keyword.knowledgeChunks w) question)
      = Keyword.knowledgeChunks w
    /\ (forall c s, In (c, s) (Keyword.scored cfg (Keyword.knowledgeChunks w) question) ->
                    s = chunkScore cfg question c)
    /\ (Z.of_nat (length (Keyword.findRelevantChunks cfg w question max)) <= max)%Z
    /\ Forall (fun c => In c (Keyword.knowledgeChunks w) /\ 0 < chunkScore cfg question c)
              (Keyword.findRelevantChunks cfg w question max)
    /\ StronglySorted (fun c d => chunkScore cfg question d <= chunkScore cfg question c)
                      (Keyword.findRelevantChunks cfg w question max)
    /\ length (Keyword.findRelevantChunks cfg w question max)
       = Nat.min (Z.to_nat max)
           (length (filter (fun c => 0 <? chunkScore cfg question c)
                      (Keyword.knowledgeChunks w)))
    /\ (forall c,
          In c (Keyword.knowledgeChunks w) ->
          ~ In c (Keyword.findRelevantChunks cfg w question max) ->
          Forall (fun h => chunkScore cfg question c <= chunkScore cfg question h)
                 (Keyword.findRelevantChunks cfg w question max)).
Proof.
  intros cfg w question max Hmax.
  split; [apply scored_fst|].
  split; [intros c s H; now apply scored_In in H|].
  rewrite findRelevantChunks_kept.
  split; [|split; [|split; [|split]]].
  - rewrite length_map. unfold kept.
    eapply Z.le_trans; [apply inj_le, filter_length_le|].
    now apply slice0_length.
  - apply Forall_forall. intros c Hc. apply in_map_iff in Hc.
    destruct Hc as (x & <- & Hx). apply kept_In in Hx.
    destruct Hx as (Hin & Hs & Hpos). split; [exact Hin|]. now rewrite <- Hs.
  - apply StronglySorted_map.
    eapply StronglySorted_weaken; [|apply kept_sorted].
    intros x y Hx Hy Hxy. simpl in Hxy.
    apply kept_In in Hx. apply kept_In in Hy.
    destruct Hx as (_ & <- & _). destruct Hy as (_ & <- & _). exact Hxy.
  - rewrite length_map. now apply kept_length.
  - intros c Hc Hout. apply Forall_forall. intros h Hh. apply in_map_iff in Hh.
    destruct Hh as (x & <- & Hx).
    pose proof (@kept_best cfg _ question max c Hc Hout x Hx) as Hbest.
    apply kept_In in Hx. destruct Hx as (_ & <- & _). exact Hbest.
Qed.

(** With a limit of one the sample question brings back the one chunk
    about the retest fee, and the other chunk with a positive score, left
    out, scores no more. *)
Lemma findRelevantChunks_ranked_witness :
  (0 <= 1)%Z
  /\ length (Keyword.findRelevantChunks Samples.kcfg Samples.kworld Samples.question 1)
     = Nat.min 1 (length (filter (fun c => 0 <? chunkScore Samples.kcfg Samples.question c)
                           Samples.corpus))
  /\ Forall (fun c => In c Samples.corpus /\ 0 < chunkScore Samples.kcfg Samples.question c)
            (Keyword.findRelevantChunks Samples.kcfg Samples.kworld Samples.question 1)
  /\ Forall (fun h => chunkScore Samples.kcfg Samples.question (lit "fee fee test")
                      <= chunkScore Samples.kcfg Samples.question h)
            (Keyword.findRelevantChunks Samples.kcfg Samples.kworld Samples.question 1).
Proof.
  split; [lia|].
  destruct (findRelevantChunks_ranked Samples.kcfg Samples.kworld Samples.question (max := 1))
    as (_ & _ & _ & Hpos & _ & Hlen & Hbest); [lia|].
  split; [exact Hlen|]. split; [exact Hpos|].
  apply Hbest.
  - simpl. tauto.
  - vm_compute. intros [H|[]]. discriminate.
Defined.

(** The sample question is normalised to lower-case words, and the chunk
    about the retest fee scores 3 for the tokens [the], [test] and [fee],
    6 for the phrase [retest fee], 4 for the retest pattern and 2 for the
    number. *)
Example scoring_sample :
  Keyword.norm Samples.kcfg Samples.question = lit "what s the re test fee 12"
  /\ map snd (Keyword.scored Samples.kcfg Samples.corpus Samples.question) = [0; 15; 0; 2].
Proof. vm_compute. split; reflexivity. Qed.

(** On the sample corpus the retriever keeps the two chunks that mention
    the fee, the better one first. *)
Example findRelevantChunks_sample :
  Keyword.findRelevantChunks Samples.kcfg Samples.kworld Samples.question 5
  = [lit "The retest fee is 50 dollars."; lit "fee fee test"].
Proof. vm_compute. reflexivity. Qed.

(** C6.  The hits of the keyword retriever are a function of the question,
    the limit and the contents of [knowledgeChunks] alone: two calls that
    agree on these return the same list, whatever the knowledge directory,
    the API, the instructions file and the requests made so far are. *)
Theorem findRelevantChunks_deterministic :
  forall (cfg1 cfg2 : Keyword.config) (w1 w2 : Keyword.world)
         (q1 q2 : jsstring) (max : Z),
    Keyword.tables cfg1 = Keyword.tables cfg2 ->
    q1 = q2 ->
    Keyword.knowledgeChunks w1 = Keyword.knowledgeChunks w2 ->
    Keyword.findRelevantChunks cfg1 w1 q1 max = Keyword.findRelevantChunks cfg2 w2 q2 max.
Proof.
  intros [t1 i1 p1 a1] [t2 i2 p2 a2] w1 w2 q1 q2 max Ht Hq Hk.
  simpl in Ht. subst t2 q2.
  unfold Keyword.findRelevantChunks. rewrite Hk. reflexivity.
Qed.

Lemma findRelevantChunks_deterministic_witness :
  Keyword.findRelevantChunks Samples.kcfg Samples.kworld Samples.question 5
  = Keyword.findRelevantChunks Samples.kcfg' Samples.kworld' Samples.question 5.
Proof.
  apply findRelevantChunks_deterministic; reflexivity.
Defined.

End KeywordClaims.

(* ================================================================== *)
(** ** Loading the knowledge directory *)
(* ================================================================== *)

Module LoadFacts.
Import JS Server JSFacts ChunkFacts.

(** What a loop over [l] leaves behind when the turn for [x] appends
    [g x] and ends as [ok x] says: the loop stops at the first turn that
    throws. *)
Fixpoint loaded {A B} (ok : A -> res unit) (g : A -> list B) (l : list A)
  : res unit * list B :=
  match l with
  | [] => (Ok tt, [])
  | x :: r =>
      match ok x with
      | Ok _ => let (result, rest) := loaded ok g r in (result, g x ++ rest)
      | Throw e => (Throw e, g x)
      end
  end.

Lemma forEach_loaded {W A B} (proj : W -> list B) (upd : list B -> W -> W)
      (body : A -> M W unit) (ok : A -> res unit) (g : A -> list B) :
  (forall k w, proj (upd k w) = k) ->
  (forall k k' w, upd k (upd k' w) = upd k w) ->
  (forall w, upd (proj w) w = w) ->
  (forall x w, body x w = (ok x, upd (proj w ++ g x) w)) ->
  forall l w, forEach l body w
              = (fst (loaded ok g l), upd (proj w ++ snd (loaded ok g l)) w).
Proof.
  intros Hproj Hupd Hid Hbody l.
  induction l as [|x l IH]; intros w; simpl.
  - unfold ret. now rewrite app_nil_r, Hid.
  - unfold bind. rewrite Hbody. destruct (ok x) as [[]|e].
    + rewrite IH, Hproj, Hupd. destruct (loaded ok g l) as [result rest].
      simpl. now rewrite app_assoc.
    + reflexivity.
Qed.

Lemma loaded_ok {A B} (ok : A -> res unit) (g : A -> list B) l :
  fst (loaded ok g l) = Ok tt -> snd (loaded ok g l) = concat (map g l).
Proof.
  induction l as [|x l IH]; simpl; [reflexivity|].
  destruct (ok x) as [[]|e]; [|discriminate].
  destruct (loaded ok g l) as [result rest]. simpl in *.
  intros H. now rewrite IH.
Qed.

Lemma concat_map_filter {A B} (p : A -> bool) (g : A -> list B) l :
  (forall x, p x = false -> g x = []) ->
  concat (map g (filter p l)) = concat (map g l).
Proof.
  intros H. induction l as [|x l IH]; simpl; [reflexivity|].
  destruct (p x) eqn:E; simpl; rewrite IH; [reflexivity|].
  now rewrite (H x E).
Qed.

(** The result of [statSync(full)] for an entry. *)
Definition statResult (entry : jsstring * node) : res unit :=
  match snd entry with
  | StatThrows e => Throw e
  | _ => Ok tt
  end.

(** An entry is a regular file whose lower-cased name ends in [.txt] or
    [.pdf]. *)
Definition eligible (U : unicode) (entry : jsstring * node) : bool :=
  match snd entry with
  | File _ _ =>
      endsWith (toLowerCase U (fst entry)) (lit ".txt")
      || endsWith (toLowerCase U (fst entry)) (lit ".pdf")
  | _ => false
  end.

(** *** The keyword variant *)

Definition kw_chunks (text : jsstring) : list jsstring :=
  concat (map kw_group (Keyword.parts text)).

(** The chunks that the turn of the loop for one entry stores. *)
Definition kw_fileChunks (cfg : Keyword.config) (entry : jsstring * node) : list jsstring :=
  match snd entry with
  | File utf8 pdf =>
      let lower := toLowerCase (Keyword.tables cfg) (fst entry) in
      if endsWith lower (lit ".txt") then
        match utf8 with Ok text => kw_chunks text | Throw _ => [] end
      else if endsWith lower (lit ".pdf") then
        if Keyword.pdfParse cfg then
          match pdf with Ok parsed => kw_chunks (orElse parsed []) | Throw _ => [] end
        else []
      else []
  | _ => []
  end.

Lemma kw_noop w : (Ok tt, w) = (Ok tt, Keyword.setChunks (Keyword.knowledgeChunks w ++ []) w).
Proof. now rewrite app_nil_r, kw_set_id. Qed.

Lemma kw_loadFile cfg entry w :
  Keyword.loadFile cfg entry w
  = (statResult entry,
     Keyword.setChunks (Keyword.knowledgeChunks w ++ kw_fileChunks cfg entry) w).
Proof.
  destruct entry as [f n]. unfold Keyword.loadFile, kw_fileChunks, statResult.
  cbn [fst snd]. destruct n as [utf8 pdf| |e].
  - unfold tryCatch.
    destruct (endsWith (toLowerCase (Keyword.tables cfg) f) (lit ".txt")).
    + unfold bind, lift. destruct utf8 as [text|e].
      * rewrite kw_pushChunks. reflexivity.
      * apply kw_noop.
    + destruct (endsWith (toLowerCase (Keyword.tables cfg) f) (lit ".pdf")).
      * destruct (Keyword.pdfParse cfg); cbn [negb].
        -- unfold bind, lift. destruct pdf as [parsed|e].
           ++ rewrite kw_pushChunks. reflexivity.
           ++ apply kw_noop.
        -- apply kw_noop.
      * apply kw_noop.
  - apply kw_noop.
  - unfold throw. now rewrite app_nil_r, kw_set_id.
Qed.

Lemma kw_loadKnowledge cfg w :
  Keyword.loadKnowledge cfg w
  = match Keyword.fs w with
    | Missing => (Ok tt, Keyword.setChunks [] w)
    | Unreadable e => (Throw e, Keyword.setChunks [] w)
    | Listing files =>
        (fst (loaded statResult (kw_fileChunks cfg) files),
         Keyword.setChunks (snd (loaded statResult (kw_fileChunks cfg) files)) w)
    end.
Proof.
  unfold Keyword.loadKnowledge, bind, modify, get. cbn [Keyword.fs Keyword.setChunks].
  destruct (Keyword.fs w) as [|e|files] eqn:E; try reflexivity.
  rewrite (forEach_loaded Keyword.knowledgeChunks Keyword.setChunks
             (Keyword.loadFile cfg) statResult (kw_fileChunks cfg));
    auto using kw_set_get, kw_set_set, kw_set_id, kw_loadFile.
Qed.

Lemma kw_fileChunks_skip cfg entry :
  eligible (Keyword.tables cfg) entry = false -> kw_fileChunks cfg entry = [].
Proof.
  unfold eligible, kw_fileChunks. destruct (snd entry); [|reflexivity|reflexivity].
  intros H. apply orb_false_iff in H. destruct H as [-> ->]. reflexivity.
Qed.

(** *** The embedding variant *)

Definition em_chunks (src text : jsstring) : list Embedding.chunk :=
  concat (map (em_group src) (Embedding.blocks text)).

Definition em_fileChunks (cfg : Embedding.config) (entry : jsstring * node)
  : list Embedding.chunk :=
  match snd entry with
  | File utf8 pdf =>
      let lower := toLowerCase (Embedding.tables cfg) (fst entry) in
      let src := Embedding.normName (fst entry) in
      if endsWith lower (lit ".txt") then
        match utf8 with Ok text => em_chunks src text | Throw _ => [] end
      else if endsWith lower (lit ".pdf") then
        if Embedding.pdfParse cfg then
          match pdf with Ok parsed => em_chunks src (orElse parsed []) | Throw _ => [] end
        else []
      else []
  | _ => []
  end.

Lemma em_noop w :
  (Ok tt, w) = (Ok tt, Embedding.setKnowledge (Embedding.knowledge w ++ []) w).
Proof. now rewrite app_nil_r, em_set_id. Qed.

Lemma em_loadFile cfg entry w :
  Embedding.loadFile cfg entry w
  = (statResult entry,
     Embedding.setKnowledge (Embedding.knowledge w ++ em_fileChunks cfg entry) w).
Proof.
  destruct entry as [f n]. unfold Embedding.loadFile, em_fileChunks, statResult.
  cbn [fst snd]. destruct n as [utf8 pdf| |e].
  - unfold tryCatch.
    destruct (endsWith (toLowerCase (Embedding.tables cfg) f) (lit ".txt")).
    + unfold bind, lift. destruct utf8 as [text|e].
      * rewrite em_pushChunks. reflexivity.
      * apply em_noop.
    + destruct (endsWith (toLowerCase (Embedding.tables cfg) f) (lit ".pdf")).
      * destruct (Embedding.pdfParse cfg); cbn [negb].
        -- unfold bind, lift. destruct pdf as [parsed|e].
           ++ rewrite em_pushChunks. reflexivity.
           ++ apply em_noop.
        -- apply em_noop.
      * apply em_noop.
  - apply em_noop.
  - unfold throw. now rewrite app_nil_r, em_set_id.
Qed.

Lemma em_fileChunks_skip cfg entry :
  eligible (Embedding.tables cfg) entry = false -> em_fileChunks cfg entry = [].
Proof.
  unfold eligible, em_fileChunks. destruct (snd entry); [|reflexivity|reflexivity].
  intros H. apply orb_false_iff in H. destruct H as [-> ->]. reflexivity.
Qed.

End LoadFacts.

(* ================================================================== *)
(** ** Building the embeddings *)
(* ================================================================== *)

Module IndexFacts.
Import JS Server JSFacts ChunkFacts LoadFacts.

(** The API honours its contract for embeddings when every batch that it
    answers gets one vector per text, the embedding [E] of that text. *)
Definition honoursContract (srv : service) (E : jsstring -> vec) : Prop :=
  forall log texts r,
    embeddings_create srv log (Batch texts) = Ok r -> r = map E texts.

(** Two worlds that differ in the requests logged only. *)
Definition sameButCalls (w w' : Embedding.world) : Prop :=
  Embedding.fs w' = Embedding.fs w /\ Embedding.index w' = Embedding.index w
  /\ Embedding.indexWritable w' = Embedding.indexWritable w
  /\ Embedding.knowledge w' = Embedding.knowledge w
  /\ Embedding.embeddings w' = Embedding.embeddings w.

Lemma sameButCalls_refl w : sameButCalls w w.
Proof. repeat split. Qed.

Lemma sameButCalls_trans w1 w2 w3 :
  sameButCalls w1 w2 -> sameButCalls w2 w3 -> sameButCalls w1 w3.
Proof.
  unfold sameButCalls. intros (a & b & c & d & e) (a' & b' & c' & d' & e').
  repeat split; congruence.
Qed.

Lemma slice_skipn {A} (l : list A) i n :
  slice l i (i + n) ++ skipn (i + n) l = skipn i l.
Proof.
  unfold slice. replace (i + n - i) with n by lia.
  rewrite <- (firstn_skipn n (skipn i l)) at 2.
  rewrite skipn_skipn. now rewrite (Nat.add_comm n i).
Qed.

Section Batches.
Variable cfg : Embedding.config.

Lemma embedBatches_frame fuel texts : forall i all w,
  sameButCalls w (snd (Embedding.embedBatches cfg fuel texts i all w)).
Proof.
  induction fuel as [|fuel IH]; intros i all w; simpl.
  - apply sameButCalls_refl.
  - destruct (i <? length texts); [|apply sameButCalls_refl].
    unfold bind, Embedding.embeddingsCreate.
    destruct (embeddings_create _ _ _) as [resp|e].
    + eapply sameButCalls_trans; [|apply IH]. repeat split.
    + repeat split.
Qed.

(** When every batch is answered, the loop returns the embeddings of all
    the texts, in order. *)
Lemma embedBatches_ok E fuel texts : forall i all w r w',
  honoursContract (Embedding.api cfg) E ->
  length texts - i <= fuel ->
  Embedding.embedBatches cfg fuel texts i all w = (Ok r, w') ->
  r = all ++ map E (skipn i texts).
Proof.
  induction fuel as [|fuel IH]; intros i all w r w' HE Hfuel H; simpl in H.
  - inversion H; subst. rewrite skipn_all2 by lia. simpl. now rewrite app_nil_r.
  - destruct (Nat.ltb_spec i (length texts)) as [Hi|Hi].
    + unfold bind, Embedding.embeddingsCreate in H.
      destruct (embeddings_create _ _ _) as [resp|e] eqn:Hresp; [|discriminate].
      apply HE in Hresp. subst resp.
      apply IH in H; [|exact HE|unfold Embedding.BATCH; lia].
      rewrite H, <- app_assoc, <- map_app. now rewrite slice_skipn.
    + inversion H; subst. rewrite skipn_all2 by lia. simpl. now rewrite app_nil_r.
Qed.

End Batches.

End IndexFacts.

Module EmbeddingLoadFacts.
Import JS Server JSFacts ChunkFacts LoadFacts IndexFacts.

Section Load.
Variable cfg : Embedding.config.

(** [fs.writeFileSync(INDEX_PATH, ..)] inside its [try]. *)
Definition writeIndex (w : Embedding.world) : Embedding.world :=
  if Embedding.indexWritable w
  then Embedding.setIndex (Embedding.Index (jsonVectors (Embedding.embeddings w))) w
  else w.

Lemma buildFresh_run w :
  Embedding.buildFresh cfg w
  = let texts := map Embedding.text (Embedding.knowledge w) in
    match Embedding.embedBatches cfg (length texts) texts 0 [] w with
    | (Ok all, w1) => (Ok tt, writeIndex (Embedding.setEmbeddings all w1))
    | (Throw e, w1) => (Throw e, w1)
    end.
Proof.
  unfold Embedding.buildFresh, bind, get, modify. cbv zeta.
  destruct (Embedding.embedBatches _ _ _ _ _ _) as [[all|e] w1]; reflexivity.
Qed.

Lemma buildFresh_knowledge w :
  Embedding.knowledge (snd (Embedding.buildFresh cfg w)) = Embedding.knowledge w.
Proof.
  rewrite buildFresh_run. cbv zeta.
  pose proof (embedBatches_frame cfg (length (map Embedding.text (Embedding.knowledge w)))
                (map Embedding.text (Embedding.knowledge w)) 0 [] w) as Hf.
  destruct (Embedding.embedBatches _ _ _ _ _ _) as [[all|e] w1];
    destruct Hf as (_ & _ & _ & Hk & _); cbn [snd] in *.
  - unfold writeIndex. destruct (Embedding.indexWritable _); exact Hk.
  - exact Hk.
Qed.

Lemma buildOrLoad_knowledge w :
  Embedding.knowledge (snd (Embedding.buildOrLoadEmbeddings cfg w)) = Embedding.knowledge w.
Proof.
  unfold Embedding.buildOrLoadEmbeddings, bind, get.
  destruct (Embedding.index w) as [| |cached]; try apply buildFresh_knowledge.
  destruct (length cached =? length (Embedding.knowledge w));
    [reflexivity|apply buildFresh_knowledge].
Qed.

(** The entries that the loop visits: the names that start with a dot
    are dropped first. *)
Definition visible (entries : list (jsstring * node)) : list (jsstring * node) :=
  filter (fun e => negb (startsWith (fst e) (lit "."))) entries.

(** The state in which [loadKnowledge] starts the loop. *)
Definition cleared (w : Embedding.world) : Embedding.world :=
  Embedding.setEmbeddings [] (Embedding.setKnowledge [] w).

Lemma loadKnowledge_run w :
  Embedding.loadKnowledge cfg w
  = match Embedding.fs w with
    | Missing => (Ok tt, cleared w)
    | Unreadable e => (Throw e, cleared w)
    | Listing entries =>
        let l := loaded statResult (em_fileChunks cfg) (visible entries) in
        match fst l with
        | Ok _ => Embedding.buildOrLoadEmbeddings cfg (Embedding.setKnowledge (snd l) (cleared w))
        | Throw e => (Throw e, Embedding.setKnowledge (snd l) (cleared w))
        end
    end.
Proof.
  unfold Embedding.loadKnowledge, bind, modify, get. fold (cleared w).
  replace (Embedding.fs (cleared w)) with (Embedding.fs w) by reflexivity.
  destruct (Embedding.fs w) as [|e|entries]; try reflexivity.
  fold (visible entries). cbv zeta.
  rewrite (forEach_loaded Embedding.knowledge Embedding.setKnowledge
             (Embedding.loadFile cfg) statResult (em_fileChunks cfg));
    auto using em_set_get, em_set_set, em_set_id, em_loadFile.
Qed.

Lemma loadKnowledge_knowledge w :
  Embedding.knowledge (snd (Embedding.loadKnowledge cfg w))
  = match Embedding.fs w with
    | Listing entries => snd (loaded statResult (em_fileChunks cfg) (visible entries))
    | _ => []
    end.
Proof.
  rewrite loadKnowledge_run.
  destruct (Embedding.fs w) as [|e|entries]; try reflexivity.
  cbv zeta. destruct (fst (loaded _ _ _)) as [[]|e]; [|reflexivity].
  now rewrite buildOrLoad_knowledge.
Qed.

Lemma loadKnowledge_completes w entries :
  Embedding.fs w = Listing entries ->
  fst (Embedding.loadKnowledge cfg w) = Ok tt ->
  fst (loaded statResult (em_fileChunks cfg) (visible entries)) = Ok tt.
Proof.
  intros Hfs. rewrite loadKnowledge_run, Hfs. cbv zeta.
  destruct (fst (loaded _ _ _)) as [[]|e]; [reflexivity|discriminate].
Qed.

End Load.

End EmbeddingLoadFacts.

Section LoadClaims.
Import JS Server JSFacts ChunkFacts LoadFacts IndexFacts EmbeddingLoadFacts.

(** A process that has loaded nothing yet, next to a given directory. *)
Definition kw_fresh (d : directory) : Keyword.world :=
  {| Keyword.fs := d; Keyword.knowledgeChunks := []; Keyword.calls := [] |}.

Definition em_fresh (d : directory) : Embedding.world :=
  {| Embedding.fs := d; Embedding.index := Embedding.NoIndex;
     Embedding.indexWritable := false; Embedding.knowledge := [];
     Embedding.embeddings := []; Embedding.calls := [] |}.

(** The corpus that [loadKnowledge] builds from a directory alone. *)
Definition kw_corpus (cfg : Keyword.config) (d : directory) : list jsstring :=
  Keyword.knowledgeChunks (snd (Keyword.loadKnowledge cfg (kw_fresh d))).

Definition em_corpus (cfg : Embedding.config) (d : directory) : list Embedding.chunk :=
  Embedding.knowledge (snd (Embedding.loadKnowledge cfg (em_fresh d))).

Lemma concat_map_filter2 {A B} (p q : A -> bool) (f g : A -> list B) l :
  (forall x, p x = true -> f x = g x) ->
  (forall x, p x = false -> g x = []) ->
  (forall x, q x = false -> g x = []) ->
  concat (map f (filter p l)) = concat (map g (filter q l)).
Proof.
  intros Hp Hnp Hq. induction l as [|x l IH]; simpl; [reflexivity|].
  destruct (p x) eqn:Ep, (q x) eqn:Eq; simpl; rewrite IH.
  - now rewrite Hp.
  - now rewrite Hp, Hq.
  - now rewrite Hnp.
  - reflexivity.
Qed.

Lemma kw_corpus_single cfg e : kw_corpus cfg (Listing [e]) = kw_fileChunks cfg e.
Proof.
  unfold kw_corpus. rewrite kw_loadKnowledge. simpl.
  unfold statResult, kw_fileChunks. destruct (snd e); simpl; now rewrite ?app_nil_r.
Qed.

Lemma em_corpus_single cfg e :
  em_corpus cfg (Listing [e])
  = if negb (startsWith (fst e) (lit ".")) then em_fileChunks cfg e else [].
Proof.
  unfold em_corpus. rewrite loadKnowledge_knowledge. simpl.
  destruct (negb (startsWith (fst e) (lit "."))); [|reflexivity]. simpl.
  unfold statResult, em_fileChunks. destruct (snd e); simpl; now rewrite ?app_nil_r.
Qed.

(** C4.  In both variants the corpus that [loadKnowledge] leaves is the one
    it builds from the knowledge directory when nothing was loaded before;
    it is empty when the directory is missing; and after a run that
    completes it is the concatenation, in the order of the listing, of what
    each regular file whose lower-cased name ends in [.txt] or [.pdf]
    yields on its own, every other entry being skipped. *)
Theorem loadKnowledge_from_directory :
  (forall (cfg : Keyword.config) (w : Keyword.world),
     Keyword.knowledgeChunks (snd (Keyword.loadKnowledge cfg w))
     = kw_corpus cfg (Keyword.fs w))
  /\ (forall cfg : Keyword.config, kw_corpus cfg Missing = [])
  /\ (forall (cfg : Keyword.config) (w : Keyword.world) entries,
        Keyword.fs w = Listing entries ->
        fst (Keyword.loadKnowledge cfg w) = Ok tt ->
        Keyword.knowledgeChunks (snd (Keyword.loadKnowledge cfg w))
        = concat (map (fun e => kw_corpus cfg (Listing [e]))
                      (filter (eligible (Keyword.tables cfg)) entries)))
  /\ (forall (cfg : Embedding.config) (w : Embedding.world),
        Embedding.knowledge (snd (Embedding.loadKnowledge cfg w))
        = em_corpus cfg (Embedding.fs w))
  /\ (forall cfg : Embedding.config, em_corpus cfg Missing = [])
  /\ (forall (cfg : Embedding.config) (w : Embedding.world) entries,
        Embedding.fs w = Listing entries ->
        fst (Embedding.loadKnowledge cfg w) = Ok tt ->
        Embedding.knowledge (snd (Embedding.loadKnowledge cfg w))
        = concat (map (fun e => em_corpus cfg (Listing [e]))
                      (filter (eligible (Embedding.tables cfg)) entries))).
Proof.
  repeat apply conj.
  - intros cfg w. unfold kw_corpus. rewrite !kw_loadKnowledge.
    cbn [kw_fresh Keyword.fs]. now destruct (Keyword.fs w).
  - intros cfg. unfold kw_corpus. now rewrite kw_loadKnowledge.
  - intros cfg w entries Hfs Hok. rewrite kw_loadKnowledge, Hfs in *.
    cbn [fst snd Keyword.knowledgeChunks Keyword.setChunks] in *.
    rewrite (loaded_ok _ _ _ Hok).
    rewrite <- (concat_map_filter (eligible (Keyword.tables cfg)) (kw_fileChunks cfg) entries)
      by apply kw_fileChunks_skip.
    f_equal. apply map_ext. intros e. now rewrite kw_corpus_single.
  - intros cfg w. unfold em_corpus. now rewrite !loadKnowledge_knowledge.
  - intros cfg. unfold em_corpus. now rewrite loadKnowledge_knowledge.
  - intros cfg w entries Hfs Hok. rewrite loadKnowledge_knowledge, Hfs.
    rewrite (loaded_ok _ _ _ (loadKnowledge_completes cfg w Hfs Hok)).
    unfold visible. apply concat_map_filter2.
    + intros e He. rewrite em_corpus_single. now rewrite He.
    + intros e He. rewrite em_corpus_single. now rewrite He.
    + intros e He. rewrite em_corpus_single, (em_fileChunks_skip _ _ He).
      now destruct (negb _).
Qed.

Lemma loadKnowledge_from_directory_witness :
  Keyword.knowledgeChunks (snd (Keyword.loadKnowledge Samples.kcfg Samples.kworld0))
  = [lit "secret"; lit "hello team"; lit "Retest fee: 50"; lit "wait two weeks"]
  /\ map Embedding.text
         (Embedding.knowledge (snd (Embedding.loadKnowledge Samples.ecfg Samples.eworld0)))
     = [lit "hello team"; lit "Retest fee: 50"; lit "wait two weeks"].
Proof.
  destruct loadKnowledge_from_directory as (_ & _ & Hk & _ & _ & He).
  split.
  - rewrite (Hk Samples.kcfg Samples.kworld0 _ eq_refl); [|vm_compute; reflexivity].
    vm_compute. reflexivity.
  - rewrite (He Samples.ecfg Samples.eworld0 _ eq_refl); [|vm_compute; reflexivity].
    vm_compute. reflexivity.
Defined.

End LoadClaims.

Section IndexClaims.
Import JS Server JSFacts ChunkFacts LoadFacts IndexFacts EmbeddingLoadFacts.

(** The embeddings computed afresh for the corpus of [w]. *)
Definition freshEmbeddings (E : jsstring -> vec) (w : Embedding.world) : list vec :=
  map (fun c => E (Embedding.text c)) (Embedding.knowledge w).

(** The claim of C3: every stored vector is the embedding of the text of
    the chunk at the same index. *)
Definition indexFresh (E : jsstring -> vec) (w : Embedding.world) : Prop :=
  Embedding.embeddings w = freshEmbeddings E w.

Lemma writeIndex_fields w :
  Embedding.embeddings (writeIndex w) = Embedding.embeddings w
  /\ Embedding.knowledge (writeIndex w) = Embedding.knowledge w.
Proof. unfold writeIndex. now destruct (Embedding.indexWritable w). Qed.

Lemma buildFresh_ok cfg E w w' :
  honoursContract (Embedding.api cfg) E ->
  Embedding.buildFresh cfg w = (Ok tt, w') ->
  Embedding.knowledge w' = Embedding.knowledge w
  /\ Embedding.embeddings w' = freshEmbeddings E w.
Proof.
  intros HE. rewrite buildFresh_run. cbv zeta.
  pose proof (embedBatches_frame cfg (length (map Embedding.text (Embedding.knowledge w)))
                (map Embedding.text (Embedding.knowledge w)) 0 [] w) as Hf.
  destruct (Embedding.embedBatches _ _ _ _ _ _) as [[all|e] w1] eqn:Hrun; [|discriminate].
  intros H. inversion H; subst w'; clear H.
  destruct Hf as (_ & _ & _ & Hk & _). cbn [snd] in Hk.
  destruct (writeIndex_fields (Embedding.setEmbeddings all w1)) as [-> ->].
  split; [exact Hk|]. cbn [Embedding.embeddings Embedding.setEmbeddings].
  eapply embedBatches_ok in Hrun; [|exact HE|lia].
  subst all. rewrite skipn_O. cbn [app]. unfold freshEmbeddings. now rewrite map_map.
Qed.

Lemma buildOrLoad_ok cfg E w w' :
  honoursContract (Embedding.api cfg) E ->
  Embedding.buildOrLoadEmbeddings cfg w = (Ok tt, w') ->
  Embedding.knowledge w' = Embedding.knowledge w
  /\ Embedding.embeddings w'
     = match Embedding.index w with
       | Embedding.Index cached =>
           if length cached =? length (Embedding.knowledge w) then cached
           else freshEmbeddings E w
       | _ => freshEmbeddings E w
       end.
Proof.
  intros HE. unfold Embedding.buildOrLoadEmbeddings, bind, get.
  destruct (Embedding.index w) as [| |cached];
    try (intros H; eapply buildFresh_ok; eassumption).
  destruct (length cached =? length (Embedding.knowledge w));
    [|intros H; eapply buildFresh_ok; eassumption].
  unfold modify. intros H. inversion H; subst. split; reflexivity.
Qed.

(** C3, as the code has it.  A run of [loadKnowledge] that completes
    rebuilds the vectors without reading those that were in memory.  When
    the directory exists and the cache [knowledge/.index.json] holds as
    many vectors as the corpus has chunks, the vectors are those of the
    cache, taken as they are, one per chunk.  Otherwise they are what the
    API returns for the texts of the corpus: the API returning the
    embedding [E] of every text it is sent, there is one vector per chunk
    and the vector at index [i] is the embedding of the text of the chunk
    at index [i]. *)
Theorem loadKnowledge_embeddings :
  forall (cfg : Embedding.config) (w w' : Embedding.world),
    Embedding.loadKnowledge cfg w = (Ok tt, w') ->
    (forall entries cached,
       Embedding.fs w = Listing entries ->
       Embedding.index w = Embedding.Index cached ->
       length cached = length (Embedding.knowledge w') ->
       Embedding.embeddings w' = cached
       /\ length (Embedding.embeddings w') = length (Embedding.knowledge w'))
    /\
    (forall E : jsstring -> vec,
       honoursContract (Embedding.api cfg) E ->
       length (Embedding.embeddings w') = length (Embedding.knowledge w')
       /\ Embedding.embeddings w'
          = match Embedding.fs w, Embedding.index w with
            | Listing _, Embedding.Index cached =>
                if length cached =? length (Embedding.knowledge w') then cached
                else freshEmbeddings E w'
            | _, _ => freshEmbeddings E w'
            end)
    /\
    (forall before chunks,
       Embedding.loadKnowledge cfg
         (Embedding.setEmbeddings before (Embedding.setKnowledge chunks w))
       = (Ok tt, w')).
Proof.
  intros cfg w w' Hrun. repeat apply conj.
  - intros entries cached Hfs Hi Hlen. rewrite loadKnowledge_run, Hfs in Hrun.
    cbv zeta in Hrun. destruct (fst (loaded _ _ _)) as [[]|e]; [|discriminate].
    pose proof (buildOrLoad_knowledge cfg
                  (Embedding.setKnowledge
                     (snd (loaded statResult (em_fileChunks cfg) (visible entries)))
                     (cleared w))) as Hk.
    rewrite Hrun in Hk. cbn [snd Embedding.knowledge Embedding.setKnowledge] in Hk.
    unfold Embedding.buildOrLoadEmbeddings, bind, get in Hrun.
    cbn [Embedding.index Embedding.setKnowledge cleared Embedding.setEmbeddings
         Embedding.knowledge] in Hrun.
    rewrite Hi, <- Hk, Hlen, Nat.eqb_refl in Hrun.
    unfold modify in Hrun. inversion Hrun; subst.
    cbn [Embedding.embeddings Embedding.setEmbeddings]. split; [reflexivity|].
    exact Hlen.
  - intros E HE. revert Hrun. rewrite loadKnowledge_run.
    assert (Hlen : forall x, length (freshEmbeddings E x) = length (Embedding.knowledge x))
      by (intros; apply length_map).
    destruct (Embedding.fs w) as [|e|entries]; [|discriminate|].
    + intros H. inversion H; subst. split; reflexivity.
    + cbv zeta. destruct (fst (loaded _ _ _)) as [[]|e]; [|discriminate].
      intros H. eapply buildOrLoad_ok in H; [|exact HE]. destruct H as [Hk He].
      cbn [Embedding.index Embedding.setKnowledge cleared Embedding.setEmbeddings] in He.
      unfold freshEmbeddings in *. rewrite Hk.
      cbn [Embedding.knowledge Embedding.setKnowledge] in *.
      rewrite He. split; [|reflexivity].
      destruct (Embedding.index w) as [| |cached]; try apply length_map.
      destruct (Nat.eqb_spec (length cached)
                  (length (snd (loaded statResult (em_fileChunks cfg) (visible entries)))));
        [assumption|apply length_map].
  - intros before chunks. rewrite <- Hrun. reflexivity.
Qed.

(** [POST /reload] changes the state as the run of [loadKnowledge] that it
    triggers does. *)
Lemma reload_state :
  (forall cfg w, snd (Embedding.reload cfg w) = snd (Embedding.loadKnowledge cfg w))
  /\ (forall cfg w, snd (Keyword.reload cfg w) = snd (Keyword.loadKnowledge cfg w)).
Proof.
  split; intros cfg w.
  - unfold Embedding.reload, tryCatch, bind, get, ret.
    destruct (Embedding.loadKnowledge cfg w) as [[[]|e] w']; reflexivity.
  - unfold Keyword.reload, tryCatch, bind, get, ret.
    destruct (Keyword.loadKnowledge cfg w) as [[[]|e] w']; reflexivity.
Qed.

Lemma sample_contract : honoursContract Samples.embedService Samples.sampleE.
Proof.
  intros log texts r H. simpl in H. now inversion H.
Qed.

(** A first load of the sample directory, without a cache: every chunk
    gets the vector of its text. *)
Lemma loadKnowledge_embeddings_witness :
  Embedding.embeddings (snd (Embedding.loadKnowledge Samples.ecfg Samples.eworld0))
  = [numbers [1%float; 0%float]; numbers [0%float; 1%float]; numbers [0%float; 1%float]]
  /\ length (Embedding.embeddings (snd (Embedding.loadKnowledge Samples.ecfg Samples.eworld0)))
     = length (Embedding.knowledge (snd (Embedding.loadKnowledge Samples.ecfg Samples.eworld0))).
Proof.
  destruct (Embedding.loadKnowledge Samples.ecfg Samples.eworld0) as [r w'] eqn:Hrun.
  assert (Hr : r = Ok tt) by (apply (f_equal fst) in Hrun; vm_compute in Hrun; congruence).
  subst r.
  destruct (@loadKnowledge_embeddings Samples.ecfg Samples.eworld0 w' Hrun) as (_ & Hfresh & _).
  destruct (Hfresh Samples.sampleE sample_contract) as [Hlen He].
  cbn [snd]. split; [|exact Hlen].
  rewrite He. apply (f_equal snd) in Hrun. cbn [snd] in Hrun. subst w'.
  vm_compute. reflexivity.
Defined.

(** The proviso on the API is needed: the code does not count what a
    batch request returns, so that an answer without vectors leaves a
    corpus of one chunk with no vector at all. *)
Example short_answer_short_index :
  let silent := {| embeddings_create := fun _ _ => Ok [];
                   responses_create := fun _ _ _ => Ok Samples.answer |} in
  let cfg := {| Embedding.tables := ascii_tables; Embedding.pdfParse := true;
                Embedding.api := silent |} in
  fst (Embedding.loadKnowledge cfg Samples.startWorld) = Ok tt
  /\ length (Embedding.knowledge (snd (Embedding.loadKnowledge cfg Samples.startWorld))) = 1
  /\ Embedding.embeddings (snd (Embedding.loadKnowledge cfg Samples.startWorld)) = [].
Proof. vm_compute. repeat split. Qed.

(** The world after a first load of a directory whose only file reads
    [hello], the file then being edited to read [world]. *)
Definition staleWorld : Embedding.world :=
  Samples.edit Samples.dirWorld (snd (Embedding.loadKnowledge Samples.ecfg Samples.startWorld)).

(** C3 fails as stated: the first load caches the embedding of [hello] on
    disk; the reload after the edit finds one chunk and one cached vector
    and keeps the cached one for the chunk that now reads [world]. *)
Lemma stale_index_reused :
  honoursContract (Embedding.api Samples.ecfg) Samples.sampleE
  /\ fst (Embedding.loadKnowledge Samples.ecfg Samples.startWorld) = Ok tt
  /\ fst (Embedding.loadKnowledge Samples.ecfg staleWorld) = Ok tt
  /\ map Embedding.text
         (Embedding.knowledge (snd (Embedding.loadKnowledge Samples.ecfg staleWorld)))
     = [lit "world"]
  /\ Embedding.embeddings (snd (Embedding.loadKnowledge Samples.ecfg staleWorld))
     = [Samples.sampleE (lit "hello")]
  /\ ~ indexFresh Samples.sampleE (snd (Embedding.loadKnowledge Samples.ecfg staleWorld)).
Proof.
  split; [exact sample_contract|].
  split; [vm_compute; reflexivity|].
  split; [vm_compute; reflexivity|].
  split; [vm_compute; reflexivity|].
  split; [vm_compute; reflexivity|].
  unfold indexFresh. intros H.
  apply (f_equal (fun l => match l with
                           | (Num x :: _) :: _ => PrimFloat.eqb x 1%float
                           | _ => false
                           end)) in H.
  vm_compute in H. discriminate.
Qed.

End IndexClaims.

(* ================================================================== *)
(** ** The order of IEEE doubles *)
(* ================================================================== *)

Module FloatFacts.
Import SpecFloat FloatOps FloatAxioms PrimFloat.
Local Open Scope Z_scope.
Local Unset Implicit Arguments.

(** *** Rounding

    The doubles are specified by [SpecFloat]: a finite double is a sign, a
    mantissa and an exponent, and an operation rounds its exact result to
    53 bits.  What is needed of rounding here is that it never turns a
    result that is not zero into a zero. *)

Lemma digits2_bounds m :
  2 ^ (Zpos (digits2_pos m) - 1) <= Zpos m < 2 ^ Zpos (digits2_pos m).
Proof.
  induction m as [m IH|m IH|]; cbn [digits2_pos].
  - rewrite Pos2Z.inj_succ, Z.pow_succ_r by lia.
    replace (Z.succ (Zpos (digits2_pos m)) - 1) with (Z.succ (Zpos (digits2_pos m) - 1)) by lia.
    rewrite Z.pow_succ_r by lia. lia.
  - rewrite Pos2Z.inj_succ, Z.pow_succ_r by lia.
    replace (Z.succ (Zpos (digits2_pos m)) - 1) with (Z.succ (Zpos (digits2_pos m) - 1)) by lia.
    rewrite Z.pow_succ_r by lia. lia.
  - simpl. lia.
Qed.

Lemma iter_xO m p : Zpos (Pos.iter xO m p) = Zpos m * 2 ^ Zpos p.
Proof.
  induction p as [|p IH] using Pos.peano_ind.
  - simpl. lia.
  - rewrite Pos.iter_succ, Pos2Z.inj_succ, Z.pow_succ_r by lia.
    rewrite Pos2Z.inj_xO, IH. lia.
Qed.

Lemma shl_align_value m e e' :
  e' <= e -> Zpos (fst (shl_align m e e')) = Zpos m * 2 ^ (e - e').
Proof.
  intros H. unfold shl_align. destruct (e' - e) as [|p|p] eqn:E.
  - replace (e - e') with 0 by lia. simpl. lia.
  - lia.
  - cbn [fst]. rewrite iter_xO. f_equal. f_equal. lia.
Qed.

Lemma shl_align_exp m e e' : -1074 <= e -> -1074 <= e' ->
  -1074 <= snd (shl_align m e e').
Proof.
  intros H H'. unfold shl_align. destruct (e' - e); assumption.
Qed.

Lemma shr_1_m mrs : 0 <= shr_m mrs -> shr_m (shr_1 mrs) = shr_m mrs / 2.
Proof.
  destruct mrs as [m r s]. cbn [shr_m]. intros H.
  destruct m as [|[p|p|]|p]; cbn [shr_1 shr_m]; try lia.
  all: try reflexivity.
  all: try (rewrite <- Z.div2_div; reflexivity).
Qed.

Lemma iter_shr_1_m p : forall mrs,
  0 <= shr_m mrs -> shr_m (iter_pos shr_1 p mrs) = shr_m mrs / 2 ^ Zpos p.
Proof.
  assert (Hnn : forall x, 0 <= shr_m x -> 0 <= shr_m (shr_1 x)).
  { intros x Hx. rewrite shr_1_m by exact Hx. apply Z.div_pos; lia. }
  induction p as [p IH|p IH|]; intros mrs H; cbn [iter_pos].
  - assert (H1 : 0 <= shr_m (iter_pos shr_1 p (shr_1 mrs))).
    { rewrite IH by auto. apply Z.div_pos; [auto|]. apply Z.pow_pos_nonneg; lia. }
    rewrite IH, IH, shr_1_m by auto.
    rewrite !Z.div_div by (try apply Z.pow_pos_nonneg; try apply Z.neq_mul_0; lia).
    f_equal. assert (E : Zpos p~1 = 1 + Zpos p + Zpos p) by lia.
    rewrite E, !Z.pow_add_r by lia. lia.
  - assert (H1 : 0 <= shr_m (iter_pos shr_1 p mrs)).
    { rewrite IH by auto. apply Z.div_pos; [auto|]. apply Z.pow_pos_nonneg; lia. }
    rewrite IH, IH by auto.
    rewrite !Z.div_div by (try apply Z.pow_pos_nonneg; lia).
    f_equal. assert (E : Zpos p~0 = Zpos p + Zpos p) by lia.
    rewrite E, !Z.pow_add_r by lia. lia.
  - rewrite shr_1_m by auto. reflexivity.
Qed.


(** [fexp] of the binary64 format. *)
Lemma fexp64 x : SpecFloat.fexp prec emax x = Z.max (x - 53) (-1074).
Proof. reflexivity. Qed.

(** A rounding step keeps a positive mantissa positive as long as the
    exponent is in range. *)
Lemma shr_fexp_pos m e l :
  -1074 <= e ->
  exists m' e',
    shr_m (fst (shr_fexp prec emax (Zpos m) e l)) = Zpos m'
    /\ snd (shr_fexp prec emax (Zpos m) e l) = e' /\ -1074 <= e'.
Proof.
  intros He. unfold shr_fexp, shr. cbn [Zdigits2]. rewrite fexp64.
  set (d := Zpos (digits2_pos m)).
  destruct (Z.max (d + e - 53) (-1074) - e) as [|p|p] eqn:E.
  - exists m, e. cbn [fst snd]. repeat split; [|exact He]. now destruct l as [|[]].
  - cbn [fst snd].
    assert (Hp : Zpos p = d - 53) by lia.
    pose proof (digits2_bounds m) as [Hlo _]. fold d in Hlo.
    assert (Hm : shr_m (shr_record_of_loc (Zpos m) l) = Zpos m) by now destruct l as [|[]].
    rewrite iter_shr_1_m by (rewrite Hm; lia). rewrite Hm.
    assert (Hq : 2 ^ 52 <= Zpos m / 2 ^ Zpos p).
    { apply Z.div_le_lower_bound; [apply Z.pow_pos_nonneg; lia|].
      rewrite <- Z.pow_add_r by lia. replace (Zpos p + 52) with (d - 1) by lia. exact Hlo. }
    assert (H52 : 0 < 2 ^ 52) by (apply Z.pow_pos_nonneg; lia).
    destruct (Zpos m / 2 ^ Zpos p) as [|q|q] eqn:Eq; try lia.
    exists q, (e + Zpos p). repeat split. lia.
  - exists m, e. cbn [fst snd]. repeat split; [|exact He]. now destruct l as [|[]].
Qed.

Lemma round_nearest_even_pos m l : exists m', round_nearest_even (Zpos m) l = Zpos m'.
Proof.
  destruct l as [|[]]; cbn [round_nearest_even]; eauto.
  - destruct (Z.even (Zpos m)); [eauto|]. exists (m + 1)%positive. reflexivity.
  - exists (m + 1)%positive. reflexivity.
Qed.

(** Rounding a positive mantissa never ends in a zero or in NaN. *)
Lemma binary_round_aux_pos s m e l :
  -1074 <= e ->
  (exists m' e', binary_round_aux prec emax s (Zpos m) e l = S754_finite s m' e')
  \/ binary_round_aux prec emax s (Zpos m) e l = S754_infinity s.
Proof.
  intros He. unfold binary_round_aux.
  destruct (shr_fexp_pos m e l He) as (m1 & e1 & Hm1 & He1 & Hr1).
  destruct (shr_fexp prec emax (Zpos m) e l) as [mrs1 e1'] eqn:E1.
  cbn [fst snd] in Hm1, He1. subst e1'. rewrite Hm1.
  destruct (round_nearest_even_pos m1 (loc_of_shr_record mrs1)) as [m2 Hm2]. rewrite Hm2.
  destruct (shr_fexp_pos m2 e1 loc_Exact Hr1) as (m3 & e3 & Hm3 & He3 & Hr3).
  destruct (shr_fexp prec emax (Zpos m2) e1 loc_Exact) as [mrs3 e3'] eqn:E3.
  cbn [fst snd] in Hm3, He3. subst e3'. rewrite Hm3.
  destruct (e3 <=? emax - prec); [left; eauto|right; reflexivity].
Qed.

Lemma binary_round_pos s m e :
  -1074 <= e ->
  (exists m' e', binary_round prec emax s m e = S754_finite s m' e')
  \/ binary_round prec emax s m e = S754_infinity s.
Proof.
  intros He. unfold binary_round.
  pose proof (shl_align_exp m e (SpecFloat.fexp prec emax (Zpos (digits2_pos m) + e)) He) as H.
  destruct (shl_align m e _) as [mz ez]. cbn [snd] in H.
  apply binary_round_aux_pos. apply H. rewrite fexp64. lia.
Qed.


(** *** The order of the doubles

    A double that is not NaN is sent to an integer, its value in units of
    the smallest subnormal (infinities beyond every finite value), so that
    the comparisons of doubles are those of the integers. *)

Definition big : Z := 2 ^ 2098.

Definition mag (m : positive) (e : Z) : Z := Zpos m * 2 ^ (e + 1074).

Definition key (x : spec_float) : Z :=
  match x with
  | S754_zero _ => 0
  | S754_nan => 0
  | S754_infinity s => cond_Zopp s big
  | S754_finite s m e => cond_Zopp s (mag m e)
  end.

Lemma canonical_inv m e :
  canonical_mantissa prec emax m e = true ->
  -1074 <= e /\ Zpos (digits2_pos m) <= 53 /\ (-1074 < e -> Zpos (digits2_pos m) = 53).
Proof.
  unfold canonical_mantissa. rewrite fexp64. intros H. apply Z.eqb_eq in H. lia.
Qed.

Lemma pow2_pos n : 0 <= n -> 0 < 2 ^ n.
Proof. intros. apply Z.pow_pos_nonneg; lia. Qed.

Lemma mag_pos m e : -1074 <= e -> 0 < mag m e.
Proof.
  intros H. unfold mag. pose proof (pow2_pos (e + 1074)). nia.
Qed.

Lemma mantissa_lt m e :
  canonical_mantissa prec emax m e = true -> Zpos m < 2 ^ 53.
Proof.
  intros H. apply canonical_inv in H. destruct H as (_ & Hd & _).
  pose proof (digits2_bounds m) as [_ Hhi].
  eapply Z.lt_le_trans; [exact Hhi|]. apply Z.pow_le_mono_r; lia.
Qed.

Lemma mantissa_normal m e :
  canonical_mantissa prec emax m e = true -> -1074 < e -> 2 ^ 52 <= Zpos m.
Proof.
  intros H He. apply canonical_inv in H. destruct H as (_ & _ & Hd).
  pose proof (digits2_bounds m) as [Hlo _]. rewrite (Hd He) in Hlo. exact Hlo.
Qed.

Lemma mag_lt m1 e1 m2 e2 :
  canonical_mantissa prec emax m1 e1 = true ->
  canonical_mantissa prec emax m2 e2 = true ->
  e1 < e2 -> mag m1 e1 < mag m2 e2.
Proof.
  intros H1 H2 He.
  pose proof (mantissa_lt _ _ H1) as Hm1.
  pose proof (canonical_inv _ _ H1) as (He1 & _ & _).
  pose proof (mantissa_normal _ _ H2 ltac:(lia)) as Hm2.
  unfold mag.
  assert (Hp : 2 * 2 ^ (e1 + 1074) <= 2 ^ (e2 + 1074)).
  { rewrite <- Z.pow_succ_r by lia. apply Z.pow_le_mono_r; lia. }
  pose proof (pow2_pos (e1 + 1074) ltac:(lia)) as Hq.
  assert (H53 : 2 ^ 53 = 2 * 2 ^ 52) by reflexivity.
  set (P := 2 ^ (e1 + 1074)) in *. set (Q := 2 ^ (e2 + 1074)) in *.
  set (B := 2 ^ 52) in *. set (A := 2 ^ 53) in *.
  assert (Zpos m1 * P < A * P) by nia.
  assert (B * (2 * P) <= B * Q) by nia.
  assert (B * Q <= Zpos m2 * Q) by nia.
  lia.
Qed.

Lemma mag_compare m1 e1 m2 e2 :
  canonical_mantissa prec emax m1 e1 = true ->
  canonical_mantissa prec emax m2 e2 = true ->
  (mag m1 e1 ?= mag m2 e2)
  = match e1 ?= e2 with
    | Lt => Lt
    | Gt => Gt
    | Eq => Pos.compare_cont Eq m1 m2
    end.
Proof.
  intros H1 H2. destruct (Z.compare_spec e1 e2) as [He|He|He].
  - subst e2. unfold mag.
    pose proof (canonical_inv _ _ H1) as (He1 & _ & _).
    pose proof (pow2_pos (e1 + 1074) ltac:(lia)) as Hq.
    set (P := 2 ^ (e1 + 1074)) in *.
    change (Pos.compare_cont Eq m1 m2) with (Pos.compare m1 m2).
    destruct (Pos.compare_spec m1 m2) as [Hm|Hm|Hm].
    + apply Z.compare_eq_iff. now subst.
    + apply Z.compare_lt_iff. nia.
    + apply Z.compare_gt_iff. nia.
  - apply Z.compare_lt_iff. now apply mag_lt.
  - apply Z.compare_gt_iff. now apply mag_lt.
Qed.

Lemma mag_lt_big m e : bounded prec emax m e = true -> mag m e < big.
Proof.
  unfold bounded. intros H. apply andb_true_iff in H. destruct H as [Hc He].
  apply Z.leb_le in He. change (emax - prec) with 971 in He.
  pose proof (mantissa_lt _ _ Hc) as Hm.
  pose proof (canonical_inv _ _ Hc) as (He1 & _ & _).
  unfold mag, big.
  assert (Hp : 2 ^ (e + 1074) <= 2 ^ 2045) by (apply Z.pow_le_mono_r; lia).
  pose proof (pow2_pos (e + 1074) ltac:(lia)) as Hq.
  assert (H : 2 ^ 2098 = 2 ^ 53 * 2 ^ 2045) by (rewrite <- Z.pow_add_r by lia; reflexivity).
  rewrite H.
  set (P := 2 ^ (e + 1074)) in *. set (Q := 2 ^ 2045) in *. set (A := 2 ^ 53) in *.
  assert (Zpos m * P < A * P) by nia.
  assert (A * P <= A * Q) by nia.
  lia.
Qed.

Lemma big_pos : 0 < big.
Proof. unfold big. apply pow2_pos. lia. Qed.

Definition notNaN (x : spec_float) : Prop := x <> S754_nan.

(** The comparison of two doubles is that of their keys. *)
Lemma compare_key x y :
  valid_binary x = true -> valid_binary y = true -> notNaN x -> notNaN y ->
  SFcompare x y = Some (key x ?= key y).
Proof.
  intros Vx Vy Nx Ny. pose proof big_pos as Hb.
  destruct x as [sx|sx| |sx mx ex]; [| |now elim Nx|];
  destruct y as [sy|sy| |sy my ey]; try (now elim Ny); cbn [SFcompare key].
  - reflexivity.
  - f_equal. symmetry. destruct sy; cbn [cond_Zopp];
      [apply Z.compare_gt_iff|apply Z.compare_lt_iff]; lia.
  - cbn [valid_binary] in Vy. unfold bounded in Vy. apply andb_true_iff in Vy.
    destruct Vy as [Vy _]. pose proof (canonical_inv _ _ Vy) as (He & _ & _).
    pose proof (mag_pos my ey He).
    f_equal. symmetry. destruct sy; cbn [cond_Zopp];
      [apply Z.compare_gt_iff|apply Z.compare_lt_iff]; lia.
  - f_equal. symmetry. destruct sx; cbn [cond_Zopp];
      [apply Z.compare_lt_iff|apply Z.compare_gt_iff]; lia.
  - f_equal. symmetry. destruct sx, sy; cbn [cond_Zopp];
      [apply Z.compare_eq_iff|apply Z.compare_lt_iff|apply Z.compare_gt_iff
      |apply Z.compare_eq_iff]; lia.
  - cbn [valid_binary] in Vy. pose proof (mag_lt_big _ _ Vy).
    unfold bounded in Vy. apply andb_true_iff in Vy.
    destruct Vy as [Vy _]. pose proof (canonical_inv _ _ Vy) as (He & _ & _).
    pose proof (mag_pos my ey He).
    f_equal. symmetry. destruct sx, sy; cbn [cond_Zopp];
      first [apply Z.compare_lt_iff; lia|apply Z.compare_gt_iff; lia].
  - cbn [valid_binary] in Vx. unfold bounded in Vx. apply andb_true_iff in Vx.
    destruct Vx as [Vx _]. pose proof (canonical_inv _ _ Vx) as (He & _ & _).
    pose proof (mag_pos mx ex He).
    f_equal. symmetry. destruct sx; cbn [cond_Zopp];
      [apply Z.compare_lt_iff|apply Z.compare_gt_iff]; lia.
  - cbn [valid_binary] in Vx. pose proof (mag_lt_big _ _ Vx).
    unfold bounded in Vx. apply andb_true_iff in Vx.
    destruct Vx as [Vx _]. pose proof (canonical_inv _ _ Vx) as (He & _ & _).
    pose proof (mag_pos mx ex He).
    f_equal. symmetry. destruct sx, sy; cbn [cond_Zopp];
      first [apply Z.compare_lt_iff; lia|apply Z.compare_gt_iff; lia].
  - cbn [valid_binary] in Vx, Vy. unfold bounded in Vx, Vy.
    apply andb_true_iff in Vx, Vy. destruct Vx as [Vx _], Vy as [Vy _].
    pose proof (canonical_inv _ _ Vx) as (Hex & _ & _).
    pose proof (canonical_inv _ _ Vy) as (Hey & _ & _).
    pose proof (mag_pos mx ex Hex). pose proof (mag_pos my ey Hey).
    f_equal. destruct sx, sy; cbn [cond_Zopp].
    + rewrite Z.compare_opp, (mag_compare my ey mx ex Vy Vx).
      rewrite (Z.compare_antisym ex ey).
      destruct (ex ?= ey); cbn [CompOpp]; try reflexivity.
      symmetry. apply (Pos.compare_antisym mx my).
    + symmetry. apply Z.compare_lt_iff. lia.
    + symmetry. apply Z.compare_gt_iff. lia.
    + symmetry. now apply mag_compare.
Qed.


Lemma valid_finite s m e :
  valid_binary (S754_finite s m e) = true ->
  canonical_mantissa prec emax m e = true /\ -1074 <= e.
Proof.
  cbn [valid_binary]. unfold bounded. intros H. apply andb_true_iff in H.
  destruct H as [H _]. split; [exact H|]. now apply canonical_inv in H.
Qed.

Lemma aligned_mag m e ez :
  -1074 <= ez -> ez <= e ->
  mag m e = Zpos (fst (shl_align m e ez)) * 2 ^ (ez + 1074).
Proof.
  intros H1 H2. rewrite shl_align_value by exact H2. unfold mag.
  rewrite <- Z.mul_assoc, <- Z.pow_add_r by lia. do 2 f_equal. lia.
Qed.

Lemma ltb_zero_signed s r :
  (exists m e, r = S754_finite s m e) \/ r = S754_infinity s ->
  SFltb (S754_zero false) r = negb s.
Proof.
  intros [(m & e & ->)| ->]; now destruct s.
Qed.

(** The sign of a difference is exact: [y - x] is positive exactly when
    [x] is below [y]. *)
Lemma sub_sign x y :
  valid_binary x = true -> valid_binary y = true -> notNaN x -> notNaN y ->
  SFltb (S754_zero false) (SF64sub y x) = (key x <? key y).
Proof.
  intros Vx Vy Nx Ny. pose proof big_pos as Hb.
  unfold SF64sub.
  destruct y as [sy|sy| |sy my ey]; [| |now elim Ny|];
  destruct x as [sx|sx| |sx mx ex]; try (now elim Nx); cbn [SFsub key].
  - destruct sy, sx; reflexivity.
  - symmetry. destruct sx; cbn [cond_Zopp negb SFltb SFcompare];
      [apply Z.ltb_lt|apply Z.ltb_ge]; lia.
  - apply valid_finite in Vx. destruct Vx as [_ Vx]. pose proof (mag_pos mx ex Vx).
    symmetry. destruct sx; cbn [cond_Zopp negb SFltb SFcompare];
      [apply Z.ltb_lt|apply Z.ltb_ge]; lia.
  - symmetry. destruct sy; cbn [cond_Zopp SFltb SFcompare];
      [apply Z.ltb_ge|apply Z.ltb_lt]; lia.
  - symmetry. destruct sy, sx; cbn [cond_Zopp SFltb SFcompare];
      first [apply Z.ltb_ge; lia|apply Z.ltb_lt; lia].
  - pose proof (mag_lt_big _ _ Vx). apply valid_finite in Vx. destruct Vx as [_ Vx].
    pose proof (mag_pos mx ex Vx).
    symmetry. destruct sy, sx; cbn [cond_Zopp SFltb SFcompare];
      first [apply Z.ltb_ge; lia|apply Z.ltb_lt; lia].
  - apply valid_finite in Vy. destruct Vy as [_ Vy]. pose proof (mag_pos my ey Vy).
    symmetry. destruct sy; cbn [cond_Zopp SFltb SFcompare];
      [apply Z.ltb_ge|apply Z.ltb_lt]; lia.
  - pose proof (mag_lt_big _ _ Vy). apply valid_finite in Vy. destruct Vy as [_ Vy].
    pose proof (mag_pos my ey Vy).
    symmetry. destruct sy, sx; cbn [cond_Zopp negb SFltb SFcompare];
      first [apply Z.ltb_ge; lia|apply Z.ltb_lt; lia].
  - apply valid_finite in Vx, Vy. destruct Vx as [_ Vx], Vy as [_ Vy].
    cbv zeta. set (ez := Z.min ey ex).
    rewrite (aligned_mag my ey ez), (aligned_mag mx ex ez) by lia.
    set (a := Zpos (fst (shl_align my ey ez))).
    set (b := Zpos (fst (shl_align mx ex ez))).
    pose proof (pow2_pos (ez + 1074) ltac:(lia)) as HP.
    set (P := 2 ^ (ez + 1074)) in *.
    assert (Ha : 0 < a) by (unfold a; lia). assert (Hb' : 0 < b) by (unfold b; lia).
    assert (Hkey : (cond_Zopp sx (b * P) <? cond_Zopp sy (a * P))
                   = (0 <? cond_Zopp sy a - cond_Zopp sx b)).
    { destruct sx, sy; cbn [cond_Zopp];
        destruct (Z.ltb_spec 0 (- a - - b)), (Z.ltb_spec 0 (- a - b)),
                 (Z.ltb_spec 0 (a - - b)), (Z.ltb_spec 0 (a - b));
        first [apply Z.ltb_lt; nia|apply Z.ltb_ge; nia]. }
    rewrite Hkey.
    destruct (cond_Zopp sy a - cond_Zopp sx b) as [|p|p] eqn:Ed; cbn [binary_normalize].
    + reflexivity.
    + now rewrite (ltb_zero_signed false _ (binary_round_pos false p ez ltac:(lia))).
    + now rewrite (ltb_zero_signed true _ (binary_round_pos true p ez ltac:(lia))).
Qed.

(** *** The same on the primitive doubles *)

Definition fkey (x : float) : Z := key (Prim2SF x).

Lemma is_nan_spec x : is_nan x = false <-> notNaN (Prim2SF x).
Proof.
  unfold is_nan, notNaN. rewrite eqb_spec. unfold SFeqb. split.
  - intros H E. rewrite E in H. discriminate.
  - intros H. rewrite (compare_key _ _ (Prim2SF_valid x) (Prim2SF_valid x) H H).
    now rewrite Z.compare_refl.
Qed.

Lemma leb_fkey a b :
  is_nan a = false -> is_nan b = false -> (a <=? b)%float = (fkey a <=? fkey b).
Proof.
  intros Ha Hb. apply is_nan_spec in Ha, Hb. rewrite leb_spec. unfold SFleb.
  rewrite (compare_key _ _ (Prim2SF_valid a) (Prim2SF_valid b) Ha Hb).
  unfold fkey, Z.leb. now destruct (key (Prim2SF a) ?= key (Prim2SF b)).
Qed.

(** What the comparator [(a, b) => b - a] of a sort tests. *)
Lemma sub_positive a b :
  is_nan a = false -> is_nan b = false -> (0 <? b - a)%float = (fkey a <? fkey b).
Proof.
  intros Ha Hb. apply is_nan_spec in Ha, Hb. rewrite ltb_spec, sub_spec.
  change (Prim2SF 0) with (S754_zero false).
  now apply sub_sign; try apply Prim2SF_valid.
Qed.


(** Multiplication of doubles commutes. *)
Lemma SFmul_comm x y : SFmul prec emax x y = SFmul prec emax y x.
Proof.
  destruct x as [sx|sx| |sx mx ex], y as [sy|sy| |sy my ey]; cbn [SFmul];
    rewrite ?(xorb_comm sy sx); try reflexivity.
  now rewrite (Pos.mul_comm my mx), (Z.add_comm ey ex).
Qed.

Lemma mul_comm a b : (a * b)%float = (b * a)%float.
Proof.
  apply Prim2SF_inj. rewrite !mul_spec. apply SFmul_comm.
Qed.

(** NaN goes through the arithmetic. *)
Lemma mul_nan_r a : (a * nan)%float = nan.
Proof.
  apply Prim2SF_inj. rewrite mul_spec. change (Prim2SF nan) with S754_nan.
  unfold SF64mul. now destruct (Prim2SF a).
Qed.

Lemma add_nan_l a : (nan + a)%float = nan.
Proof.
  apply Prim2SF_inj. rewrite add_spec. change (Prim2SF nan) with S754_nan.
  reflexivity.
Qed.

Lemma add_nan_r a : (a + nan)%float = nan.
Proof.
  apply Prim2SF_inj. rewrite add_spec. change (Prim2SF nan) with S754_nan.
  unfold SF64add. now destruct (Prim2SF a).
Qed.

Lemma div_nan_l a : (nan / a)%float = nan.
Proof.
  apply Prim2SF_inj. rewrite div_spec. change (Prim2SF nan) with S754_nan.
  reflexivity.
Qed.

End FloatFacts.

(* ================================================================== *)
(** ** The embedding retriever *)
(* ================================================================== *)

Module RetrieverFacts.
Import JS Server JSFacts SortFacts.

Lemma mapi_from_length {A B} (f : A -> nat -> B) l : forall n,
  length (mapi_from n f l) = length l.
Proof. induction l as [|x l IH]; intros n; simpl; [reflexivity|now rewrite IH]. Qed.

Lemma mapi_from_In {A B} (g : A -> B) l : forall n i s,
  In (i, s) (mapi_from n (fun v j => (j, g v)) l)
  <-> exists v, n <= i /\ nth_error l (i - n) = Some v /\ s = g v.
Proof.
  induction l as [|x l IH]; intros n i s; simpl.
  - split; [tauto|]. intros (v & _ & H & _). destruct (i - n); discriminate.
  - rewrite IH. split.
    + intros [H|(v & Hle & Hn & Hs)].
      * inversion H; subst. exists x. rewrite Nat.sub_diag. auto.
      * exists v. replace (i - n) with (S (i - S n)) by lia. repeat split; auto; lia.
    + intros (v & Hle & Hn & Hs). destruct (i - n) as [|m] eqn:E.
      * left. simpl in Hn. inversion Hn; subst. f_equal. lia.
      * right. exists v. replace (i - S n) with m by lia. repeat split; auto; lia.
Qed.

Lemma StronglySorted_app {A} (R : A -> A -> Prop) l1 l2 :
  StronglySorted R (l1 ++ l2) -> forall x y, In x l1 -> In y l2 -> R x y.
Proof.
  induction l1 as [|a l1 IH]; simpl; intros Hs x y Hx Hy; [tauto|].
  inversion Hs as [|? ? Hs' Ha]; subst. destruct Hx as [<-|Hx].
  - rewrite Forall_forall in Ha. apply Ha, in_or_app. now right.
  - now apply IH.
Qed.

(** *** Cosine similarity

    The cosine similarity of two vectors over the coordinates of the
    first: the dot product divided by the product of the norms, with the
    [1e-8] that keeps the division defined for a zero vector.  Entry [i]
    of a vector is read as JavaScript reads it. *)

Definition entry (v : vec) (i : nat) : float := toNumber (nth_error v i).

Definition dotProduct (n : nat) (a b : vec) : float :=
  fold_left (fun acc i => (acc + entry a i * entry b i)%float) (seq 0 n) 0%float.

#[warnings="-inexact-float"] Definition cosine (a b : vec) : float :=
  let n := length a in
  (dotProduct n a b / (sqrt (dotProduct n a a) * sqrt (dotProduct n b b) + 1e-8))%float.

Lemma fold_left_pointwise {B C} (f g : B -> C -> B) l :
  (forall acc i, f acc i = g acc i) -> forall acc, fold_left f l acc = fold_left g l acc.
Proof.
  intros H. induction l as [|i l IH]; intros acc; [reflexivity|].
  cbn [fold_left]. now rewrite H, IH.
Qed.

Lemma fold_left_seq_shift {B} (g : B -> nat -> B) n : forall acc,
  fold_left g (seq 1 n) acc = fold_left (fun acc i => g acc (S i)) (seq 0 n) acc.
Proof.
  rewrite <- seq_shift. generalize (seq 0 n). intros l.
  induction l as [|i l IH]; intros acc; [reflexivity|]. cbn [map fold_left]. apply IH.
Qed.

Lemma entry_tl b i : entry b (S i) = entry (tl b) i.
Proof.
  unfold entry. destruct b as [|y b]; [|reflexivity].
  cbn [tl]. now rewrite !nth_error_nil.
Qed.

Lemma entry_hd b : entry b 0 = toNumber (hd_error b).
Proof. unfold entry. now destruct b. Qed.

(** The loop of [cosineSim] accumulates the three sums. *)
Lemma cosineLoop_sums a : forall b dot na nb,
  Embedding.cosineLoop a b dot na nb
  = (fold_left (fun acc i => (acc + entry a i * entry b i)%float) (seq 0 (length a)) dot,
     fold_left (fun acc i => (acc + entry a i * entry a i)%float) (seq 0 (length a)) na,
     fold_left (fun acc i => (acc + entry b i * entry b i)%float) (seq 0 (length a)) nb).
Proof.
  induction a as [|x a IH]; intros b dot na nb; [reflexivity|].
  cbn [Embedding.cosineLoop length]. rewrite IH.
  cbn [seq fold_left]. rewrite !fold_left_seq_shift, <- !entry_hd.
  change (toNumber (Some x)) with (entry (x :: a) 0).
  f_equal; [f_equal|]; apply fold_left_pointwise; intros acc i;
    rewrite ?entry_tl; reflexivity.
Qed.

Lemma cosineSim_cosine a b : Embedding.cosineSim a b = cosine a b.
Proof.
  unfold Embedding.cosineSim, cosine, dotProduct. now rewrite cosineLoop_sums.
Qed.

Lemma dotProduct_sym n a b : dotProduct n a b = dotProduct n b a.
Proof.
  unfold dotProduct. apply fold_left_pointwise. intros acc i.
  now rewrite FloatFacts.mul_comm.
Qed.

(** The similarity of two vectors of the same length does not depend on
    which one is the question. *)
Lemma cosine_sym a b : length a = length b -> cosine a b = cosine b a.
Proof.
  intros H. unfold cosine. rewrite <- H. cbv zeta.
  rewrite (dotProduct_sym (length a) a b).
  now rewrite (FloatFacts.mul_comm (sqrt (dotProduct (length a) a a))).
Qed.

Lemma sum_nan (g : nat -> float) l :
  fold_left (fun acc i => (acc + g i)%float) l nan = nan.
Proof.
  induction l as [|i l IH]; [reflexivity|].
  cbn [fold_left]. now rewrite FloatFacts.add_nan_l.
Qed.

Lemma sum_with_nan (g : nat -> float) l i :
  In i l -> g i = nan -> forall acc, fold_left (fun acc i => (acc + g i)%float) l acc = nan.
Proof.
  intros Hin Hg. induction l as [|j l IH]; intros acc; [destruct Hin|].
  cbn [fold_left]. destruct Hin as [->|Hin]; [|now apply IH].
  rewrite Hg, FloatFacts.add_nan_r. apply sum_nan.
Qed.

(** A second vector with fewer entries than the first has no similarity
    to it: the entry that is missing is [undefined], and the sums are
    NaN. *)
Lemma cosine_ragged a b : length b < length a -> cosine a b = nan.
Proof.
  intros H. unfold cosine. cbv zeta.
  assert (Hdot : dotProduct (length a) a b = nan).
  { unfold dotProduct.
    apply (sum_with_nan (fun i => (entry a i * entry b i)%float) _ (length b)).
    - apply in_seq. lia.
    - unfold entry at 2. rewrite (proj2 (nth_error_None b (length b))) by lia.
      apply FloatFacts.mul_nan_r. }
  rewrite Hdot. apply FloatFacts.div_nan_l.
Qed.

Lemma slice0_split {A} (a : list A) k :
  exists rest, a = slice0 a k ++ rest.
Proof.
  unfold slice0. eexists. symmetry. apply firstn_skipn.
Qed.

End RetrieverFacts.

Section RetrieverClaims.
Import JS Server JSFacts SortFacts RetrieverFacts.

(** The similarity of [y] is at most that of [x]. *)
Definition notHigher (x y : nat * float) : Prop := (snd y <=? snd x)%float = true.

(** No similarity of the question to a stored vector is NaN. *)
Definition comparable (qVec : vec) (embs : list vec) : bool :=
  forallb (fun v => negb (is_nan (cosine qVec v))) embs.

Lemma comparable_scored qVec embs x :
  comparable qVec embs = true -> In x (Embedding.scored qVec embs) -> is_nan (snd x) = false.
Proof.
  unfold comparable, Embedding.scored, mapi. intros H Hx. destruct x as [i s].
  apply mapi_from_In in Hx. destruct Hx as (v & _ & Hv & ->).
  rewrite forallb_forall in H. apply nth_error_In in Hv. specialize (H v Hv).
  cbn [snd]. rewrite cosineSim_cosine. now apply negb_true_iff.
Qed.

(** On similarities that are numbers the comparator [(a, b) => b.s - a.s]
    is consistent: it is positive exactly when [a] is below [b], so that
    the sort leaves no entry in front of a more similar one. *)
Lemma sort_bySimDesc_sorted sims :
  (forall x, In x sims -> is_nan (snd x) = false) ->
  StronglySorted notHigher (sort Embedding.bySimDesc sims).
Proof.
  intros Hnum.
  assert (Hcmp : forall x y, is_nan (snd x) = false -> is_nan (snd y) = false ->
            Embedding.bySimDesc x y
            = (FloatFacts.fkey (snd x) <? FloatFacts.fkey (snd y))%Z)
    by (intros x y Hx Hy; now apply FloatFacts.sub_positive).
  apply sort_sorted with (dom := fun x => is_nan (snd x) = false).
  - unfold notHigher. intros x y z Hx Hy Hz.
    rewrite !FloatFacts.leb_fkey by assumption. rewrite !Z.leb_le. lia.
  - unfold notHigher. intros x y Hx Hy. rewrite Hcmp by assumption.
    rewrite FloatFacts.leb_fkey by assumption. rewrite Z.ltb_lt, Z.leb_le. lia.
  - unfold notHigher. intros x y Hx Hy. rewrite Hcmp by assumption.
    rewrite FloatFacts.leb_fkey by assumption. rewrite Z.ltb_ge, Z.leb_le. lia.
  - apply Forall_forall. exact Hnum.
Qed.

(** C2.  With no chunk or no stored vector the embedding retriever returns
    the empty list and leaves the world as it is.  Otherwise it asks for
    the embedding of the question and scores every stored vector against
    it by cosine similarity: [cosineSim] is the dot product over the
    product of the norms (plus [1e-8]), the same for a pair of vectors of
    one length whichever is the question, and NaN when the stored vector
    is the shorter one.  The hits are the chunks at the
    indices of [min k n] of the [n] scored entries; no similarity being
    NaN, they are the best ones, in order of non-increasing similarity: no
    hit is more similar than a hit in front of it, and no entry left out
    is more similar than a hit.  (A similarity that is NaN, as that of a
    stored vector shorter than the vector of the question, makes the
    comparator of the sort inconsistent, and the order of the hits is then
    the engine's: nothing is stated about it.) *)
Theorem findRelevantChunksEmbedding_topk :
  forall (cfg : Embedding.config) (w : Embedding.world) (question : jsstring) (k : Z),
    (0 <= k)%Z ->
    (Embedding.knowledge w = [] \/ Embedding.embeddings w = [] ->
     Embedding.findRelevantChunksEmbedding cfg question k w = (Ok [], w))
    /\
    (forall a b : vec,
       Embedding.cosineSim a b = cosine a b
       /\ (length a = length b -> Embedding.cosineSim a b = Embedding.cosineSim b a)
       /\ (length b < length a -> is_nan (Embedding.cosineSim a b) = true))
    /\
    (forall qVec others,
       Embedding.knowledge w <> [] -> Embedding.embeddings w <> [] ->
       embeddings_create (Embedding.api cfg) (Embedding.calls w) (Single question)
         = Ok (qVec :: others) ->
       exists ranked rest,
         Embedding.findRelevantChunksEmbedding cfg question k w
         = (Ok (map (fun x => nth_error (Embedding.knowledge w) (fst x)) ranked),
            Embedding.logCall (EmbeddingsCreate (Single question)) w)
         /\ Permutation (ranked ++ rest) (Embedding.scored qVec (Embedding.embeddings w))
         /\ (forall i s,
               In (i, s) (Embedding.scored qVec (Embedding.embeddings w))
               <-> exists v, nth_error (Embedding.embeddings w) i = Some v
                             /\ s = cosine qVec v)
         /\ length ranked = Nat.min (Z.to_nat k) (length (Embedding.embeddings w))
         /\ (comparable qVec (Embedding.embeddings w) = true ->
             StronglySorted notHigher ranked
             /\ forall x y, In x ranked -> In y rest -> notHigher x y)
         /\ (length (Embedding.embeddings w) <= length (Embedding.knowledge w) ->
             Forall (fun x => exists c, nth_error (Embedding.knowledge w) (fst x) = Some c)
                    ranked)).
Proof.
  intros cfg w question k Hk. split; [|split].
  - intros H. unfold Embedding.findRelevantChunksEmbedding, bind, get.
    destruct H as [H|H]; rewrite H; simpl; [reflexivity|].
    now rewrite orb_true_r.
  - intros a b. split; [apply cosineSim_cosine|]. split.
    + intros Hlen. rewrite !cosineSim_cosine. now apply cosine_sym.
    + intros Hlen. now rewrite cosineSim_cosine, cosine_ragged.
  - intros qVec others Hkn Hemb Hapi.
    set (sims := Embedding.scored qVec (Embedding.embeddings w)) in *.
    set (sorted := sort Embedding.bySimDesc sims).
    destruct (slice0_split sorted k) as [rest Hrest].
    assert (Hin : forall i s,
               In (i, s) sims
               <-> exists v, nth_error (Embedding.embeddings w) i = Some v
                             /\ s = cosine qVec v).
    { intros i s. unfold sims, Embedding.scored, mapi. rewrite mapi_from_In.
      rewrite Nat.sub_0_r. split.
      - intros (v & _ & Hn & Hs). exists v. now rewrite <- cosineSim_cosine.
      - intros (v & Hn & Hs). exists v. rewrite cosineSim_cosine.
        repeat split; auto. lia. }
    exists (slice0 sorted k), rest. repeat apply conj.
    + unfold Embedding.findRelevantChunksEmbedding, bind, get, Embedding.embeddingsCreate.
      destruct (Embedding.knowledge w) as [|c kn]; [congruence|].
      destruct (Embedding.embeddings w) as [|v em] eqn:Ee; [congruence|].
      cbn [length Nat.ltb Nat.leb negb orb]. rewrite Hapi. reflexivity.
    + rewrite <- Hrest. apply Permutation_sym, sort_perm.
    + exact Hin.
    + rewrite (slice0_length_exact _ Hk). unfold sorted.
      rewrite sort_length. unfold sims, Embedding.scored, mapi.
      now rewrite mapi_from_length.
    + intros Hcmp.
      assert (Hsorted : StronglySorted notHigher sorted).
      { apply sort_bySimDesc_sorted. intros x Hx.
        now apply (comparable_scored qVec (Embedding.embeddings w)). }
      split.
      * unfold slice0. now apply StronglySorted_firstn.
      * rewrite Hrest in Hsorted. now apply StronglySorted_app.
    + intros Hlen. apply Forall_forall. intros [i s] Hx.
      apply slice0_In in Hx. apply (proj1 (sort_In _ _ _)) in Hx.
      apply Hin in Hx. destruct Hx as (v & Hv & _).
      assert (Hi : i < length (Embedding.knowledge w)).
      { assert (i < length (Embedding.embeddings w)); [|lia].
        apply nth_error_Some. congruence. }
      simpl. destruct (nth_error (Embedding.knowledge w) i) eqn:E; [eauto|].
      apply nth_error_None in E. lia.
Qed.

Lemma findRelevantChunksEmbedding_topk_witness :
  (0 <= 2)%Z /\
  exists ranked rest,
    Embedding.findRelevantChunksEmbedding Samples.ecfg (lit "hello") 2 Samples.rworld
    = (Ok (map (fun x => nth_error Samples.passages (fst x)) ranked),
       Embedding.logCall (EmbeddingsCreate (Single (lit "hello"))) Samples.rworld)
    /\ length ranked = 2
    /\ StronglySorted notHigher ranked
    /\ (forall x y, In x ranked -> In y rest -> notHigher x y).
Proof.
  split; [lia|].
  destruct (@findRelevantChunksEmbedding_topk Samples.ecfg Samples.rworld (lit "hello") 2)
    as (_ & _ & H); [lia|].
  destruct (H (numbers [1%float; 0%float]) [])
    as (ranked & rest & Hrun & _ & _ & Hlen & Hbest & _).
  - discriminate.
  - discriminate.
  - reflexivity.
  - destruct Hbest as [Hs Htop]; [vm_compute; reflexivity|].
    exists ranked, rest. repeat split; assumption.
Defined.

(** On the sample the two best passages come back, the closest first. *)
Example findRelevantChunksEmbedding_sample :
  fst (Embedding.findRelevantChunksEmbedding Samples.ecfg (lit "hello") 2 Samples.rworld)
  = Ok [nth_error Samples.passages 2; nth_error Samples.passages 0].
Proof. vm_compute. reflexivity. Qed.

(** The similarity of a vector to itself, to a vector at a right angle and
    to its opposite; a [null] entry counts as zero. *)
#[warnings="-inexact-float"] Example cosineSim_samples :
  Embedding.cosineSim (numbers [3%float; 4%float]) (numbers [3%float; 4%float])
  = (25 / (25 + 1e-8))%float
  /\ Embedding.cosineSim (numbers [1%float; 0%float]) (numbers [0%float; 1%float]) = 0%float
  /\ Embedding.cosineSim (numbers [1%float; 0%float]) (numbers [(-1)%float; 0%float])
     = (-1 / (1 + 1e-8))%float
  /\ Embedding.cosineSim (numbers [1%float; 1%float]) [Num 1%float; Null]
     = Embedding.cosineSim (numbers [1%float; 1%float]) (numbers [1%float; 0%float]).
Proof. vm_compute. repeat split. Qed.

(** A stored vector shorter than the vector of the question has no
    similarity to it: the similarity is NaN. *)
Example ragged_not_comparable :
  is_nan (Embedding.cosineSim (numbers [1%float; 0%float]) (numbers [1%float])) = true
  /\ comparable (numbers [1%float; 0%float])
       [numbers [1%float; 0%float]; numbers [1%float]] = false.
Proof. vm_compute. split; reflexivity. Qed.

End RetrieverClaims.

(* ================================================================== *)
(** ** The chat route *)
(* ================================================================== *)

Module ChatFacts.
Import JS Server JSFacts.

(** The passages of a prompt as a numbered list: entry [n] is introduced
    by [[n]], and a blank line separates an entry from the next. *)
Fixpoint numbered {A} (render : A -> jsstring) (n : nat) (hits : list A) : jsstring :=
  match hits with
  | [] => []
  | [h] => lit "[" ++ decimal n ++ lit "] " ++ render h
  | h :: rest =>
      lit "[" ++ decimal n ++ lit "] " ++ render h ++ [LF; LF] ++ numbered render (S n) rest
  end.

(** The reference block of a prompt: nothing without passages, otherwise
    the heading, the passages numbered from 1 in the order given, and a
    blank line. *)
Definition referenceBlock {A} (heading : jsstring) (render : A -> jsstring)
           (hits : list A) : jsstring :=
  match hits with
  | [] => []
  | _ :: _ => [LF; LF] ++ heading ++ [LF] ++ numbered render 1 hits ++ [LF; LF]
  end.

Lemma join_mapi_numbered {A} (render : A -> jsstring) (f : A -> nat -> jsstring) hits :
  (forall h i, f h i = lit "[" ++ decimal (i + 1) ++ lit "] " ++ render h) ->
  forall n, join [LF; LF] (mapi_from n f hits) = numbered render (n + 1) hits.
Proof.
  intros Hf. induction hits as [|h rest IH]; intros n; [reflexivity|].
  cbn [mapi_from]. destruct rest as [|h' rest'].
  - cbn [mapi_from join numbered]. apply Hf.
  - change (join [LF; LF] (f h n :: mapi_from (S n) f (h' :: rest')))
      with (f h n ++ [LF; LF] ++ join [LF; LF] (mapi_from (S n) f (h' :: rest'))).
    rewrite IH, Hf.
    change (numbered render (n + 1) (h :: h' :: rest'))
      with (lit "[" ++ decimal (n + 1) ++ lit "] " ++ render h ++ [LF; LF]
            ++ numbered render (S (n + 1)) (h' :: rest')).
    rewrite <- !app_assoc. reflexivity.
Qed.

Lemma orElse_nonempty x y : y <> [] -> orElse x y <> [].
Proof.
  intros Hy. unfold orElse. destruct x as [[|c s]|]; simpl; congruence.
Qed.

(** *** The text of the model's answer

    An answer carries its text in [output_text] or, failing that, in the
    content items of the events of [output]: the [text.value] of every
    item of every event, in order (an item without one counting as an
    empty line), joined by line feeds and trimmed. *)

Definition itemText (c : contentItem) : jsstring :=
  match text_value c with
  | Some t => t
  | None => []
  end.

Definition eventTexts (ev : outputEvent) : list jsstring :=
  match content ev with
  | Some items => map itemText items
  | None => []
  end.

Definition drawn (out : modelOut) : jsstring :=
  match output out with
  | Some events => trim (join [LF] (concat (map eventTexts events)))
  | None => []
  end.

(** A field that is absent or empty. *)
Definition textless (x : option jsstring) : Prop := x = None \/ x = Some [].

Lemma outputText_drawn out events :
  output out = Some events -> outputText events = drawn out.
Proof.
  intros H. unfold drawn, outputText. rewrite H. do 2 f_equal.
  rewrite flat_map_concat_map, concat_map, map_map. f_equal.
  apply map_ext. intros ev. unfold eventTexts. destruct (content ev) as [items|]; [|reflexivity].
  apply map_ext. intros c. unfold itemText, orElse.
  now destruct (text_value c) as [[|x t]|].
Qed.

(** What the route draws from an answer without [output_text]. *)
Lemma textless_drawn out :
  textless (output_text out) ->
  match output_text out with
  | Some t => if nonempty t then t
              else match output out with Some evs => outputText evs | None => [] end
  | None => match output out with Some evs => outputText evs | None => [] end
  end = drawn out.
Proof.
  intros [H|H]; rewrite H; cbn [nonempty];
    (destruct (output out) as [events|] eqn:E;
     [now apply outputText_drawn|unfold drawn; now rewrite E]).
Qed.

(** *** The keyword variant *)

Definition kw_heading : jsstring := lit "Studio Reference (from uploaded PDFs):".

Lemma kw_context hits :
  Keyword.context hits = referenceBlock kw_heading (fun c => c) hits.
Proof.
  unfold Keyword.context, referenceBlock, mapi. destruct hits as [|h rest]; [reflexivity|].
  rewrite (join_mapi_numbered (fun c => c) Keyword.renderHit); reflexivity.
Qed.

Lemma kw_fallback_nonempty : Keyword.fallback <> [].
Proof. discriminate. Qed.

Lemma kw_reply_nonempty out : Keyword.replyOf out <> [].
Proof.
  unfold Keyword.replyOf. cbv zeta.
  match goal with |- (if nonempty ?r then _ else _) <> _ => destruct r eqn:E end;
    simpl; [apply kw_fallback_nonempty|discriminate].
Qed.

Lemma kw_reply_text out t :
  output_text out = Some t -> t <> [] -> Keyword.replyOf out = t.
Proof.
  intros Ht Hne. unfold Keyword.replyOf. rewrite Ht.
  destruct t as [|c t]; [congruence|]. reflexivity.
Qed.

Lemma kw_reply_drawn out :
  textless (output_text out) -> drawn out <> [] -> Keyword.replyOf out = drawn out.
Proof.
  intros Ht Hd. unfold Keyword.replyOf. cbv zeta. rewrite (textless_drawn out Ht).
  destruct (drawn out) as [|c t]; [congruence|]. reflexivity.
Qed.

Lemma kw_reply_response out t :
  textless (output_text out) -> drawn out = [] ->
  response_output_text out = Some t -> t <> [] -> Keyword.replyOf out = t.
Proof.
  intros Ht Hd Hr Hne. unfold Keyword.replyOf. cbv zeta.
  rewrite (textless_drawn out Ht), Hd, Hr.
  destruct t as [|c t]; [congruence|]. reflexivity.
Qed.

Lemma kw_reply_fallback out :
  textless (output_text out) -> drawn out = [] -> textless (response_output_text out) ->
  Keyword.replyOf out = Keyword.fallback.
Proof.
  intros Ht Hd Hr. unfold Keyword.replyOf. cbv zeta.
  rewrite (textless_drawn out Ht), Hd. now destruct Hr as [-> | ->].
Qed.

Lemma kw_chatBody cfg req w :
  Keyword.chatBody cfg req w
  = match userMessageOf req with
    | Throw e => (Throw e, w)
    | Ok userMessage =>
        let sys := Keyword.system cfg
                   ++ Keyword.context (Keyword.findRelevantChunks cfg w userMessage 5) in
        let w' := Keyword.logCall (ResponsesCreate sys userMessage) w in
        match responses_create (Keyword.api cfg) (Keyword.calls w) sys userMessage with
        | Ok out => (Ok {| status := 200; json := [("reply"%string, Keyword.replyOf out)] |}, w')
        | Throw e => (Throw e, w')
        end
    end.
Proof.
  unfold Keyword.chatBody, bind, lift, get, Keyword.responsesCreate, ret.
  destruct (userMessageOf req) as [userMessage|e]; [|reflexivity].
  cbv zeta. destruct (responses_create _ _ _ _); reflexivity.
Qed.

(** *** The embedding variant *)

Definition em_heading : jsstring := lit "Studio Reference:".

Definition em_render (h : Embedding.chunk) : jsstring :=
  lit "(" ++ Embedding.source h ++ lit ") " ++ Embedding.text h.

Lemma em_context hits :
  Embedding.context hits = referenceBlock em_heading em_render hits.
Proof.
  unfold Embedding.context, referenceBlock, mapi. destruct hits as [|h rest]; [reflexivity|].
  rewrite (join_mapi_numbered em_render Embedding.renderHit); [reflexivity|].
  intros c i. unfold Embedding.renderHit, em_render.
  change (lit "] (") with (lit "] " ++ lit "("). now rewrite <- !app_assoc.
Qed.

Lemma em_fallback_nonempty : Embedding.fallback <> [].
Proof. discriminate. Qed.

Lemma em_reply_nonempty out : Embedding.replyOf out <> [].
Proof.
  unfold Embedding.replyOf. cbv zeta.
  match goal with |- (if nonempty ?r then _ else _) <> _ => destruct r eqn:E end;
    simpl; [apply em_fallback_nonempty|discriminate].
Qed.

Lemma em_reply_text out t :
  output_text out = Some t -> t <> [] -> Embedding.replyOf out = t.
Proof.
  intros Ht Hne. unfold Embedding.replyOf. rewrite Ht.
  destruct t as [|c t]; [congruence|]. reflexivity.
Qed.

Lemma em_reply_drawn out :
  textless (output_text out) -> drawn out <> [] -> Embedding.replyOf out = drawn out.
Proof.
  intros Ht Hd. unfold Embedding.replyOf. cbv zeta. rewrite (textless_drawn out Ht).
  destruct (drawn out) as [|c t]; [congruence|]. reflexivity.
Qed.

Lemma em_reply_fallback out :
  textless (output_text out) -> drawn out = [] -> Embedding.replyOf out = Embedding.fallback.
Proof.
  intros Ht Hd. unfold Embedding.replyOf. cbv zeta.
  now rewrite (textless_drawn out Ht), Hd.
Qed.

Lemma defined_Some hits : Embedding.defined (map Some hits) = Ok hits.
Proof.
  induction hits as [|h rest IH]; simpl; [reflexivity|now rewrite IH].
Qed.

Lemma em_chatBody cfg req w :
  Embedding.chatBody cfg req w
  = match userMessageOf req with
    | Throw e => (Throw e, w)
    | Ok userMessage =>
        match Embedding.findRelevantChunksEmbedding cfg userMessage 8 w with
        | (Throw e, w1) => (Throw e, w1)
        | (Ok found, w1) =>
            match Embedding.defined found with
            | Throw e => (Throw e, w1)
            | Ok hits =>
                let sys := Embedding.system ++ Embedding.context hits in
                let w' := Embedding.logCall (ResponsesCreate sys userMessage) w1 in
                match responses_create (Embedding.api cfg) (Embedding.calls w1)
                        sys userMessage with
                | Ok out =>
                    (Ok {| status := 200;
                           json := [("reply"%string, Embedding.replyOf out)] |}, w')
                | Throw e => (Throw e, w')
                end
            end
        end
    end.
Proof.
  unfold Embedding.chatBody, bind, lift, Embedding.responsesCreate, ret.
  destruct (userMessageOf req) as [userMessage|e]; [|reflexivity].
  destruct (Embedding.findRelevantChunksEmbedding _ _ _ _) as [[found|e] w1]; [|reflexivity].
  destruct (Embedding.defined found) as [hits|e]; [|reflexivity].
  cbv zeta. destruct (responses_create _ _ _ _); reflexivity.
Qed.

End ChatFacts.

Section ChatClaims.
Import JS Server JSFacts ChatFacts LoadFacts EmbeddingLoadFacts.

Definition reply200 (reply : jsstring) : response :=
  {| status := 200; json := [("reply"%string, reply)] |}.

Definition error500 (e : error) : response :=
  {| status := 500; json := [("error"%string, orElse (message e) (lit "Server error"))] |}.

Lemma kw_chat_run cfg req w :
  Keyword.chat cfg req w
  = match Keyword.chatBody cfg req w with
    | (Ok resp, w') => (Ok resp, w')
    | (Throw e, w') => (Ok (error500 e), w')
    end.
Proof. reflexivity. Qed.

Lemma em_chat_run cfg req w :
  Embedding.chat cfg req w
  = match Embedding.chatBody cfg req w with
    | (Ok resp, w') => (Ok resp, w')
    | (Throw e, w') => (Ok (error500 e), w')
    end.
Proof. reflexivity. Qed.

(** C5.  A string sent as [message] is the user's message.  Once the
    message is read (and, in the embedding variant, the passages are
    retrieved) the route sends the model one request: its system turn is
    the fixed system instruction followed by the reference block of the
    hits (nothing without hits, otherwise the heading and the hits numbered
    from 1 in retrieval order) and its user turn is the user's message.
    When the model answers, the response is a 200 whose [reply] is the text
    of the answer: [output_text] when that is not empty; otherwise the
    texts of the content items of [output], joined by line feeds and
    trimmed, when that is not empty; otherwise, in the keyword variant,
    [response.output_text] when that is not empty. *)
Theorem chat_prompt_and_reply :
  (forall s, userMessageOf {| body := Some (JString s) |} = Ok s)
  /\
  (forall (cfg : Keyword.config) (req : request) (w : Keyword.world) userMessage,
     userMessageOf req = Ok userMessage ->
     Keyword.calls (snd (Keyword.chat cfg req w))
     = Keyword.calls w
       ++ [ResponsesCreate
             (Keyword.system cfg
              ++ referenceBlock kw_heading (fun c => c)
                   (Keyword.findRelevantChunks cfg w userMessage 5))
             userMessage]
     /\ forall out,
          responses_create (Keyword.api cfg) (Keyword.calls w)
            (Keyword.system cfg
             ++ referenceBlock kw_heading (fun c => c)
                  (Keyword.findRelevantChunks cfg w userMessage 5))
            userMessage = Ok out ->
          exists reply,
            fst (Keyword.chat cfg req w) = Ok (reply200 reply)
            /\ (forall t, output_text out = Some t -> t <> [] -> reply = t)
            /\ (textless (output_text out) -> drawn out <> [] -> reply = drawn out)
            /\ (textless (output_text out) -> drawn out = [] ->
                forall t, response_output_text out = Some t -> t <> [] -> reply = t))
  /\
  (forall (cfg : Embedding.config) (req : request) (w w1 : Embedding.world) userMessage hits,
     userMessageOf req = Ok userMessage ->
     Embedding.findRelevantChunksEmbedding cfg userMessage 8 w = (Ok (map Some hits), w1) ->
     Embedding.calls (snd (Embedding.chat cfg req w))
     = Embedding.calls w1
       ++ [ResponsesCreate
             (Embedding.system ++ referenceBlock em_heading em_render hits) userMessage]
     /\ forall out,
          responses_create (Embedding.api cfg) (Embedding.calls w1)
            (Embedding.system ++ referenceBlock em_heading em_render hits)
            userMessage = Ok out ->
          exists reply,
            fst (Embedding.chat cfg req w) = Ok (reply200 reply)
            /\ (forall t, output_text out = Some t -> t <> [] -> reply = t)
            /\ (textless (output_text out) -> drawn out <> [] -> reply = drawn out)).
Proof.
  repeat apply conj.
  - intros [|c s]; reflexivity.
  - intros cfg req w userMessage Hmsg.
    rewrite kw_chat_run, kw_chatBody, Hmsg. cbv zeta. rewrite kw_context.
    split.
    + destruct (responses_create _ _ _ _); reflexivity.
    + intros out Hout. rewrite Hout. exists (Keyword.replyOf out).
      split; [reflexivity|]. split; [apply kw_reply_text|].
      split; [apply kw_reply_drawn|]. intros Ht Hd t. now apply kw_reply_response.
  - intros cfg req w w1 userMessage hits Hmsg Hfind.
    rewrite em_chat_run, em_chatBody, Hmsg, Hfind, defined_Some. cbv zeta.
    rewrite em_context. split.
    + destruct (responses_create _ _ _ _); reflexivity.
    + intros out Hout. rewrite Hout. exists (Embedding.replyOf out).
      split; [reflexivity|]. split; [apply em_reply_text|apply em_reply_drawn].
Qed.

(** An answer that carries its text in two events of [output]. *)
Definition eventsAnswer : modelOut :=
  {| output_text := None;
     output :=
       Some [ {| content := Some [ {| text_value := Some (lit " The fee is 50 dollars.") |} ] |};
              {| content := None |};
              {| content := Some [ {| text_value := None |};
                                   {| text_value := Some (lit "(Handbook) ") |} ] |} ];
     response_output_text := Some (lit "unused") |}.

Definition eventsService : service :=
  {| embeddings_create := embeddings_create Samples.embedService;
     responses_create := fun _ _ _ => Ok eventsAnswer |}.

Definition kcfgEvents : Keyword.config :=
  {| Keyword.tables := ascii_tables; Keyword.instructions := [];
     Keyword.pdfParse := true; Keyword.api := eventsService |}.

Lemma chat_prompt_and_reply_witness :
  Keyword.calls
    (snd (Keyword.chat Samples.kcfg {| body := Some (JString (lit "fee")) |} Samples.kworld))
  = [ResponsesCreate
       (Keyword.system Samples.kcfg
        ++ [LF; LF] ++ lit "Studio Reference (from uploaded PDFs):" ++ [LF]
        ++ lit "[1] The retest fee is 50 dollars." ++ [LF; LF]
        ++ lit "[2] fee fee test" ++ [LF; LF])
       (lit "fee")]
  /\ fst (Keyword.chat Samples.kcfg {| body := Some (JString (lit "fee")) |} Samples.kworld)
     = Ok (reply200 (lit "The fee is 50 dollars. (Handbook)"))
  /\ fst (Embedding.chat Samples.ecfg {| body := Some (JString (lit "hello")) |} Samples.rworld)
     = Ok (reply200 (lit "The fee is 50 dollars. (Handbook)"))
  /\ fst (Keyword.chat kcfgEvents {| body := Some (JString (lit "fee")) |} Samples.kworld)
     = Ok (reply200 (lit "The fee is 50 dollars." ++ [LF; LF] ++ lit "(Handbook)")).
Proof.
  destruct chat_prompt_and_reply as (_ & Hk & He).
  destruct (Hk Samples.kcfg {| body := Some (JString (lit "fee")) |} Samples.kworld
               (lit "fee") eq_refl) as [Hcalls Hreply].
  destruct (Hreply Samples.answer eq_refl) as (reply & H200 & Htext & _).
  destruct (He Samples.ecfg {| body := Some (JString (lit "hello")) |} Samples.rworld
               (snd (Embedding.findRelevantChunksEmbedding Samples.ecfg (lit "hello") 8
                       Samples.rworld))
               (lit "hello")
               [ {| Embedding.text := lit "wait two weeks"; Embedding.source := lit "Guide" |};
                 {| Embedding.text := lit "hello team"; Embedding.source := lit "Handbook" |};
                 {| Embedding.text := lit "Retest fee: 50"; Embedding.source := lit "Handbook" |} ]
               eq_refl) as [_ Hreply'].
  { vm_compute. reflexivity. }
  destruct (Hreply' Samples.answer eq_refl) as (reply' & H200' & Htext' & _).
  destruct (Hk kcfgEvents {| body := Some (JString (lit "fee")) |} Samples.kworld
               (lit "fee") eq_refl) as [_ Hevents].
  destruct (Hevents eventsAnswer eq_refl) as (reply'' & H200'' & _ & Hdrawn & _).
  split; [|split; [|split]].
  - rewrite Hcalls. vm_compute. reflexivity.
  - rewrite H200, (Htext _ eq_refl); [reflexivity|discriminate].
  - rewrite H200', (Htext' _ eq_refl); [reflexivity|discriminate].
  - rewrite H200'', Hdrawn; [vm_compute; reflexivity|now left|vm_compute; discriminate].
Defined.

(** *** The steps of the route

    What the [try] block of the route does, step by step: a step throws,
    or the model answers. *)

(** A step of the keyword route throws [e]: [String(req.body.message)], or
    the request to the model. *)
Inductive kw_throws (cfg : Keyword.config) (req : request) (w : Keyword.world)
  : error -> Prop :=
| kw_message_throws e :
    userMessageOf req = Throw e -> kw_throws cfg req w e
| kw_model_throws userMessage e :
    userMessageOf req = Ok userMessage ->
    responses_create (Keyword.api cfg) (Keyword.calls w)
      (Keyword.system cfg
       ++ Keyword.context (Keyword.findRelevantChunks cfg w userMessage 5))
      userMessage = Throw e ->
    kw_throws cfg req w e.

(** No step of the keyword route throws, and the model answers [out]. *)
Inductive kw_answers (cfg : Keyword.config) (req : request) (w : Keyword.world)
  : modelOut -> Prop :=
| kw_model_answers userMessage out :
    userMessageOf req = Ok userMessage ->
    responses_create (Keyword.api cfg) (Keyword.calls w)
      (Keyword.system cfg
       ++ Keyword.context (Keyword.findRelevantChunks cfg w userMessage 5))
      userMessage = Ok out ->
    kw_answers cfg req w out.

(** A step of the embedding route throws [e]: [String(req.body.message)],
    the request for the embedding of the question, reading the embedding
    out of an answer without data, reading the source of a hit that is
    [undefined], or the request to the model. *)
Inductive em_throws (cfg : Embedding.config) (req : request) (w : Embedding.world)
  : error -> Prop :=
| em_message_throws e :
    userMessageOf req = Throw e -> em_throws cfg req w e
| em_embedding_throws userMessage e :
    userMessageOf req = Ok userMessage ->
    Embedding.knowledge w <> [] -> Embedding.embeddings w <> [] ->
    embeddings_create (Embedding.api cfg) (Embedding.calls w) (Single userMessage)
      = Throw e ->
    em_throws cfg req w e
| em_embedding_missing userMessage :
    userMessageOf req = Ok userMessage ->
    Embedding.knowledge w <> [] -> Embedding.embeddings w <> [] ->
    embeddings_create (Embedding.api cfg) (Embedding.calls w) (Single userMessage)
      = Ok [] ->
    em_throws cfg req w (typeError "embedding")
| em_hit_undefined userMessage found w1 :
    userMessageOf req = Ok userMessage ->
    Embedding.findRelevantChunksEmbedding cfg userMessage 8 w = (Ok found, w1) ->
    In None found ->
    em_throws cfg req w (typeError "source")
| em_model_throws userMessage hits w1 e :
    userMessageOf req = Ok userMessage ->
    Embedding.findRelevantChunksEmbedding cfg userMessage 8 w = (Ok (map Some hits), w1) ->
    responses_create (Embedding.api cfg) (Embedding.calls w1)
      (Embedding.system ++ Embedding.context hits) userMessage = Throw e ->
    em_throws cfg req w e.

(** No step of the embedding route throws, and the model answers [out]. *)
Inductive em_answers (cfg : Embedding.config) (req : request) (w : Embedding.world)
  : modelOut -> Prop :=
| em_model_answers userMessage hits w1 out :
    userMessageOf req = Ok userMessage ->
    Embedding.findRelevantChunksEmbedding cfg userMessage 8 w = (Ok (map Some hits), w1) ->
    responses_create (Embedding.api cfg) (Embedding.calls w1)
      (Embedding.system ++ Embedding.context hits) userMessage = Ok out ->
    em_answers cfg req w out.

Lemma defined_cases found :
  (exists hits, found = map Some hits /\ Embedding.defined found = Ok hits)
  \/ (In None found /\ Embedding.defined found = Throw (typeError "source")).
Proof.
  induction found as [|[h|] found IH].
  - left. exists []. split; reflexivity.
  - destruct IH as [(hits & -> & Hd)|[Hin Hd]].
    + left. exists (h :: hits). cbn [map Embedding.defined]. now rewrite Hd.
    + right. split; [now right|]. cbn [Embedding.defined]. now rewrite Hd.
  - right. split; [now left|reflexivity].
Qed.

Lemma find_throws cfg question k w :
  Embedding.knowledge w <> [] -> Embedding.embeddings w <> [] ->
  match embeddings_create (Embedding.api cfg) (Embedding.calls w) (Single question) with
  | Throw e =>
      fst (Embedding.findRelevantChunksEmbedding cfg question k w) = Throw e
  | Ok [] =>
      fst (Embedding.findRelevantChunksEmbedding cfg question k w)
      = Throw (typeError "embedding")
  | Ok (_ :: _) =>
      exists found, fst (Embedding.findRelevantChunksEmbedding cfg question k w) = Ok found
  end.
Proof.
  intros Hkn Hemb.
  unfold Embedding.findRelevantChunksEmbedding, bind, get, Embedding.embeddingsCreate.
  destruct (Embedding.knowledge w) as [|c kn]; [congruence|].
  destruct (Embedding.embeddings w) as [|v em]; [congruence|].
  cbn [length Nat.ltb Nat.leb negb orb].
  destruct (embeddings_create _ _ _) as [[|qVec others]|e]; cbn [fst ret throw]; eauto.
Qed.

(** A failed retrieval is a failed request for the embedding of the
    question, or an answer to it without data. *)
Lemma find_fails cfg question k w e w1 :
  Embedding.findRelevantChunksEmbedding cfg question k w = (Throw e, w1) ->
  Embedding.knowledge w <> [] /\ Embedding.embeddings w <> []
  /\ (embeddings_create (Embedding.api cfg) (Embedding.calls w) (Single question) = Throw e
      \/ (embeddings_create (Embedding.api cfg) (Embedding.calls w) (Single question) = Ok []
          /\ e = typeError "embedding")).
Proof.
  unfold Embedding.findRelevantChunksEmbedding, bind, get, Embedding.embeddingsCreate.
  destruct (Embedding.knowledge w) as [|c kn]; [discriminate|].
  destruct (Embedding.embeddings w) as [|v em]; [discriminate|].
  cbn [length Nat.ltb Nat.leb negb orb].
  destruct (embeddings_create _ _ _) as [[|qVec others]|e'];
    cbn [ret throw]; intros H; inversion H; subst;
    (split; [discriminate|split; [discriminate|auto]]).
Qed.

(** C8.  The route answers every request once, and never throws.  Either
    no step of its [try] block throws and the model answers: the response
    is then a 200 whose [reply] is the text of that answer, never empty
    because the fixed fallback sentence stands in for an answer without
    text.  Or a step throws: the response is then a 500 whose [error] is
    the message of what was thrown (or a fixed text), never empty.  A
    request has one of the two outcomes and not both. *)
Theorem chat_outcomes :
  (forall (cfg : Keyword.config) (req : request) (w : Keyword.world),
     (exists resp w', Keyword.chat cfg req w = (Ok resp, w'))
     /\ ((exists out, kw_answers cfg req w out) \/ (exists e, kw_throws cfg req w e))
     /\ (forall out, kw_answers cfg req w out ->
           fst (Keyword.chat cfg req w) = Ok (reply200 (Keyword.replyOf out))
           /\ Keyword.replyOf out <> [])
     /\ (forall e, kw_throws cfg req w e ->
           fst (Keyword.chat cfg req w) = Ok (error500 e)))
  /\
  (forall (cfg : Embedding.config) (req : request) (w : Embedding.world),
     (exists resp w', Embedding.chat cfg req w = (Ok resp, w'))
     /\ ((exists out, em_answers cfg req w out) \/ (exists e, em_throws cfg req w e))
     /\ (forall out, em_answers cfg req w out ->
           fst (Embedding.chat cfg req w) = Ok (reply200 (Embedding.replyOf out))
           /\ Embedding.replyOf out <> [])
     /\ (forall e, em_throws cfg req w e ->
           fst (Embedding.chat cfg req w) = Ok (error500 e)))
  /\
  (forall out,
     textless (output_text out) -> drawn out = [] ->
     Embedding.replyOf out = Embedding.fallback
     /\ (textless (response_output_text out) -> Keyword.replyOf out = Keyword.fallback))
  /\ (forall e, orElse (message e) (lit "Server error") <> []).
Proof.
  repeat apply conj.
  - intros cfg req w. rewrite kw_chat_run, kw_chatBody.
    destruct (userMessageOf req) as [userMessage|e] eqn:Hmsg.
    + cbv zeta. destruct (responses_create _ _ _ _) as [out|e] eqn:Hout.
      * repeat apply conj.
        -- do 2 eexists. reflexivity.
        -- left. exists out. now apply (kw_model_answers cfg req w Hmsg).
        -- intros out' H. destruct H as [m out' Hm Ho].
           rewrite Hmsg in Hm. inversion Hm; subst m. rewrite Hout in Ho.
           inversion Ho; subst out'. split; [reflexivity|apply kw_reply_nonempty].
        -- intros e H. destruct H as [e Hm|m e Hm Ho]; [congruence|].
           rewrite Hmsg in Hm. inversion Hm; subst m. congruence.
      * repeat apply conj.
        -- do 2 eexists. reflexivity.
        -- right. exists e. now apply (kw_model_throws cfg req w Hmsg).
        -- intros out' H. destruct H as [m out' Hm Ho].
           rewrite Hmsg in Hm. inversion Hm; subst m. congruence.
        -- intros e' H. destruct H as [e' Hm|m e' Hm Ho]; [congruence|].
           rewrite Hmsg in Hm. inversion Hm; subst m. rewrite Hout in Ho.
           now inversion Ho.
    + repeat apply conj.
      * do 2 eexists. reflexivity.
      * right. exists e. now apply kw_message_throws.
      * intros out' H. destruct H as [m out' Hm Ho]. congruence.
      * intros e' H. destruct H as [e' Hm|m e' Hm Ho]; [|congruence].
        rewrite Hmsg in Hm. now inversion Hm.
  - intros cfg req w. rewrite em_chat_run, em_chatBody.
    destruct (userMessageOf req) as [userMessage|e] eqn:Hmsg.
    + destruct (Embedding.findRelevantChunksEmbedding cfg userMessage 8 w)
        as [[found|e] w1] eqn:Hfind.
      * destruct (defined_cases found) as [(hits & -> & Hd)|[Hnone Hd]]; rewrite Hd.
        -- cbv zeta. destruct (responses_create _ _ _ _) as [out|e] eqn:Hout.
           ++ repeat apply conj.
              ** do 2 eexists. reflexivity.
              ** left. exists out. now apply (em_model_answers cfg req w _ Hmsg Hfind).
              ** intros out' H. destruct H as [m hits' w1' out' Hm Hf Ho].
                 rewrite Hmsg in Hm. inversion Hm; subst m. rewrite Hfind in Hf.
                 inversion Hf as [[Hh Hw]]. subst w1'.
                 apply (f_equal Embedding.defined) in Hh. rewrite !defined_Some in Hh.
                 inversion Hh; subst hits'. rewrite Hout in Ho. inversion Ho; subst out'.
                 split; [reflexivity|apply em_reply_nonempty].
              ** intros e H.
                 destruct H as [e Hm|m e Hm Hkn Hemb Ha|m Hm Hkn Hemb Ha
                               |m found' w1' Hm Hf Hin|m hits' w1' e Hm Hf Ho];
                   try congruence;
                   rewrite Hmsg in Hm; inversion Hm; subst m.
                 --- pose proof (find_throws cfg userMessage 8 w Hkn Hemb) as Ht.
                     rewrite Ha, Hfind in Ht. discriminate.
                 --- pose proof (find_throws cfg userMessage 8 w Hkn Hemb) as Ht.
                     rewrite Ha, Hfind in Ht. discriminate.
                 --- rewrite Hfind in Hf. inversion Hf; subst.
                     apply in_map_iff in Hin. destruct Hin as (h & Hh & _). discriminate.
                 --- rewrite Hfind in Hf. inversion Hf as [[Hh Hw]]. subst w1'.
                     apply (f_equal Embedding.defined) in Hh. rewrite !defined_Some in Hh.
                     inversion Hh; subst hits'. congruence.
           ++ repeat apply conj.
              ** do 2 eexists. reflexivity.
              ** right. exists e. now apply (em_model_throws cfg req w _ Hmsg Hfind).
              ** intros out' H. destruct H as [m hits' w1' out' Hm Hf Ho].
                 rewrite Hmsg in Hm. inversion Hm; subst m. rewrite Hfind in Hf.
                 inversion Hf as [[Hh Hw]]. subst w1'.
                 apply (f_equal Embedding.defined) in Hh. rewrite !defined_Some in Hh.
                 inversion Hh; subst hits'. congruence.
              ** intros e' H.
                 destruct H as [e' Hm|m e' Hm Hkn Hemb Ha|m Hm Hkn Hemb Ha
                               |m found' w1' Hm Hf Hin|m hits' w1' e' Hm Hf Ho];
                   try congruence;
                   rewrite Hmsg in Hm; inversion Hm; subst m.
                 --- pose proof (find_throws cfg userMessage 8 w Hkn Hemb) as Ht.
                     rewrite Ha, Hfind in Ht. discriminate.
                 --- pose proof (find_throws cfg userMessage 8 w Hkn Hemb) as Ht.
                     rewrite Ha, Hfind in Ht. discriminate.
                 --- rewrite Hfind in Hf. inversion Hf; subst.
                     apply in_map_iff in Hin. destruct Hin as (h & Hh & _). discriminate.
                 --- rewrite Hfind in Hf. inversion Hf as [[Hh Hw]]. subst w1'.
                     apply (f_equal Embedding.defined) in Hh. rewrite !defined_Some in Hh.
                     inversion Hh; subst hits'. rewrite Hout in Ho. now inversion Ho.
        -- repeat apply conj.
           ++ do 2 eexists. reflexivity.
           ++ right. exists (typeError "source").
              eapply em_hit_undefined; eassumption.
           ++ intros out' H. destruct H as [m hits' w1' out' Hm Hf Ho].
              rewrite Hmsg in Hm. inversion Hm; subst m. rewrite Hfind in Hf.
              inversion Hf; subst. rewrite defined_Some in Hd. discriminate.
           ++ intros e H.
              destruct H as [e Hm|m e Hm Hkn Hemb Ha|m Hm Hkn Hemb Ha
                            |m found' w1' Hm Hf Hin|m hits' w1' e Hm Hf Ho];
                try congruence;
                rewrite Hmsg in Hm; inversion Hm; subst m.
              ** pose proof (find_throws cfg userMessage 8 w Hkn Hemb) as Ht.
                 rewrite Ha, Hfind in Ht. discriminate.
              ** pose proof (find_throws cfg userMessage 8 w Hkn Hemb) as Ht.
                 rewrite Ha, Hfind in Ht. discriminate.
              ** reflexivity.
              ** rewrite Hfind in Hf. inversion Hf; subst.
                 rewrite defined_Some in Hd. discriminate.
      * apply find_fails in Hfind as Hwhy. destruct Hwhy as (Hkn & Hemb & Hwhy).
        repeat apply conj.
        -- do 2 eexists. reflexivity.
        -- right. exists e. destruct Hwhy as [Ha|[Ha ->]].
           ++ eapply em_embedding_throws; eassumption.
           ++ eapply em_embedding_missing; eassumption.
        -- intros out' H. destruct H as [m hits' w1' out' Hm Hf Ho].
           rewrite Hmsg in Hm. inversion Hm; subst m. congruence.
        -- intros e' H.
           destruct H as [e' Hm|m e' Hm Hkn' Hemb' Ha|m Hm Hkn' Hemb' Ha
                         |m found' w1' Hm Hf Hin|m hits' w1' e' Hm Hf Ho];
             try congruence;
             rewrite Hmsg in Hm; inversion Hm; subst m.
           ++ cbn [fst]. destruct Hwhy as [Hb|[Hb ->]]; congruence.
           ++ destruct Hwhy as [Hb|[Hb ->]]; [congruence|reflexivity].
    + repeat apply conj.
      * do 2 eexists. reflexivity.
      * right. exists e. now apply em_message_throws.
      * intros out' H. destruct H as [m hits' w1' out' Hm Hf Ho]. congruence.
      * intros e' H.
        destruct H as [e' Hm|m e' Hm Hkn Hemb Ha|m Hm Hkn Hemb Ha
                      |m found' w1' Hm Hf Hin|m hits' w1' e' Hm Hf Ho];
          try congruence.
        rewrite Hmsg in Hm. now inversion Hm.
  - intros out Ht Hd. split; [now apply em_reply_fallback|].
    intros Hr. now apply kw_reply_fallback.
  - intros e. apply orElse_nonempty. discriminate.
Qed.

(** With the API down the keyword route answers 500 with the message of
    the error; an answer without text is replied to with the fallback; and
    an embeddings answer without data makes the embedding route answer 500
    with the message of the [TypeError]. *)
Lemma chat_outcomes_witness :
  fst (Keyword.chat Samples.kcfg' {| body := Some (JString (lit "fee")) |} Samples.kworld)
  = Ok {| status := 500; json := [("error"%string, lit "Connection error.")] |}
  /\ fst (Keyword.chat Samples.kcfg {| body := Some (JString (lit "fee")) |} Samples.kworld)
     = Ok {| status := 200;
             json := [("reply"%string, lit "The fee is 50 dollars. (Handbook)")] |}
  /\ Embedding.replyOf {| output_text := Some []; output := None; response_output_text := None |}
     = Embedding.fallback
  /\ Keyword.replyOf {| output_text := Some []; output := Some []; response_output_text := None |}
     = Keyword.fallback.
Proof.
  destruct chat_outcomes as (Hk & _ & Hf & _).
  split; [|split].
  - destruct (Hk Samples.kcfg' {| body := Some (JString (lit "fee")) |} Samples.kworld)
      as (_ & _ & _ & H500).
    rewrite (H500 {| message := Some (lit "Connection error.") |}); [reflexivity|].
    now apply (@kw_model_throws Samples.kcfg' _ Samples.kworld (lit "fee")).
  - destruct (Hk Samples.kcfg {| body := Some (JString (lit "fee")) |} Samples.kworld)
      as (_ & _ & H200 & _).
    destruct (H200 Samples.answer) as [-> _]; [|reflexivity].
    now apply (@kw_model_answers Samples.kcfg _ Samples.kworld (lit "fee")).
  - split.
    + apply Hf; [now right|reflexivity].
    + apply Hf; [now right|reflexivity|now left].
Defined.

End ChatClaims.

Section EmptyCorpusClaims.
Import JS Server JSFacts ChatFacts LoadFacts EmbeddingLoadFacts.

Lemma kw_find_empty cfg w question max :
  Keyword.knowledgeChunks w = [] -> Keyword.findRelevantChunks cfg w question max = [].
Proof. intros H. unfold Keyword.findRelevantChunks. now rewrite H. Qed.

Lemma em_find_empty cfg w question k :
  Embedding.knowledge w = [] \/ Embedding.embeddings w = [] ->
  Embedding.findRelevantChunksEmbedding cfg question k w = (Ok [], w).
Proof.
  intros H. unfold Embedding.findRelevantChunksEmbedding, bind, get.
  destruct H as [H|H]; rewrite H; simpl; [reflexivity|].
  now rewrite orb_true_r.
Qed.

(** C9.  A missing knowledge directory leaves the corpus (and the stored
    vectors) empty.  With an empty corpus the keyword retriever returns the
    empty list; with no chunk or no stored vector the embedding retriever
    returns the empty list and changes nothing, so that no request goes to
    the embedding API.  The chat route then sends the model a single
    request, whose system turn is the system instruction alone, and
    answers 200 with the model's reply when the model answers. *)
Theorem empty_corpus :
  (forall (cfg : Keyword.config) (w : Keyword.world),
     Keyword.fs w = Missing ->
     Keyword.loadKnowledge cfg w = (Ok tt, Keyword.setChunks [] w))
  /\
  (forall (cfg : Embedding.config) (w : Embedding.world),
     Embedding.fs w = Missing ->
     Embedding.loadKnowledge cfg w
     = (Ok tt, Embedding.setEmbeddings [] (Embedding.setKnowledge [] w)))
  /\
  (forall (cfg : Keyword.config) (w : Keyword.world),
     Keyword.knowledgeChunks w = [] ->
     (forall question max, Keyword.findRelevantChunks cfg w question max = [])
     /\ forall req userMessage,
          userMessageOf req = Ok userMessage ->
          Keyword.calls (snd (Keyword.chat cfg req w))
          = Keyword.calls w ++ [ResponsesCreate (Keyword.system cfg) userMessage]
          /\ forall out,
               responses_create (Keyword.api cfg) (Keyword.calls w)
                 (Keyword.system cfg) userMessage = Ok out ->
               fst (Keyword.chat cfg req w)
               = Ok {| status := 200; json := [("reply"%string, Keyword.replyOf out)] |})
  /\
  (forall (cfg : Embedding.config) (w : Embedding.world),
     Embedding.knowledge w = [] \/ Embedding.embeddings w = [] ->
     (forall question k,
        Embedding.findRelevantChunksEmbedding cfg question k w = (Ok [], w))
     /\ forall req userMessage,
          userMessageOf req = Ok userMessage ->
          Embedding.calls (snd (Embedding.chat cfg req w))
          = Embedding.calls w ++ [ResponsesCreate Embedding.system userMessage]
          /\ forall out,
               responses_create (Embedding.api cfg) (Embedding.calls w)
                 Embedding.system userMessage = Ok out ->
               fst (Embedding.chat cfg req w)
               = Ok {| status := 200; json := [("reply"%string, Embedding.replyOf out)] |}).
Proof.
  repeat apply conj.
  - intros cfg w Hfs. now rewrite kw_loadKnowledge, Hfs.
  - intros cfg w Hfs. now rewrite loadKnowledge_run, Hfs.
  - intros cfg w Hempty. split; [intros; now apply kw_find_empty|].
    intros req userMessage Hmsg.
    unfold Keyword.chat, tryCatch. rewrite kw_chatBody, Hmsg. cbv zeta.
    rewrite (@kw_find_empty cfg w userMessage 5 Hempty). cbn [Keyword.context].
    rewrite app_nil_r. split.
    + destruct (responses_create _ _ _ _); reflexivity.
    + intros out Hout. now rewrite Hout.
  - intros cfg w Hempty. split; [intros; now apply em_find_empty|].
    intros req userMessage Hmsg.
    unfold Embedding.chat, tryCatch. rewrite em_chatBody, Hmsg.
    rewrite (@em_find_empty cfg w userMessage 8 Hempty).
    cbn [Embedding.defined Embedding.context]. cbv zeta. rewrite app_nil_r. split.
    + destruct (responses_create _ _ _ _); reflexivity.
    + intros out Hout. now rewrite Hout.
Qed.

(** A process started without a knowledge directory. *)
Definition bare : Embedding.world :=
  snd (Embedding.loadKnowledge Samples.ecfg (em_fresh Missing)).

Lemma empty_corpus_witness :
  Embedding.findRelevantChunksEmbedding Samples.ecfg (lit "hello") 8 bare = (Ok [], bare)
  /\ Embedding.calls
       (snd (Embedding.chat Samples.ecfg {| body := Some (JString (lit "hello")) |} bare))
     = [ResponsesCreate Embedding.system (lit "hello")]
  /\ fst (Embedding.chat Samples.ecfg {| body := Some (JString (lit "hello")) |} bare)
     = Ok {| status := 200;
             json := [("reply"%string, lit "The fee is 50 dollars. (Handbook)")] |}
  /\ Keyword.findRelevantChunks Samples.kcfg
       (snd (Keyword.loadKnowledge Samples.kcfg Samples.kworld)) Samples.question 5 = [].
Proof.
  destruct empty_corpus as (Hkl & Hel & Hk & He).
  destruct (He Samples.ecfg bare (or_introl eq_refl)) as [Hfind Hchat].
  destruct (Hchat {| body := Some (JString (lit "hello")) |} (lit "hello") eq_refl)
    as [Hcalls Hreply].
  split; [apply Hfind|]. split; [exact Hcalls|]. split; [exact (Hreply _ eq_refl)|].
  rewrite (Hkl Samples.kcfg Samples.kworld eq_refl).
  now apply (Hk Samples.kcfg (Keyword.setChunks [] Samples.kworld) eq_refl).
Defined.

End EmptyCorpusClaims.

(* ================================================================== *)
(** ** Further properties of the chunking *)
(* ================================================================== *)

Module ChunkMore.
Import JS Server JSFacts ChunkFacts IndexFacts.

(** A block put together again from its slices: the first slice, then the
    following ones without the [ov] characters that each repeats. *)
Definition rejoin {A} (ov : nat) (slices : list (list A)) : list A :=
  match slices with
  | [] => []
  | t :: ts => t ++ concat (map (skipn ov) ts)
  end.

Lemma slice_to_end {A} (s : list A) i n :
  length s <= i + n -> slice s i (i + n) = skipn i s.
Proof.
  intros H. unfold slice. apply firstn_all2. rewrite length_skipn. lia.
Qed.

Lemma windows_rejoin {A} size step fuel (s : list A) : forall i,
  0 < step -> step <= size ->
  length s - i <= fuel -> i < length s ->
  rejoin (size - step) (windows size step fuel s i) = skipn i s.
Proof.
  induction fuel as [|fuel IH]; intros i Hstep Hle Hfuel Hi; [lia|].
  cbn [windows]. destruct (Nat.ltb_spec i (length s)) as [_|]; [|lia].
  destruct (Nat.leb_spec (length s) (i + size)) as [Hend|Hmore].
  - cbn [rejoin map concat]. rewrite app_nil_r. now apply slice_to_end.
  - assert (Hnext : i + step < length s) by lia.
    specialize (IH (i + step) Hstep Hle ltac:(lia) Hnext).
    destruct (windows size step fuel s (i + step)) as [|w1 ws] eqn:Hw.
    + cbn [rejoin] in IH. symmetry in IH.
      apply (f_equal (@length A)) in IH. rewrite length_skipn in IH. simpl in IH. lia.
    + assert (Hw1 : w1 = slice s (i + step) (i + step + size)).
      { assert (H0 : nth_error (windows size step fuel s (i + step)) 0 = Some w1)
          by now rewrite Hw.
        apply (windows_nth Hstep Hle) in H0. destruct H0 as [H0 _].
        now rewrite Nat.add_0_r in H0. }
      cbn [rejoin map concat] in *.
      assert (Hlen : size - step <= length w1).
      { rewrite Hw1, slice_length. lia. }
      replace (skipn (size - step) w1 ++ concat (map (skipn (size - step)) ws))
        with (skipn (size - step) (w1 ++ concat (map (skipn (size - step)) ws))).
      * rewrite IH, skipn_skipn.
        replace (size - step + (i + step)) with (i + size) by lia.
        apply slice_skipn.
      * rewrite skipn_app.
        replace (size - step - length w1) with 0 by lia. reflexivity.
Qed.

Lemma Forall2_map_r {A B} (P : A -> B -> Prop) (f : A -> B) l :
  (forall x, In x l -> P x (f x)) -> Forall2 P l (map f l).
Proof.
  induction l as [|x l IH]; intros H; simpl; constructor.
  - apply H. now left.
  - apply IH. intros y Hy. apply H. now right.
Qed.

Lemma kw_group_concat (p : jsstring) : p <> [] -> concat (kw_group p) = p.
Proof.
  intros Hp. unfold kw_group. pose proof cap_facts as Hcap.
  destruct (Nat.ltb_spec Keyword.CAP (length p)) as [Hlong|Hshort]; cbv iota.
  - pose proof (@windows_rejoin N Keyword.CAP Keyword.CAP (length p) p 0
                  Hcap (le_n _) ltac:(lia) ltac:(lia)) as H.
    rewrite Nat.sub_diag in H. unfold rejoin in H.
    destruct (windows Keyword.CAP Keyword.CAP (length p) p 0) as [|t ts].
    + exact H.
    + assert (Hid : map (skipn 0) ts = ts).
      { exact (map_id ts). }
      rewrite Hid in H. exact H.
  - cbn [concat]. apply app_nil_r.
Qed.

Lemma em_group_rejoin (src b : jsstring) :
  b <> [] ->
  rejoin Embedding.OVERLAP (map Embedding.text (em_group src b)) = b.
Proof.
  intros Hb. unfold em_group.
  destruct step_facts as (Hstep & Hle & Hmax & Hov).
  destruct (Nat.leb_spec (length b) Embedding.MAX) as [Hshort|Hlong]; cbv iota.
  - cbn [map rejoin concat]. apply app_nil_r.
  - rewrite map_map. cbn [Embedding.text mkChunk]. rewrite map_id, <- Hov.
    destruct b as [|c b']; [congruence|].
    apply (@windows_rejoin N Embedding.MAX STEP); auto; simpl; lia.
Qed.

End ChunkMore.

Module TextFacts.
Import JS Server JSFacts ChunkFacts ChunkMore.

(** [p] is a contiguous part of [s]. *)
Definition infix {A} (p s : list A) : Prop := exists pre post, s = pre ++ p ++ post.

Lemma infix_refl {A} (s : list A) : infix s s.
Proof. exists [], []. now rewrite app_nil_r. Qed.

Lemma infix_trans {A} (p q s : list A) : infix p q -> infix q s -> infix p s.
Proof.
  intros (a & b & ->) (c & d & ->). exists (c ++ a), (b ++ d).
  now rewrite <- !app_assoc.
Qed.

Lemma infix_In {A} (p s : list A) x : infix p s -> In x p -> In x s.
Proof.
  intros (a & b & ->) H. apply in_or_app. right. apply in_or_app. now left.
Qed.

Lemma dropWhile_suffix {A} (f : A -> bool) l : exists pre, l = pre ++ dropWhile f l.
Proof.
  induction l as [|x l [pre IH]]; simpl.
  - now exists [].
  - destruct (f x).
    + exists (x :: pre). simpl. now f_equal.
    + now exists [].
Qed.

Lemma dropWhile_all {A} (f : A -> bool) l :
  (forall x, In x l -> f x = true) -> dropWhile f l = [].
Proof.
  induction l as [|x l IH]; intros H; simpl; [reflexivity|].
  rewrite (H x) by now left. apply IH. intros y Hy. apply H. now right.
Qed.

Lemma trim_infix s : infix (trim s) s.
Proof.
  unfold trim, trimEnd, trimStart.
  destruct (dropWhile_suffix isWhiteSpace s) as [pre Hpre].
  destruct (dropWhile_suffix isWhiteSpace (rev (dropWhile isWhiteSpace s))) as [post Hpost].
  exists pre, (rev post). rewrite Hpre at 1. f_equal.
  rewrite <- (rev_involutive (dropWhile isWhiteSpace s)) at 1.
  rewrite Hpost at 1. now rewrite rev_app_distr.
Qed.

Lemma trim_blank s : (forall x, In x s -> isWhiteSpace x = true) -> trim s = [].
Proof.
  intros H. unfold trim, trimStart. now rewrite (dropWhile_all _ _ H).
Qed.





(** *** Line feeds *)











Lemma splitBlankAux_In s : forall cur nl piece x,
  In piece (splitBlankAux cur nl s) -> In x piece ->
  In x cur \/ In x s \/ (0 < nl /\ x = LF).
Proof.
  induction s as [|c r IH]; intros cur nl piece x Hin Hx.
  - simpl in Hin. destruct nl as [|[|nl]]; simpl in Hin.
    + destruct Hin as [<-|[]]. left. now apply in_rev.
    + destruct Hin as [<-|[]]. apply in_app_or in Hx. destruct Hx as [Hx|[<-|[]]].
      * left. now apply in_rev.
      * right. right. split; [lia|reflexivity].
    + destruct Hin as [<-|[<-|[]]]; [left; now apply in_rev|destruct Hx].
  - simpl in Hin. destruct (N.eqb_spec c LF) as [->|Hc].
    + specialize (IH _ _ _ _ Hin Hx). simpl. intuition (subst; auto with arith).
    + destruct nl as [|[|nl]].
      * specialize (IH _ _ _ _ Hin Hx). simpl in *. intuition (subst; auto with arith).
      * specialize (IH _ _ _ _ Hin Hx). simpl in *. intuition (subst; auto with arith).
      * destruct Hin as [<-|Hin]; [left; now apply in_rev|].
        specialize (IH _ _ _ _ Hin Hx). simpl in *. intuition (subst; auto with arith).
Qed.

Lemma splitBlank_In s piece x : In piece (splitBlank s) -> In x piece -> In x s.
Proof.
  intros Hin Hx. destruct (splitBlankAux_In _ _ _ _ _ Hin Hx) as [[]|[H|[H _]]]; [exact H|lia].
Qed.



Lemma blank_text_no_blocks (s : jsstring) :
  (forall x, In x s -> isWhiteSpace x = true) ->
  filter nonempty (map trim (splitBlank s)) = [].
Proof.
  intros H. destruct (filter nonempty (map trim (splitBlank s))) as [|b l] eqn:E;
    [reflexivity|].
  assert (Hb : In b (filter nonempty (map trim (splitBlank s)))) by (rewrite E; now left).
  apply filter_In in Hb. destruct Hb as [Hb Hne].
  apply in_map_iff in Hb. destruct Hb as (piece & <- & Hp).
  rewrite trim_blank in Hne; [discriminate|].
  intros x Hx. apply H. eapply splitBlank_In; eauto.
Qed.

End TextFacts.

Section ChunkingProperties.
Import JS Server JSFacts ChunkFacts ChunkMore TextFacts.

(** X1.  In the keyword variant the chunks stored for a block, put end to
    end, are the block: cutting a long paragraph loses, repeats and
    reorders nothing. *)
Theorem keyword_chunks_partition :
  forall (text : jsstring) (w : Keyword.world),
    exists groups : list (list jsstring),
      Keyword.pushChunks text w
      = (Ok tt, Keyword.setChunks (Keyword.knowledgeChunks w ++ concat groups) w)
      /\ Forall2 (fun p g => concat g = p) (Keyword.parts text) groups.
Proof.
  intros text w. exists (map kw_group (Keyword.parts text)).
  split; [apply kw_pushChunks|].
  apply Forall2_map_r. intros p Hp. apply kw_group_concat.
  unfold Keyword.parts in Hp. now apply blocks_nonempty in Hp.
Qed.

(** X2.  In the embedding variant a block is recovered from its chunks:
    the first chunk followed by the later ones, each without its first
    150 characters, which repeat the end of the chunk before. *)
Theorem embedding_chunks_rejoin :
  forall (text src : jsstring) (w : Embedding.world),
    exists groups : list (list Embedding.chunk),
      Embedding.pushChunks text src w
      = (Ok tt, Embedding.setKnowledge (Embedding.knowledge w ++ concat groups) w)
      /\ Forall2 (fun b g => rejoin Embedding.OVERLAP (map Embedding.text g) = b)
                 (Embedding.blocks text) groups.
Proof.
  intros text src w. exists (map (em_group src) (Embedding.blocks text)).
  split; [apply em_pushChunks|].
  apply Forall2_map_r. intros b Hb. apply em_group_rejoin.
  unfold Embedding.blocks in Hb. now apply blocks_nonempty in Hb.
Qed.


(** X4.  A text made of white space only stores nothing, in either
    variant. *)
Theorem blank_text_stores_nothing :
  forall (text src : jsstring) (ew : Embedding.world) (kw : Keyword.world),
    (forall x, In x text -> isWhiteSpace x = true) ->
    Embedding.pushChunks text src ew = (Ok tt, ew)
    /\ Keyword.pushChunks text kw = (Ok tt, kw).
Proof.
  intros text src ew kw Hws. split.
  - rewrite em_pushChunks. unfold Embedding.blocks.
    rewrite blank_text_no_blocks.
    + simpl. now rewrite app_nil_r, em_set_id.
    + intros x Hx. apply Hws. unfold removeCR in Hx. now apply filter_In in Hx.
  - rewrite kw_pushChunks. unfold Keyword.parts.
    rewrite (blank_text_no_blocks _ Hws). simpl. now rewrite app_nil_r, kw_set_id.
Qed.

Lemma blank_text_stores_nothing_witness :
  Embedding.pushChunks ([SP; LF; LF; CR; LF] ++ lit "  ") (lit "notes") Samples.rworld
  = (Ok tt, Samples.rworld)
  /\ Keyword.pushChunks ([SP; LF; LF; CR; LF] ++ lit "  ") Samples.kworld
     = (Ok tt, Samples.kworld).
Proof.
  apply blank_text_stores_nothing.
  intros x Hx. simpl in Hx.
  repeat (destruct Hx as [<-|Hx]; [reflexivity|]). destruct Hx.
Defined.

End ChunkingProperties.

(* ================================================================== *)
(** ** Further properties of loading *)
(* ================================================================== *)

Module LoadMore.
Import JS Server JSFacts ChunkFacts ChunkMore TextFacts LoadFacts IndexFacts EmbeddingLoadFacts.

Lemma loaded_ok_iff {A B} (ok : A -> res unit) (g : A -> list B) l :
  fst (loaded ok g l) = Ok tt <-> forall x, In x l -> ok x = Ok tt.
Proof.
  induction l as [|x l IH]; simpl.
  - split; [intros _ y []|reflexivity].
  - destruct (ok x) as [[]|e] eqn:E.
    + destruct (loaded ok g l) as [result rest]. simpl in *. rewrite IH. split.
      * intros H y [<-|Hy]; auto.
      * intros H y Hy. apply H. now right.
    + simpl. split; [discriminate|]. intros H. specialize (H x (or_introl eq_refl)).
      congruence.
Qed.

Lemma loaded_throw {A B} (ok : A -> res unit) (g : A -> list B) l e :
  fst (loaded ok g l) = Throw e -> exists x, In x l /\ ok x = Throw e.
Proof.
  induction l as [|x l IH]; simpl; [discriminate|].
  destruct (ok x) as [[]|e'] eqn:E.
  - destruct (loaded ok g l) as [result rest]. simpl in *.
    intros H. destruct (IH H) as (y & Hy & Hok). exists y. auto.
  - simpl. intros H. inversion H; subst. exists x. auto.
Qed.


Lemma statResult_throw entry e :
  statResult entry = Throw e -> snd entry = StatThrows e.
Proof. unfold statResult. destruct (snd entry); intros H; inversion H; reflexivity. Qed.

Lemma statResult_ok entry :
  statResult entry = Ok tt <-> forall e, snd entry <> StatThrows e.
Proof.
  unfold statResult. destruct (snd entry); split; intros H; try reflexivity;
    try discriminate; try (intros e'; discriminate).
  exfalso. now apply (H e).
Qed.





End LoadMore.

Section LoadProperties.
Import JS Server JSFacts ChunkFacts ChunkMore TextFacts LoadFacts IndexFacts.
Import EmbeddingLoadFacts LoadMore.

Lemma embedBatches_throw cfg fuel texts : forall i all w e w',
  Embedding.embedBatches cfg fuel texts i all w = (Throw e, w') ->
  exists log batch, embeddings_create (Embedding.api cfg) log (Batch batch) = Throw e.
Proof.
  induction fuel as [|fuel IH]; intros i all w e w' H; simpl in H; [discriminate|].
  destruct (i <? length texts); [|discriminate].
  unfold bind, Embedding.embeddingsCreate in H.
  destruct (embeddings_create _ _ _) as [resp|e'] eqn:Hresp.
  - now apply IH in H.
  - inversion H; subst. eauto.
Qed.

Lemma buildOrLoad_throw cfg w e w' :
  Embedding.buildOrLoadEmbeddings cfg w = (Throw e, w') ->
  Embedding.embeddings w' = Embedding.embeddings w
  /\ exists log batch, embeddings_create (Embedding.api cfg) log (Batch batch) = Throw e.
Proof.
  assert (Hfresh : Embedding.buildFresh cfg w = (Throw e, w') ->
                   Embedding.embeddings w' = Embedding.embeddings w
                   /\ exists log batch,
                        embeddings_create (Embedding.api cfg) log (Batch batch) = Throw e).
  { rewrite buildFresh_run. cbv zeta.
    pose proof (embedBatches_frame cfg (length (map Embedding.text (Embedding.knowledge w)))
                  (map Embedding.text (Embedding.knowledge w)) 0 [] w) as Hf.
    destruct (Embedding.embedBatches _ _ _ _ _ _) as [[all|e'] w1] eqn:Hrun; [discriminate|].
    intros H. inversion H; subst. destruct Hf as (_ & _ & _ & _ & He).
    split; [exact He|]. eapply embedBatches_throw; eauto. }
  unfold Embedding.buildOrLoadEmbeddings, bind, get.
  destruct (Embedding.index w) as [| |cached]; auto.
  destruct (length cached =? length (Embedding.knowledge w)); [discriminate|auto].
Qed.

(** X5.  A text file that cannot be read and a PDF that cannot be parsed
    never make [loadKnowledge] fail.  The keyword variant completes exactly
    when the directory is missing or can be listed and every entry can be
    stat'ed; the embedding variant throws only what listing the directory,
    a [statSync] or the embeddings API threw. *)
Theorem load_fails_only_on_directory_or_api :
  (forall (cfg : Keyword.config) (w : Keyword.world),
     fst (Keyword.loadKnowledge cfg w) = Ok tt
     <-> match Keyword.fs w with
         | Missing => True
         | Unreadable _ => False
         | Listing entries => forall f e, ~ In (f, StatThrows e) entries
         end)
  /\
  (forall (cfg : Embedding.config) (w : Embedding.world) e,
     fst (Embedding.loadKnowledge cfg w) = Throw e ->
     Embedding.fs w = Unreadable e
     \/ (exists entries f, Embedding.fs w = Listing entries /\ In (f, StatThrows e) entries)
     \/ (exists log batch,
           embeddings_create (Embedding.api cfg) log (Batch batch) = Throw e)).
Proof.
  split.
  - intros cfg w. rewrite kw_loadKnowledge.
    destruct (Keyword.fs w) as [|e|entries]; cbn [fst].
    + tauto.
    + split; [discriminate|tauto].
    + rewrite loaded_ok_iff. split.
      * intros H f e Hin. specialize (H _ Hin). discriminate H.
      * intros H [f n] Hin. apply statResult_ok. cbn [snd]. intros e ->.
        now apply (H f e).
  - intros cfg w e. rewrite loadKnowledge_run.
    destruct (Embedding.fs w) as [|e'|entries]; cbn [fst].
    + discriminate.
    + intros H. inversion H. now left.
    + cbv zeta. destruct (fst (loaded _ _ _)) as [[]|e'] eqn:Hl.
      * intros H. right. right.
        destruct (Embedding.buildOrLoadEmbeddings _ _) as [r w'] eqn:Hb.
        cbn [fst] in H. subst r. now apply buildOrLoad_throw in Hb.
      * cbn [fst]. intros H. inversion H; subst. right. left.
        apply loaded_throw in Hl. destruct Hl as ([f n] & Hin & Hst).
        apply statResult_throw in Hst. simpl in Hst. subst n.
        unfold visible in Hin. apply filter_In in Hin. exists entries, f. tauto.
Qed.

Lemma load_fails_only_on_directory_or_api_witness :
  fst (Keyword.loadKnowledge Samples.kcfg Samples.kworld0) = Ok tt.
Proof.
  destruct load_fails_only_on_directory_or_api as [Hk _].
  apply Hk. simpl. intros f e H.
  repeat (destruct H as [H|H]; [discriminate|]). exact H.
Defined.



End LoadProperties.

(* ================================================================== *)
(** ** Further properties of the embedding index *)
(* ================================================================== *)

Module IndexMore.
Import JS Server JSFacts ChunkFacts ChunkMore LoadFacts IndexFacts EmbeddingLoadFacts.

Lemma windows_concat {A} size fuel (s : list A) i :
  0 < size -> length s - i <= fuel ->
  concat (windows size size fuel s i) = skipn i s.
Proof.
  intros Hsize Hfuel. destruct (Nat.lt_ge_cases i (length s)) as [Hi|Hi].
  - pose proof (@windows_rejoin A size size fuel s i Hsize (le_n _) Hfuel Hi) as H.
    rewrite Nat.sub_diag in H. unfold rejoin in H.
    destruct (windows size size fuel s i) as [|t ts]; [exact H|].
    change (map (skipn 0) ts) with (map (fun x : list A => x) ts) in H.
    rewrite map_id in H. exact H.
  - rewrite skipn_all2 by lia. destruct fuel; simpl; [reflexivity|].
    destruct (Nat.ltb_spec i (length s)); [lia|reflexivity].
Qed.

Lemma windows_sizes {A} size fuel (s : list A) i w :
  0 < size -> In w (windows size size fuel s i) -> 1 <= length w <= size.
Proof.
  intros Hsize Hin.
  destruct (windows_nonempty Hsize (le_n _) fuel s i w Hsize Hin) as [Hne Hle].
  split; [|exact Hle]. destruct w; [congruence|simpl; lia].
Qed.

Definition request (batch : list jsstring) : apiCall := EmbeddingsCreate (Batch batch).

Lemma embedBatches_calls cfg fuel texts : forall i all w r w',
  Embedding.embedBatches cfg fuel texts i all w = (Ok r, w') ->
  Embedding.calls w'
  = Embedding.calls w
    ++ map request (windows Embedding.BATCH Embedding.BATCH fuel texts i).
Proof.
  induction fuel as [|fuel IH]; intros i all w r w' H; simpl in H.
  - inversion H; subst. simpl. now rewrite app_nil_r.
  - cbn [windows]. destruct (Nat.ltb_spec i (length texts)) as [Hi|Hi].
    + unfold bind, Embedding.embeddingsCreate in H.
      destruct (embeddings_create _ _ _) as [resp|e]; [|discriminate].
      apply IH in H. rewrite H. cbn [Embedding.calls Embedding.logCall map].
      rewrite <- app_assoc. cbn [app]. f_equal. f_equal.
      destruct (Nat.leb_spec (length texts) (i + Embedding.BATCH)) as [Hend|Hmore];
        [|reflexivity].
      destruct fuel; simpl; [reflexivity|].
      destruct (Nat.ltb_spec (i + Embedding.BATCH) (length texts)); [lia|reflexivity].
    + inversion H; subst. simpl. now rewrite app_nil_r.
Qed.

(** The cache is used: it holds as many vectors as there are chunks. *)
Definition cacheHit (w : Embedding.world) : bool :=
  match Embedding.index w with
  | Embedding.Index cached => length cached =? length (Embedding.knowledge w)
  | _ => false
  end.

Lemma buildOrLoad_cases cfg w :
  Embedding.buildOrLoadEmbeddings cfg w
  = if cacheHit w
    then match Embedding.index w with
         | Embedding.Index cached => (Ok tt, Embedding.setEmbeddings cached w)
         | _ => (Ok tt, w)
         end
    else Embedding.buildFresh cfg w.
Proof.
  unfold Embedding.buildOrLoadEmbeddings, cacheHit, bind, get, modify.
  destruct (Embedding.index w) as [| |cached]; try reflexivity.
  now destruct (length cached =? length (Embedding.knowledge w)).
Qed.

Lemma buildFresh_post cfg w w' :
  Embedding.buildFresh cfg w = (Ok tt, w') ->
  exists all w1,
    Embedding.embedBatches cfg (length (map Embedding.text (Embedding.knowledge w)))
      (map Embedding.text (Embedding.knowledge w)) 0 [] w = (Ok all, w1)
    /\ w' = writeIndex (Embedding.setEmbeddings all w1)
    /\ sameButCalls w w1.
Proof.
  rewrite buildFresh_run. cbv zeta.
  pose proof (embedBatches_frame cfg (length (map Embedding.text (Embedding.knowledge w)))
                (map Embedding.text (Embedding.knowledge w)) 0 [] w) as Hf.
  destruct (Embedding.embedBatches _ _ _ _ _ _) as [[all|e] w1]; [|discriminate].
  intros H. inversion H; subst. exists all, w1. auto.
Qed.

End IndexMore.

Section IndexProperties.
Import JS Server JSFacts ChunkFacts ChunkMore LoadFacts IndexFacts EmbeddingLoadFacts.
Import LoadMore IndexMore.

(** X7.  When [loadKnowledge] of the embedding variant throws, no vector is
    left in memory, whatever part of the corpus was read: the retriever
    then returns the empty list without a request to the API. *)
Theorem failed_load_leaves_no_vectors :
  forall (cfg : Embedding.config) (w w' : Embedding.world) e,
    Embedding.loadKnowledge cfg w = (Throw e, w') ->
    Embedding.embeddings w' = []
    /\ forall question k,
         Embedding.findRelevantChunksEmbedding cfg question k w' = (Ok [], w').
Proof.
  intros cfg w w' e H.
  assert (He : Embedding.embeddings w' = []).
  { rewrite loadKnowledge_run in H.
    destruct (Embedding.fs w) as [|e'|entries]; [discriminate|now inversion H|].
    cbv zeta in H. destruct (fst (loaded _ _ _)) as [[]|e'].
    - apply buildOrLoad_throw in H. destruct H as [H _]. exact H.
    - now inversion H. }
  split; [exact He|]. intros question k. now apply em_find_empty; right.
Qed.

Lemma failed_load_leaves_no_vectors_witness :
  Embedding.embeddings
    (snd (Embedding.loadKnowledge
            {| Embedding.tables := ascii_tables; Embedding.pdfParse := true;
               Embedding.api := Samples.deadService |}
            Samples.eworld0)) = [].
Proof.
  destruct (Embedding.loadKnowledge
              {| Embedding.tables := ascii_tables; Embedding.pdfParse := true;
                 Embedding.api := Samples.deadService |} Samples.eworld0)
    as [r w'] eqn:Hrun.
  assert (Hr : r = Throw {| message := Some (lit "Connection error.") |})
    by (apply (f_equal fst) in Hrun; vm_compute in Hrun; symmetry; exact Hrun).
  subst r. cbn [snd]. now apply failed_load_leaves_no_vectors in Hrun.
Defined.

(** What [JSON] keeps of a number it has written does not change when it
    is written again. *)
Lemma jsonNumber_idem v : jsonNumber (jsonNumber v) = jsonNumber v.
Proof.
  destruct v as [x|]; [|reflexivity]. cbn [jsonNumber].
  destruct (is_finite x) eqn:Hf; [|reflexivity].
  destruct (is_zero x) eqn:Hz; [reflexivity|].
  cbn [jsonNumber]. now rewrite Hf, Hz.
Qed.

Lemma jsonVectors_idem vectors : jsonVectors (jsonVectors vectors) = jsonVectors vectors.
Proof.
  unfold jsonVectors. rewrite map_map. apply map_ext. intros v.
  rewrite map_map. apply map_ext, jsonNumber_idem.
Qed.

Lemma jsonVectors_length vectors : length (jsonVectors vectors) = length vectors.
Proof. apply length_map. Qed.

(** A load that finds a cache of the right size takes its vectors from
    it, whatever was in memory, and sends nothing. *)
Lemma load_from_cache cfg w entries stored :
  Embedding.fs w = Listing entries ->
  fst (loaded statResult (em_fileChunks cfg) (visible entries)) = Ok tt ->
  Embedding.knowledge w = snd (loaded statResult (em_fileChunks cfg) (visible entries)) ->
  Embedding.index w = Embedding.Index stored ->
  length stored = length (Embedding.knowledge w) ->
  forall before,
    Embedding.loadKnowledge cfg (Embedding.setEmbeddings before w)
    = (Ok tt, Embedding.setEmbeddings stored w).
Proof.
  intros Hfs Hl Hk Hi Hlen before. rewrite loadKnowledge_run.
  cbn [Embedding.fs Embedding.setEmbeddings]. rewrite Hfs. cbv zeta. rewrite Hl.
  rewrite buildOrLoad_cases. unfold cacheHit.
  cbn [Embedding.index Embedding.knowledge Embedding.setKnowledge cleared
       Embedding.setEmbeddings].
  rewrite Hi, <- Hk, Hlen, Nat.eqb_refl. reflexivity.
Qed.

(** X8.  Loading again right after a load that completed sends nothing to
    the API, provided the cache file can be written and the API returns
    one vector per text: the second run finds in the cache the vectors
    that the first one left there.  It changes nothing but the vectors,
    which come back as JSON keeps them ([-0] as [0], NaN and the
    infinities as [null]): it changes nothing at all when the vectors in
    memory are what JSON keeps of them, and a third load changes nothing
    in any case. *)
Theorem second_load_hits_cache :
  forall (cfg : Embedding.config) (E : jsstring -> vec) (w w1 : Embedding.world),
    honoursContract (Embedding.api cfg) E ->
    Embedding.indexWritable w = true ->
    Embedding.loadKnowledge cfg w = (Ok tt, w1) ->
    exists stored,
      Embedding.loadKnowledge cfg w1 = (Ok tt, Embedding.setEmbeddings stored w1)
      /\ jsonVectors stored = jsonVectors (Embedding.embeddings w1)
      /\ (jsonVectors (Embedding.embeddings w1) = Embedding.embeddings w1 ->
          stored = Embedding.embeddings w1)
      /\ Embedding.loadKnowledge cfg (Embedding.setEmbeddings stored w1)
         = (Ok tt, Embedding.setEmbeddings stored w1).
Proof.
  intros cfg E w w1 HE Hwr H. rewrite loadKnowledge_run in H.
  destruct (Embedding.fs w) as [|e|entries] eqn:Hfs; [|discriminate|].
  - inversion H; subst. exists []. rewrite !loadKnowledge_run.
    cbn [cleared Embedding.fs Embedding.setEmbeddings Embedding.setKnowledge
         Embedding.embeddings]. rewrite Hfs. repeat split.
  - cbv zeta in H.
    destruct (fst (loaded statResult (em_fileChunks cfg) (visible entries))) as [[]|e] eqn:Hl;
      [|discriminate].
    set (K := snd (loaded statResult (em_fileChunks cfg) (visible entries))) in *.
    assert (Hfresh : forall w0,
              Embedding.fs w0 = Listing entries -> Embedding.knowledge w0 = K ->
              Embedding.indexWritable w0 = true ->
              Embedding.buildFresh cfg w0 = (Ok tt, w1) ->
              Embedding.fs w1 = Listing entries /\ Embedding.knowledge w1 = K
              /\ Embedding.index w1 = Embedding.Index (jsonVectors (Embedding.embeddings w1))
              /\ length (Embedding.embeddings w1) = length K).
    { intros w0 H0fs H0k H0wr H0. apply buildFresh_post in H0.
      destruct H0 as (all & w2 & Hrun & -> & Hf).
      eapply embedBatches_ok in Hrun; [|exact HE|lia].
      destruct Hf as (Hf1 & Hf2 & Hf3 & Hf4 & Hf5).
      unfold writeIndex. cbn [Embedding.indexWritable Embedding.setEmbeddings].
      rewrite Hf3, H0wr. cbn. rewrite Hf1, Hf4, H0fs, H0k. repeat split.
      subst all. rewrite skipn_O. cbn [app]. rewrite !length_map. now rewrite H0k. }
    assert (Hw1 : Embedding.fs w1 = Listing entries /\ Embedding.knowledge w1 = K
                  /\ exists stored,
                       Embedding.index w1 = Embedding.Index stored
                       /\ length stored = length K
                       /\ jsonVectors stored = jsonVectors (Embedding.embeddings w1)
                       /\ (jsonVectors (Embedding.embeddings w1) = Embedding.embeddings w1 ->
                           stored = Embedding.embeddings w1)).
    { rewrite buildOrLoad_cases in H. unfold cacheHit in H.
      cbn [Embedding.index Embedding.knowledge Embedding.setKnowledge cleared
           Embedding.setEmbeddings] in H.
      assert (Hdone : Embedding.buildFresh cfg (Embedding.setKnowledge K (cleared w))
                      = (Ok tt, w1) ->
                Embedding.fs w1 = Listing entries /\ Embedding.knowledge w1 = K
                /\ exists stored,
                     Embedding.index w1 = Embedding.Index stored
                     /\ length stored = length K
                     /\ jsonVectors stored = jsonVectors (Embedding.embeddings w1)
                     /\ (jsonVectors (Embedding.embeddings w1) = Embedding.embeddings w1 ->
                         stored = Embedding.embeddings w1)).
      { intros H0. apply Hfresh in H0; [|exact Hfs|reflexivity|exact Hwr].
        destruct H0 as (H1 & H2 & H3 & H4). split; [exact H1|]. split; [exact H2|].
        exists (jsonVectors (Embedding.embeddings w1)).
        rewrite jsonVectors_length, jsonVectors_idem. auto. }
      destruct (Embedding.index w) as [| |cached] eqn:Hi; try (now apply Hdone).
      destruct (Nat.eqb_spec (length cached) (length K)) as [Heq|Hneq]; [|now apply Hdone].
      inversion H; subst. cbn. rewrite Hfs, Hi. repeat split. exists cached. auto. }
    destruct Hw1 as (H1 & H2 & stored & H3 & H4 & H5 & H6).
    exists stored.
    assert (Hload : forall before,
              Embedding.loadKnowledge cfg (Embedding.setEmbeddings before w1)
              = (Ok tt, Embedding.setEmbeddings stored w1)).
    { apply (@load_from_cache cfg w1 entries stored); auto; rewrite H2; auto. }
    repeat split; [|exact H5|exact H6|apply Hload].
    rewrite <- (Hload (Embedding.embeddings w1)). f_equal. now destruct w1.
Qed.

Lemma second_load_hits_cache_witness :
  Embedding.loadKnowledge Samples.ecfg
    (snd (Embedding.loadKnowledge Samples.ecfg Samples.eworld0))
  = (Ok tt, snd (Embedding.loadKnowledge Samples.ecfg Samples.eworld0)).
Proof.
  destruct (@second_load_hits_cache Samples.ecfg Samples.sampleE Samples.eworld0
              (snd (Embedding.loadKnowledge Samples.ecfg Samples.eworld0)))
    as (stored & Hrun & _ & Hsame & _).
  - intros log texts r H. simpl in H. now inversion H.
  - reflexivity.
  - vm_compute. reflexivity.
  - rewrite Hrun, Hsame; vm_compute; reflexivity.
Defined.

(** The cache does not keep every double: a vector [[-0]] returned by the
    API is in memory after the first load and comes back as [[0]] from
    the cache at the second. *)
Example negative_zero_reloaded :
  let minus := {| embeddings_create := fun _ input =>
                    match input with
                    | Batch texts => Ok (map (fun _ => [Num neg_zero]) texts)
                    | Single _ => Ok [[Num neg_zero]]
                    end;
                  responses_create := fun _ _ _ => Ok Samples.answer |} in
  let cfg := {| Embedding.tables := ascii_tables; Embedding.pdfParse := true;
                Embedding.api := minus |} in
  let once := snd (Embedding.loadKnowledge cfg Samples.startWorld) in
  let twice := snd (Embedding.loadKnowledge cfg once) in
  Embedding.embeddings once = [[Num neg_zero]]
  /\ Embedding.embeddings twice = [[Num 0%float]]
  /\ Embedding.calls twice = Embedding.calls once.
Proof. vm_compute. repeat split. Qed.

(** X9.  [buildOrLoadEmbeddings] sends no request when the cache holds as
    many vectors as there are chunks.  Otherwise, when it completes, the
    requests it sent carry the texts of the corpus in order, cut into
    batches of 1 to 64 texts. *)
Theorem embedding_requests_batched :
  forall (cfg : Embedding.config) (w w' : Embedding.world),
    Embedding.buildOrLoadEmbeddings cfg w = (Ok tt, w') ->
    exists batches,
      Embedding.calls w' = Embedding.calls w ++ map request batches
      /\ Forall (fun b => 1 <= length b <= 64) batches
      /\ concat batches
         = if cacheHit w then [] else map Embedding.text (Embedding.knowledge w).
Proof.
  intros cfg w w' H. rewrite buildOrLoad_cases in H.
  destruct (cacheHit w) eqn:Hhit.
  - exists []. cbn [map concat]. rewrite app_nil_r. repeat split; [|constructor].
    unfold cacheHit in Hhit. destruct (Embedding.index w); inversion H; reflexivity.
  - apply buildFresh_post in H. destruct H as (all & w1 & Hrun & -> & Hf).
    exists (windows Embedding.BATCH Embedding.BATCH
              (length (map Embedding.text (Embedding.knowledge w)))
              (map Embedding.text (Embedding.knowledge w)) 0).
    assert (Hb : 0 < Embedding.BATCH) by (unfold Embedding.BATCH; lia).
    repeat split.
    + apply embedBatches_calls in Hrun. rewrite <- Hrun.
      unfold writeIndex. now destruct (Embedding.indexWritable _).
    + apply Forall_forall. intros b Hin. now apply (windows_sizes _ _ _ _ Hb) in Hin.
    + rewrite windows_concat by (auto; lia). apply skipn_O.
Qed.

Lemma embedding_requests_batched_witness :
  exists batches,
    Embedding.calls
      (snd (Embedding.buildOrLoadEmbeddings Samples.ecfg Samples.rworld))
    = map request batches
    /\ concat batches = map Embedding.text Samples.passages.
Proof.
  destruct (Embedding.buildOrLoadEmbeddings Samples.ecfg Samples.rworld) as [r w'] eqn:Hrun.
  assert (Hr : r = Ok tt) by (apply (f_equal fst) in Hrun; vm_compute in Hrun; congruence).
  subst r. apply embedding_requests_batched in Hrun.
  destruct Hrun as (batches & Hc & _ & Hb). exists batches. split; assumption.
Defined.

End IndexProperties.

(* ================================================================== *)
(** ** Further properties of the keyword retriever *)
(* ================================================================== *)

Module KeywordMore.
Import JS Server JSFacts SortFacts KeywordFacts RetrieverFacts TextFacts.

(** *** The sort keeps elements of equal score in their order *)

Section Stable.
Context {A : Type}.
Variable key : A -> nat.

Definition lower (x y : A) : bool := key x <? key y.

Lemma insert_stable s x l :
  filter (fun y => key y =? s) (insert lower x l)
  = filter (fun y => key y =? s) (x :: l).
Proof.
  induction l as [|y l IH]; [reflexivity|].
  cbn [insert]. unfold lower at 1. destruct (Nat.ltb_spec (key x) (key y)) as [Hlt|Hge].
  - cbn [filter]. rewrite IH. cbn [filter].
    destruct (Nat.eqb_spec (key y) s), (Nat.eqb_spec (key x) s); try reflexivity. lia.
  - reflexivity.
Qed.

Lemma sort_stable s l :
  filter (fun y => key y =? s) (sort lower l) = filter (fun y => key y =? s) l.
Proof.
  induction l as [|x l IH]; [reflexivity|].
  cbn [sort]. rewrite insert_stable. cbn [filter]. now rewrite IH.
Qed.

End Stable.

Lemma byScoreDesc_ltb a b : Keyword.byScoreDesc a b = (snd a <? snd b).
Proof.
  unfold Keyword.byScoreDesc.
  destruct (Z.ltb_spec 0 (Z.of_nat (snd b) - Z.of_nat (snd a)));
    destruct (Nat.ltb_spec (snd a) (snd b)); try reflexivity; lia.
Qed.

Lemma sort_ext {A} (p q : A -> A -> bool) l :
  (forall x y, p x y = q x y) -> sort p l = sort q l.
Proof.
  intros H. induction l as [|x l IH]; [reflexivity|].
  cbn [sort]. rewrite IH. generalize (sort q l). intros m.
  induction m as [|y m IHm]; [reflexivity|].
  cbn [insert]. rewrite H, IHm. reflexivity.
Qed.

Lemma filter_firstn_prefix {A} (p : A -> bool) n l :
  exists rest, filter p l = filter p (firstn n l) ++ rest.
Proof.
  exists (filter p (skipn n l)). rewrite <- filter_app. now rewrite firstn_skipn.
Qed.

Lemma filter_filter_comm {A} (p q : A -> bool) l :
  filter p (filter q l) = filter q (filter p l).
Proof.
  induction l as [|x l IH]; [reflexivity|].
  simpl. destruct (p x) eqn:Ep, (q x) eqn:Eq; simpl; rewrite ?Ep, ?Eq, IH; reflexivity.
Qed.

Lemma filter_map_fst {A B} (f : A -> bool) (g : A * B -> bool) l :
  (forall x, In x l -> g x = f (fst x)) ->
  filter f (map fst l) = map fst (filter g l).
Proof.
  induction l as [|x l IH]; intros H; [reflexivity|].
  simpl. rewrite (H x) by now left. destruct (f (fst x)); simpl; rewrite IH; auto;
    intros y Hy; apply H; now right.
Qed.

(** *** Sums of boosts *)

Lemma boost_mono {A} (f : A -> bool) k l : forall s0,
  s0 <= fold_left (fun s t => if f t then s + k else s) l s0.
Proof.
  induction l as [|t l IH]; intros s0; simpl; [lia|].
  destruct (f t); eapply Nat.le_trans; [|apply IH| |apply IH]; lia.
Qed.

Lemma boost_hit {A} (f : A -> bool) k l t : forall s0,
  In t l -> f t = true ->
  s0 + k <= fold_left (fun s t => if f t then s + k else s) l s0.
Proof.
  induction l as [|u l IH]; intros s0 Hin Hf; [destruct Hin|].
  simpl. destruct Hin as [->|Hin].
  - rewrite Hf. apply boost_mono.
  - eapply Nat.le_trans; [|apply IH; assumption]. destruct (f u); lia.
Qed.

Lemma boost_none {A} (f : A -> bool) k l : forall s0,
  (forall t, In t l -> f t = false) ->
  fold_left (fun s t => if f t then s + k else s) l s0 = s0.
Proof.
  induction l as [|u l IH]; intros s0 H; [reflexivity|].
  simpl. rewrite (H u) by now left. apply IH. intros t Ht. apply H. now right.
Qed.

End KeywordMore.

Section KeywordProperties.
Import JS Server JSFacts SortFacts KeywordFacts RetrieverFacts TextFacts KeywordMore.

Lemma filter_implied {A} (p q : A -> bool) l :
  (forall x, p x = true -> q x = true) -> filter p (filter q l) = filter p l.
Proof.
  intros H. induction l as [|x l IH]; [reflexivity|].
  simpl. destruct (q x) eqn:Eq; simpl; rewrite IH; [reflexivity|].
  destruct (p x) eqn:Ep; [|reflexivity]. rewrite (H x Ep) in Eq. discriminate.
Qed.

Lemma filter_none {A} (p : A -> bool) l :
  (forall x, In x l -> p x = false) -> filter p l = [].
Proof.
  induction l as [|x l IH]; intros H; [reflexivity|].
  simpl. rewrite (H x) by now left. apply IH. intros y Hy. apply H. now right.
Qed.

Lemma sorted_scores_stable cfg chunks question s :
  filter (fun y : jsstring * nat => snd y =? s)
    (sort Keyword.byScoreDesc (Keyword.scored cfg chunks question))
  = filter (fun y => snd y =? s) (Keyword.scored cfg chunks question).
Proof.
  rewrite (sort_ext _ (lower (@snd jsstring nat)) _ byScoreDesc_ltb).
  apply sort_stable.
Qed.

Lemma scored_filter cfg chunks question s :
  map fst (filter (fun y => snd y =? s) (Keyword.scored cfg chunks question))
  = filter (fun c => chunkScore cfg question c =? s) chunks.
Proof.
  rewrite <- (scored_fst cfg chunks question) at 2.
  symmetry. apply filter_map_fst. intros x Hx. apply scored_In in Hx.
  destruct Hx as [_ ->]. reflexivity.
Qed.

(** X11.  Ties keep the order of the corpus: for every score, the hits
    with that score are the first chunks with that score, in the order in
    which the corpus holds them. *)
Theorem keyword_ties_in_corpus_order :
  forall (cfg : Keyword.config) (w : Keyword.world) (question : jsstring) (max : Z) (s : nat),
    exists rest,
      filter (fun c => chunkScore cfg question c =? s) (Keyword.knowledgeChunks w)
      = filter (fun c => chunkScore cfg question c =? s)
          (Keyword.findRelevantChunks cfg w question max)
        ++ rest.
Proof.
  intros cfg w question max s. rewrite findRelevantChunks_kept.
  set (chunks := Keyword.knowledgeChunks w).
  rewrite (filter_map_fst (fun c => chunkScore cfg question c =? s)
             (fun y => snd y =? s)).
  2:{ intros x Hx. apply kept_In in Hx. destruct Hx as (_ & -> & _). reflexivity. }
  destruct s as [|s].
  - exists (filter (fun c => chunkScore cfg question c =? 0) chunks).
    rewrite (filter_none (fun y : jsstring * nat => snd y =? 0)); [reflexivity|].
    intros x Hx. apply kept_In in Hx. destruct Hx as (_ & _ & Hx).
    apply Nat.eqb_neq. lia.
  - unfold kept, slice0. rewrite filter_implied.
    2:{ intros x Hx. apply Nat.eqb_eq in Hx. apply Nat.ltb_lt. lia. }
    match goal with |- context [firstn ?n ?l] =>
      destruct (filter_firstn_prefix (fun y : jsstring * nat => snd y =? S s) n l)
        as [rest Hrest] end.
    exists (map fst rest). rewrite <- map_app, <- Hrest.
    rewrite sorted_scores_stable. symmetry. apply scored_filter.
Qed.

(** X12.  The limit is the only reason for which a chunk with a positive
    score is left out: when such a chunk of the corpus is not among the
    hits, there are as many hits as the limit allows and each of them
    scores at least as much. *)
Theorem keyword_never_skips_a_better_chunk :
  forall (cfg : Keyword.config) (w : Keyword.world) (question c : jsstring) (max : Z),
    (0 <= max)%Z ->
    In c (Keyword.knowledgeChunks w) ->
    0 < chunkScore cfg question c ->
    ~ In c (Keyword.findRelevantChunks cfg w question max) ->
    length (Keyword.findRelevantChunks cfg w question max) = Z.to_nat max
    /\ Forall (fun h => chunkScore cfg question c <= chunkScore cfg question h)
              (Keyword.findRelevantChunks cfg w question max).
Proof.
  intros cfg w question c max Hmax Hc Hpos Hout.
  rewrite findRelevantChunks_kept in *.
  set (chunks := Keyword.knowledgeChunks w) in *.
  set (sorted := sort Keyword.byScoreDesc (Keyword.scored cfg chunks question)).
  assert (Hsorted : StronglySorted (fun x y => snd y <= snd x) sorted).
  { apply sort_sorted with (dom := fun _ => True).
    - intros; lia.
    - intros x y _ _ H. rewrite byScoreDesc_ltb in H. apply Nat.ltb_lt in H. lia.
    - intros x y _ _ H. rewrite byScoreDesc_ltb in H. apply Nat.ltb_ge in H. lia.
    - apply Forall_forall. auto. }
  assert (Hin : In (c, chunkScore cfg question c) sorted).
  { apply (proj2 (sort_In _ _ _)). unfold Keyword.scored.
    apply in_map_iff. exists c. auto. }
  set (n := Z.to_nat (if (max <? 0)%Z then Z.max (Z.of_nat (length sorted) + max) 0
                      else Z.min max (Z.of_nat (length sorted)))).
  assert (Hkept : kept cfg chunks question max = filter (fun x => 0 <? snd x) (firstn n sorted))
    by reflexivity.
  rewrite <- (firstn_skipn n sorted) in Hin, Hsorted.
  apply in_app_or in Hin. destruct Hin as [Hin|Hin].
  - exfalso. apply Hout. apply in_map_iff. exists (c, chunkScore cfg question c).
    split; [reflexivity|]. rewrite Hkept. apply filter_In. split; [exact Hin|].
    now apply Nat.ltb_lt.
  - assert (Hfirst : forall x, In x (firstn n sorted) -> chunkScore cfg question c <= snd x).
    { intros x Hx. apply (StronglySorted_app _ _ Hsorted x (c, chunkScore cfg question c) Hx Hin). }
    assert (Hall : filter (fun x : jsstring * nat => 0 <? snd x) (firstn n sorted)
                   = firstn n sorted).
    { apply forallb_filter_id. apply forallb_forall. intros x Hx.
      apply Nat.ltb_lt. specialize (Hfirst x Hx). lia. }
    rewrite Hkept, Hall. split.
    + rewrite length_map, length_firstn.
      assert (n < length sorted).
      { destruct (Nat.lt_ge_cases n (length sorted)) as [|Hge]; [assumption|].
        rewrite skipn_all2 in Hin by exact Hge. destruct Hin. }
      unfold n in *. destruct (Z.ltb_spec max 0); lia.
    + apply Forall_forall. intros h Hh. apply in_map_iff in Hh.
      destruct Hh as (x & <- & Hx). specialize (Hfirst x Hx).
      assert (Hs : snd x = chunkScore cfg question (fst x)).
      { apply (firstn_In n) in Hx. apply (proj1 (sort_In _ _ _)) in Hx.
        now apply scored_In in Hx. }
      now rewrite <- Hs.
Qed.

Lemma keyword_never_skips_a_better_chunk_witness :
  length (Keyword.findRelevantChunks Samples.kcfg Samples.kworld Samples.question 1) = 1
  /\ Forall (fun h => chunkScore Samples.kcfg Samples.question (lit "fee fee test")
                      <= chunkScore Samples.kcfg Samples.question h)
            (Keyword.findRelevantChunks Samples.kcfg Samples.kworld Samples.question 1).
Proof.
  apply (@keyword_never_skips_a_better_chunk Samples.kcfg Samples.kworld Samples.question
           (lit "fee fee test") 1).
  - lia.
  - simpl. tauto.
  - vm_compute. lia.
  - vm_compute. intros [H|[]]. discriminate.
Defined.

(** X13.  The phrase boosts do not look at the question: a chunk whose
    normalised text holds one of the boosted phrases scores at least 6 for
    every question, the empty one included, and is never dropped for a
    score of zero. *)
Theorem boosted_phrase_scores_for_any_question :
  forall (cfg : Keyword.config) (question c p : jsstring),
    In p (Keyword.phraseBoosts) ->
    includes (Keyword.norm cfg c) p = true ->
    6 <= chunkScore cfg question c.
Proof.
  intros cfg question c p Hp Hinc. unfold chunkScore, Keyword.score. cbv zeta.
  set (tokens := Keyword.qTokens (Keyword.norm cfg question)).
  set (s1 := fold_left _ tokens 0).
  assert (H2 : s1 + 6 <= fold_left
                 (fun s p0 => if includes (Keyword.norm cfg c) p0 then s + 6 else s)
                 Keyword.phraseBoosts s1)
    by (apply (boost_hit (fun p0 => includes (Keyword.norm cfg c) p0) 6 _ p); assumption).
  set (s2 := fold_left _ Keyword.phraseBoosts s1) in *.
  destruct (mentionsRetest _ && mentionsRetest _);
    destruct (hasNumber _ && hasNumber _); lia.
Qed.

Lemma boosted_phrase_scores_for_any_question_witness :
  6 <= chunkScore Samples.kcfg [] (lit "The Waiting Period is two weeks.").
Proof.
  apply (@boosted_phrase_scores_for_any_question Samples.kcfg []
           (lit "The Waiting Period is two weeks.") (lit "waiting period")).
  - simpl. tauto.
  - vm_compute. reflexivity.
Defined.

End KeywordProperties.

Module NormFacts.
Import JS Server JSFacts TextFacts.

Definition HYPHEN : N := 45.

Lemma startsWith_In s : forall p x, startsWith s p = true -> In x p -> In x s.
Proof.
  induction s as [|c s IH]; intros p x H Hx.
  - destruct p; [destruct Hx|discriminate].
  - destruct p as [|d p]; [destruct Hx|].
    simpl in H. apply andb_true_iff in H. destruct H as [Hd Hp].
    apply N.eqb_eq in Hd. subst d. destruct Hx as [<-|Hx]; [now left|].
    right. now apply (IH p).
Qed.

Lemma includes_In s : forall p x, includes s p = true -> In x p -> In x s.
Proof.
  induction s as [|c s IH]; intros p x H Hx; simpl in H.
  - rewrite orb_false_r in H. now apply (startsWith_In [] p).
  - apply orb_true_iff in H. destruct H as [H|H].
    + now apply (startsWith_In (c :: s) p).
    + right. now apply (IH p).
Qed.

Lemma collapseAux_In s : forall inRun x,
  In x (collapseAux inRun s) -> x = SP \/ In x s.
Proof.
  induction s as [|c s IH]; intros inRun x H; simpl in H; [destruct H|].
  destruct (isWhiteSpace c).
  - destruct inRun.
    + destruct (IH _ _ H); auto. right. now right.
    + destruct H as [<-|H]; auto. destruct (IH _ _ H); auto. right. now right.
  - destruct H as [<-|H]; [right; now left|].
    destruct (IH _ _ H); auto. right. now right.
Qed.

(** What [blankNonWord] lets through: spaces, kept characters and the
    halves of a surrogate pair. *)
Definition passes (U : unicode) (x : N) : Prop :=
  x = SP \/ keeps U x = true \/ isHighSurrogate x = true \/ isLowSurrogate x = true.

Lemma blankNonWord_passes U n : forall s x,
  length s <= n -> In x (blankNonWord U s) -> passes U x.
Proof.
  unfold passes.
  induction n as [|n IH]; intros s x Hlen H.
  - destruct s; [destruct H|simpl in Hlen; lia].
  - destruct s as [|c [|d r]]; simpl in H.
    + destruct H.
    + destruct H as [<-|[]]. destruct (keeps U c) eqn:E; auto.
    + destruct (isHighSurrogate c && isLowSurrogate d) eqn:Epair.
      * apply andb_true_iff in Epair. destruct Epair as [Hc Hd].
        destruct (keeps U (codePoint c d)).
        -- destruct H as [<-|[<-|H]]; auto.
           apply (IH r); [simpl in Hlen; lia|exact H].
        -- destruct H as [<-|H]; auto.
           apply (IH r); [simpl in Hlen; lia|exact H].
      * destruct H as [<-|H].
        -- destruct (keeps U c) eqn:E; auto.
        -- apply (IH (d :: r)); [simpl in *; lia|exact H].
Qed.

Lemma norm_passes cfg c x : In x (Keyword.norm cfg c) -> passes (Keyword.tables cfg) x.
Proof.
  unfold Keyword.norm. intros H. apply (@infix_In _ _ _ x (trim_infix _)) in H.
  apply collapseAux_In in H. destruct H as [->|H]; [now left|].
  eapply blankNonWord_passes; [apply le_n|exact H].
Qed.

End NormFacts.

Section NormProperties.
Import JS Server JSFacts TextFacts NormFacts KeywordFacts.

(** X14.  With tables in which the hyphen is neither a letter nor a number
    (as in Unicode), normalising replaces every hyphen by a space, so that
    no normalised text includes a string with a hyphen: the boosts
    [re-test fee] and [re-test waiting] and the synonyms [re-test] and
    [re-take] never add to a score. *)
Theorem hyphenated_entries_never_match :
  forall (cfg : Keyword.config) (c p : jsstring),
    isLetter (Keyword.tables cfg) HYPHEN = false ->
    isNumber (Keyword.tables cfg) HYPHEN = false ->
    In HYPHEN p ->
    ~ In HYPHEN (Keyword.norm cfg c) /\ includes (Keyword.norm cfg c) p = false.
Proof.
  intros cfg c p HL HN Hp.
  assert (Hno : ~ In HYPHEN (Keyword.norm cfg c)).
  { intros H. apply norm_passes in H. unfold passes, keeps in H.
    rewrite HL, HN in H. destruct H as [H|[H|[H|H]]]; discriminate. }
  split; [exact Hno|].
  destruct (includes (Keyword.norm cfg c) p) eqn:E; [|reflexivity].
  exfalso. apply Hno. now apply (includes_In _ p).
Qed.

Lemma hyphenated_entries_never_match_witness :
  includes (Keyword.norm Samples.kcfg (lit "The re-test fee is 50 dollars."))
           (lit "re-test fee") = false.
Proof.
  apply (@hyphenated_entries_never_match Samples.kcfg
           (lit "The re-test fee is 50 dollars.") (lit "re-test fee")).
  - reflexivity.
  - reflexivity.
  - simpl. tauto.
Defined.

End NormProperties.

(* ================================================================== *)
(** ** Further properties of the embedding retriever and of the routes *)
(* ================================================================== *)

Module RouteMore.
Import JS Server JSFacts SortFacts RetrieverFacts TextFacts IndexFacts ChatFacts.

Lemma mapi_from_indices {A B} (g : A -> B) l : forall n,
  map fst (mapi_from n (fun v j => (j, g v)) l) = seq n (length l).
Proof.
  induction l as [|x l IH]; intros n; simpl; [reflexivity|now rewrite IH].
Qed.

Lemma NoDup_firstn {A} n (l : list A) : NoDup l -> NoDup (firstn n l).
Proof.
  intros H. rewrite <- (firstn_skipn n l) in H. now apply NoDup_app_remove_r in H.
Qed.

(** The retriever changes nothing but the log, to which it adds at most
    its request for the embedding of the question. *)
Lemma find_frame cfg question k w :
  sameButCalls w (snd (Embedding.findRelevantChunksEmbedding cfg question k w))
  /\ (Embedding.calls (snd (Embedding.findRelevantChunksEmbedding cfg question k w))
      = Embedding.calls w
      \/ Embedding.calls (snd (Embedding.findRelevantChunksEmbedding cfg question k w))
         = Embedding.calls w ++ [EmbeddingsCreate (Single question)]).
Proof.
  unfold Embedding.findRelevantChunksEmbedding, bind, get, Embedding.embeddingsCreate.
  destruct (negb _ || negb _).
  - split; [apply sameButCalls_refl|now left].
  - destruct (embeddings_create _ _ _) as [[|qVec others]|e]; cbn [snd];
      (split; [repeat split|now right]).
Qed.

Lemma startsWith_app p post : startsWith (p ++ post) p = true.
Proof.
  induction p as [|x p IH]; simpl.
  - now destruct post.
  - now rewrite N.eqb_refl, IH.
Qed.

Lemma includes_infix p s : infix p s -> includes s p = true.
Proof.
  intros (pre & post & ->). induction pre as [|x pre IH].
  - cbn [app]. destruct (p ++ post) eqn:E.
    + destruct p; [reflexivity|discriminate].
    + rewrite <- E. cbn [includes]. rewrite E. cbn [includes].
      rewrite <- E, startsWith_app. reflexivity.
  - cbn [app includes]. rewrite IH. apply orb_true_r.
Qed.

Lemma infix_app_l {A} (p a b : list A) : infix p a -> infix p (a ++ b).
Proof.
  intros (x & y & ->). exists x, (y ++ b). now rewrite <- !app_assoc.
Qed.

Lemma infix_app_r {A} (p a b : list A) : infix p b -> infix p (a ++ b).
Proof.
  intros (x & y & ->). exists (a ++ x), y. now rewrite <- !app_assoc.
Qed.

Lemma infix_join sep l x : In x l -> infix x (join sep l).
Proof.
  induction l as [|y l IH]; intros H; [destruct H|].
  destruct l as [|z l'].
  - destruct H as [<-|[]]. apply infix_refl.
  - change (join sep (y :: z :: l')) with (y ++ sep ++ join sep (z :: l')).
    destruct H as [<-|H].
    + apply infix_app_l, infix_refl.
    + apply infix_app_r, infix_app_r. now apply IH.
Qed.

Lemma mapi_from_In_image {A B} (f : A -> nat -> B) l x : forall n,
  In x l -> exists i, In (f x i) (mapi_from n f l).
Proof.
  induction l as [|y l IH]; intros n H; [destruct H|].
  destruct H as [<-|H].
  - exists n. now left.
  - destruct (IH (S n) H) as [i Hi]. exists i. now right.
Qed.

End RouteMore.

Section RouteProperties.
Import JS Server JSFacts SortFacts RetrieverFacts TextFacts IndexFacts ChatFacts.
Import LoadFacts EmbeddingLoadFacts RouteMore.

(** X10.  Whatever the similarities are, NaN included, the hits of the
    embedding retriever are the chunks at [min k n] pairwise different
    indices of the [n] stored vectors: no position of the corpus comes
    back twice. *)
Theorem embedding_hits_distinct :
  forall (cfg : Embedding.config) (w : Embedding.world) (question : jsstring) (k : Z)
         qVec others,
    (0 <= k)%Z ->
    Embedding.knowledge w <> [] -> Embedding.embeddings w <> [] ->
    embeddings_create (Embedding.api cfg) (Embedding.calls w) (Single question)
      = Ok (qVec :: others) ->
    exists indices,
      fst (Embedding.findRelevantChunksEmbedding cfg question k w)
      = Ok (map (nth_error (Embedding.knowledge w)) indices)
      /\ NoDup indices
      /\ Forall (fun i => i < length (Embedding.embeddings w)) indices
      /\ length indices = Nat.min (Z.to_nat k) (length (Embedding.embeddings w)).
Proof.
  intros cfg w question k qVec others Hk Hkn Hemb Hapi.
  set (sims := Embedding.scored qVec (Embedding.embeddings w)).
  set (sorted := sort Embedding.bySimDesc sims).
  assert (Hperm : Permutation (seq 0 (length (Embedding.embeddings w))) (map fst sorted)).
  { unfold sorted, sims, Embedding.scored, mapi.
    rewrite <- (mapi_from_indices (Embedding.cosineSim qVec) (Embedding.embeddings w) 0).
    apply Permutation_map, sort_perm. }
  exists (map fst (slice0 sorted k)). repeat split.
  - unfold Embedding.findRelevantChunksEmbedding, bind, get, Embedding.embeddingsCreate.
    destruct (Embedding.knowledge w) as [|c kn] eqn:Ek; [congruence|].
    destruct (Embedding.embeddings w) as [|v em] eqn:Ee; [congruence|].
    cbn [length Nat.ltb Nat.leb negb orb]. rewrite Hapi. cbn [fst].
    now rewrite map_map.
  - unfold slice0. rewrite <- firstn_map. apply NoDup_firstn.
    apply (Permutation_NoDup Hperm), seq_NoDup.
  - apply Forall_forall. intros i Hi. apply in_map_iff in Hi.
    destruct Hi as (x & <- & Hx). apply slice0_In in Hx.
    assert (Hin : In (fst x) (seq 0 (length (Embedding.embeddings w)))).
    { apply (Permutation_in _ (Permutation_sym Hperm)). now apply in_map. }
    apply in_seq in Hin. lia.
  - rewrite length_map, (slice0_length_exact _ Hk). unfold sorted.
    rewrite sort_length. unfold sims, Embedding.scored, mapi.
    now rewrite mapi_from_length.
Qed.

Lemma embedding_hits_distinct_witness :
  exists indices,
    fst (Embedding.findRelevantChunksEmbedding Samples.ecfg (lit "hello") 8 Samples.rworld)
    = Ok (map (nth_error Samples.passages) indices)
    /\ NoDup indices /\ length indices = 3.
Proof.
  destruct (@embedding_hits_distinct Samples.ecfg Samples.rworld (lit "hello") 8
              (numbers [1%float; 0%float]) [])
    as (indices & H1 & H2 & _ & H3); try discriminate; try reflexivity; try lia.
  exists indices. repeat split; assumption.
Defined.

(** X15.  A chat request never changes the corpus, the stored vectors nor
    the knowledge directory: it only adds to the log of API requests, at
    most one request in the keyword variant and at most two in the
    embedding variant. *)
Theorem chat_changes_the_log_only :
  (forall (cfg : Keyword.config) (req : request) (w : Keyword.world),
     Keyword.fs (snd (Keyword.chat cfg req w)) = Keyword.fs w
     /\ Keyword.knowledgeChunks (snd (Keyword.chat cfg req w)) = Keyword.knowledgeChunks w
     /\ exists extra,
          Keyword.calls (snd (Keyword.chat cfg req w)) = Keyword.calls w ++ extra
          /\ length extra <= 1)
  /\
  (forall (cfg : Embedding.config) (req : request) (w : Embedding.world),
     sameButCalls w (snd (Embedding.chat cfg req w))
     /\ exists extra,
          Embedding.calls (snd (Embedding.chat cfg req w)) = Embedding.calls w ++ extra
          /\ length extra <= 2).
Proof.
  split.
  - intros cfg req w. unfold Keyword.chat, tryCatch. rewrite kw_chatBody.
    destruct (userMessageOf req) as [userMessage|e].
    + cbv zeta. destruct (responses_create _ _ _ _); cbn [snd];
        (repeat split; eexists; split; [reflexivity|simpl; lia]).
    + cbn [snd Keyword.chatCatch ret]. repeat split. exists []. split; [now rewrite app_nil_r|simpl; lia].
  - intros cfg req w. unfold Embedding.chat, tryCatch, Embedding.chatCatch, ret.
    rewrite em_chatBody.
    destruct (userMessageOf req) as [userMessage|e].
    + destruct (find_frame cfg userMessage 8 w) as [Hf Hc].
      destruct (Embedding.findRelevantChunksEmbedding cfg userMessage 8 w) as [[found|e] w1];
        cbn [snd] in *.
      * assert (Hextra : exists extra0, Embedding.calls w1 = Embedding.calls w ++ extra0
                                        /\ length extra0 <= 1).
        { destruct Hc as [Hc|Hc]; rewrite Hc.
          - exists []. split; [now rewrite app_nil_r|simpl; lia].
          - eexists. split; [reflexivity|simpl; lia]. }
        destruct Hextra as (extra0 & He0 & Hl0).
        destruct (Embedding.defined found) as [hits|e].
        -- cbv zeta. destruct (responses_create _ _ _ _); cbn [snd].
           ++ split; [exact Hf|]. cbn [Embedding.calls Embedding.logCall].
              rewrite He0, <- app_assoc. eexists. split; [reflexivity|].
              rewrite length_app. simpl. lia.
           ++ split; [exact Hf|]. cbn [Embedding.calls Embedding.logCall].
              rewrite He0, <- app_assoc. eexists. split; [reflexivity|].
              rewrite length_app. simpl. lia.
        -- cbn [snd]. split; [exact Hf|]. exists extra0. split; [exact He0|lia].
      * split; [exact Hf|]. destruct Hc as [Hc|Hc]; rewrite Hc.
        -- exists []. split; [now rewrite app_nil_r|simpl; lia].
        -- eexists. split; [reflexivity|simpl; lia].
    + cbn [snd]. split; [apply sameButCalls_refl|]. exists []. split; [now rewrite app_nil_r|simpl; lia].
Qed.

(** X16.  A chat request that fails before the model is reached answers
    500 without asking the model: when the message cannot be turned into
    a string nothing is sent to the API, and when the request for the
    embedding of the question throws, or comes back without data, that
    request is the only one sent.  In the last case the [error] of the
    response is the message of the engine's [TypeError]. *)
Theorem chat_fails_without_asking_the_model :
  (forall (cfg : Keyword.config) (req : request) (w : Keyword.world) e,
     userMessageOf req = Throw e ->
     Keyword.chat cfg req w = (Ok (error500 e), w))
  /\
  (forall (cfg : Embedding.config) (req : request) (w : Embedding.world) e,
     userMessageOf req = Throw e ->
     Embedding.chat cfg req w = (Ok (error500 e), w))
  /\
  (forall (cfg : Embedding.config) (req : request) (w : Embedding.world) userMessage,
     userMessageOf req = Ok userMessage ->
     Embedding.knowledge w <> [] -> Embedding.embeddings w <> [] ->
     (forall e,
        embeddings_create (Embedding.api cfg) (Embedding.calls w) (Single userMessage)
          = Throw e ->
        Embedding.chat cfg req w
        = (Ok (error500 e), Embedding.logCall (EmbeddingsCreate (Single userMessage)) w))
     /\
     (embeddings_create (Embedding.api cfg) (Embedding.calls w) (Single userMessage)
        = Ok [] ->
      Embedding.chat cfg req w
      = (Ok {| status := 500;
               json := [("error"%string,
                         lit "Cannot read properties of undefined (reading 'embedding')")] |},
         Embedding.logCall (EmbeddingsCreate (Single userMessage)) w))).
Proof.
  split; [|split].
  - intros cfg req w e H. unfold Keyword.chat, tryCatch. now rewrite kw_chatBody, H.
  - intros cfg req w e H. unfold Embedding.chat, tryCatch. now rewrite em_chatBody, H.
  - intros cfg req w userMessage Hmsg Hkn Hemb.
    unfold Embedding.chat, tryCatch. rewrite em_chatBody, Hmsg.
    unfold Embedding.findRelevantChunksEmbedding, bind, get, Embedding.embeddingsCreate.
    destruct (Embedding.knowledge w) as [|c kn]; [congruence|].
    destruct (Embedding.embeddings w) as [|v em]; [congruence|].
    cbn [length Nat.ltb Nat.leb negb orb].
    split; [intros e Hfail|intros Hfail]; rewrite Hfail; reflexivity.
Qed.

(** A message whose conversion to a string throws. *)
Definition unprintable : error :=
  {| message := Some (lit "Cannot convert object to primitive value") |}.

(** An embeddings API that answers without data. *)
Definition silentService : service :=
  {| embeddings_create := fun _ _ => Ok [];
     responses_create := fun _ _ _ => Ok Samples.answer |}.

Lemma chat_fails_without_asking_the_model_witness :
  Embedding.chat
    {| Embedding.tables := ascii_tables; Embedding.pdfParse := true;
       Embedding.api := Samples.deadService |}
    {| body := Some (JString (lit "hello")) |} Samples.rworld
  = (Ok (error500 {| message := Some (lit "Connection error.") |}),
     Embedding.logCall (EmbeddingsCreate (Single (lit "hello"))) Samples.rworld)
  /\ Embedding.chat
       {| Embedding.tables := ascii_tables; Embedding.pdfParse := true;
          Embedding.api := silentService |}
       {| body := Some (JString (lit "hello")) |} Samples.rworld
     = (Ok {| status := 500;
              json := [("error"%string,
                        lit "Cannot read properties of undefined (reading 'embedding')")] |},
        Embedding.logCall (EmbeddingsCreate (Single (lit "hello"))) Samples.rworld)
  /\ Keyword.chat Samples.kcfg
       {| body := Some (JOther true (Throw unprintable)) |} Samples.kworld
     = (Ok (error500 unprintable), Samples.kworld).
Proof.
  destruct chat_fails_without_asking_the_model as (Hk & _ & He).
  split; [|split].
  - apply (He {| Embedding.tables := ascii_tables; Embedding.pdfParse := true;
                 Embedding.api := Samples.deadService |}
              {| body := Some (JString (lit "hello")) |} Samples.rworld (lit "hello")
              eq_refl); [discriminate|discriminate|reflexivity].
  - apply (He {| Embedding.tables := ascii_tables; Embedding.pdfParse := true;
                 Embedding.api := silentService |}
              {| body := Some (JString (lit "hello")) |} Samples.rworld (lit "hello")
              eq_refl); [discriminate|discriminate|reflexivity].
  - apply Hk. reflexivity.
Defined.

(** X17.  After a [POST /reload] that answered 500 the chat route sends
    the model the system instruction alone, whatever part of the corpus
    the failed run had read. *)
Theorem chat_after_failed_reload :
  forall (cfg : Embedding.config) (w w' : Embedding.world) resp req userMessage,
    Embedding.reload cfg w = (Ok resp, w') ->
    status resp = 500 ->
    userMessageOf req = Ok userMessage ->
    Embedding.embeddings w' = []
    /\ Embedding.calls (snd (Embedding.chat cfg req w'))
       = Embedding.calls w' ++ [ResponsesCreate Embedding.system userMessage].
Proof.
  intros cfg w w' resp req userMessage Hreload Hstatus Hmsg.
  assert (He : Embedding.embeddings w' = []).
  { unfold Embedding.reload, tryCatch, bind, get, ret in Hreload.
    destruct (Embedding.loadKnowledge cfg w) as [[[]|e] w1] eqn:Hload.
    - inversion Hreload; subst. discriminate Hstatus.
    - inversion Hreload; subst. rewrite loadKnowledge_run in Hload.
      destruct (Embedding.fs w) as [|e'|entries]; [discriminate|now inversion Hload|].
      cbv zeta in Hload. destruct (fst (loaded _ _ _)) as [[]|e'].
      + unfold Embedding.buildOrLoadEmbeddings, bind, get in Hload.
        assert (Hfresh : forall w0, Embedding.buildFresh cfg w0 = (Throw e, w') ->
                                    Embedding.embeddings w' = Embedding.embeddings w0).
        { intros w0. rewrite buildFresh_run. cbv zeta.
          pose proof (embedBatches_frame cfg
                        (length (map Embedding.text (Embedding.knowledge w0)))
                        (map Embedding.text (Embedding.knowledge w0)) 0 [] w0) as Hf.
          destruct (Embedding.embedBatches _ _ _ _ _ _) as [[all|e0] w2];
            [discriminate|].
          intros H. inversion H; subst. now destruct Hf as (_ & _ & _ & _ & Hf). }
        destruct (Embedding.index _) as [| |cached];
          try (now apply Hfresh in Hload).
        destruct (length cached =? _); [discriminate|now apply Hfresh in Hload].
      + now inversion Hload. }
  split; [exact He|].
  unfold Embedding.chat, tryCatch. rewrite em_chatBody, Hmsg.
  unfold Embedding.findRelevantChunksEmbedding, bind, get. rewrite He.
  cbn [length Nat.ltb Nat.leb negb]. rewrite orb_true_r.
  cbn [ret Embedding.defined Embedding.context]. cbv zeta. rewrite app_nil_r.
  destruct (responses_create _ _ _ _); reflexivity.
Qed.

Lemma chat_after_failed_reload_witness :
  Embedding.embeddings
    (snd (Embedding.reload
            {| Embedding.tables := ascii_tables; Embedding.pdfParse := true;
               Embedding.api := Samples.deadService |} Samples.eworld0)) = [].
Proof.
  destruct (Embedding.reload
              {| Embedding.tables := ascii_tables; Embedding.pdfParse := true;
                 Embedding.api := Samples.deadService |} Samples.eworld0)
    as [r w'] eqn:Hrun.
  assert (Hr : r = Ok {| status := 500;
                         json := [("error"%string, lit "Connection error.")] |})
    by (apply (f_equal fst) in Hrun; vm_compute in Hrun; symmetry; exact Hrun).
  subst r. cbn [snd].
  apply (@chat_after_failed_reload _ Samples.eworld0 w' _
           {| body := Some (JString (lit "hello")) |} (lit "hello") Hrun);
    reflexivity.
Defined.

(** X18.  Every retrieved passage reaches the model word for word: the
    reference block includes each hit of the keyword variant, and the text
    and the source of each hit of the embedding variant. *)
Theorem context_includes_every_hit :
  (forall (hits : list jsstring) c,
     In c hits -> includes (Keyword.context hits) c = true)
  /\
  (forall (hits : list Embedding.chunk) h,
     In h hits ->
     includes (Embedding.context hits) (Embedding.text h) = true
     /\ includes (Embedding.context hits) (Embedding.source h) = true).
Proof.
  split.
  - intros hits c Hc. apply includes_infix. unfold Keyword.context, mapi.
    destruct hits as [|h0 rest] eqn:E; [destruct Hc|]. rewrite <- E in *.
    destruct (mapi_from_In_image Keyword.renderHit hits c 0 Hc) as [i Hi].
    apply infix_app_r, infix_app_r, infix_app_r, infix_app_l.
    eapply infix_trans; [|apply (infix_join _ _ _ Hi)].
    unfold Keyword.renderHit. apply infix_app_r, infix_app_r, infix_app_r, infix_refl.
  - intros hits h Hh. unfold Embedding.context, mapi.
    destruct hits as [|h0 rest] eqn:E; [destruct Hh|]. rewrite <- E in *.
    destruct (mapi_from_In_image Embedding.renderHit hits h 0 Hh) as [i Hi].
    split; apply includes_infix;
      apply infix_app_r, infix_app_r, infix_app_r, infix_app_l;
      (eapply infix_trans; [|apply (infix_join _ _ _ Hi)]);
      unfold Embedding.renderHit.
    + do 5 apply infix_app_r. apply infix_refl.
    + do 3 apply infix_app_r. apply infix_app_l, infix_refl.
Qed.

Lemma context_includes_every_hit_witness :
  includes (Keyword.context Samples.corpus) (lit "The retest fee is 50 dollars.") = true.
Proof.
  destruct context_includes_every_hit as [Hk _].
  apply Hk. simpl. tauto.
Defined.

End RouteProperties.

Section TokenProperties.
Import JS Server JSFacts KeywordFacts.

Lemma has_In set w : has set w = true <-> In w set.
Proof.
  unfold has. rewrite existsb_exists. split.
  - intros (x & Hx & Heq). apply str_eqb_eq in Heq. now subst.
  - intros H. exists w. split; [exact H|]. now apply str_eqb_eq.
Qed.

(** What holds of a token set: no token twice, every token longer than two
    code units. *)
Definition tokenSet (set : list jsstring) : Prop :=
  NoDup set /\ Forall (fun t => 2 < length t) set.

Lemma add_tokenSet set w : tokenSet set -> 2 < length w -> tokenSet (add set w).
Proof.
  intros [Hnd Hlen] Hw. unfold add. destruct (has set w) eqn:E; [now split|].
  split.
  - apply NoDup_app; [exact Hnd|repeat constructor; intros []|].
    intros x Hx [<-|[]]. apply has_In in Hx. congruence.
  - apply Forall_app. split; [exact Hlen|now repeat constructor].
Qed.

Lemma fold_add_tokenSet ws : forall set,
  tokenSet set -> Forall (fun t => 2 < length t) ws -> tokenSet (fold_left add ws set).
Proof.
  induction ws as [|w ws IH]; intros set Hset Hws; [exact Hset|].
  inversion Hws; subst. simpl. apply IH; [|assumption]. now apply add_tokenSet.
Qed.

(** X19.  [qTokens] holds every token once, and only tokens of more than
    two characters: a word repeated in the question, or brought in by
    several synonym sets, counts once in a score. *)
Theorem question_tokens_distinct :
  forall q : jsstring,
    NoDup (Keyword.qTokens q) /\ Forall (fun t => 2 < length t) (Keyword.qTokens q).
Proof.
  intros q. unfold Keyword.qTokens.
  assert (Hsyn : Forall (Forall (fun t : jsstring => 2 < length t)) Keyword.synonymSets).
  { unfold Keyword.synonymSets. repeat constructor; simpl; lia. }
  assert (Hstart : tokenSet (newSet (filter (fun w => 2 <? length w) (splitOn SP q)))).
  { unfold newSet. apply fold_add_tokenSet.
    - split; constructor.
    - apply Forall_forall. intros w Hw. apply filter_In in Hw.
      now apply Nat.ltb_lt. }
  revert Hstart. generalize (newSet (filter (fun w => 2 <? length w) (splitOn SP q))).
  induction Hsyn as [|set sets Hset Hsets IH]; intros tokens Htok; [exact Htok|].
  simpl. apply IH. destruct (existsb (has tokens) set); [|exact Htok].
  now apply fold_add_tokenSet.
Qed.

(** Asking for the fee three times gives the tokens of asking once. *)
Example repeated_word_counts_once :
  Keyword.qTokens (lit "fee fee fee") = Keyword.qTokens (lit "fee").
Proof. vm_compute. reflexivity. Qed.

End TokenProperties.
